(** * DocuMind RAG core: a shallow embedding and its checked properties

    The development follows the Python sources of the backend:

    - [VectorDB]   : [app/services/custom_rag.py], class [CustomVectorDB]
                     ([add_document], [search]);
    - [SemCache]   : [app/core/semantic_cache.py] ([SemanticCache.set]) and
                     the caching step of [app/services/cached_rag.py];
    - [RelStore]   : [app/core/database.py] (connection pool, transactions,
                     [add_message], [delete_conversation]) and the
                     persistence step of [send_message] in [app/core/main.py];
    - [RateLimit]  : [app/core/rate_limiting.py] ([RateLimiter]);
    - [Sanitizer]  : [sanitize_error_message] in [app/core/main.py];
    - [Cache], [CachedStore] : [app/core/cache.py] ([CacheManager],
                     [cached]) and the cached functions of [database.py];
    - [Verification] : the verification codes of
                     [app/core/config_manager.py];
    - [EmbeddingCache], [Embedder], [Chunker], [Ingest] :
                     [EmbeddingCache], [CustomEmbedder.embed_texts],
                     [CustomChunker.chunk_text] and
                     [CustomRAGSystem.add_pdf] of [custom_rag.py];
    - [Retry]      : [retry_with_exponential_backoff] in [app/core/main.py].

    Python exceptions are values of [exn]; a call that may raise returns a
    [res].  SQLite tables are lists of rows in rowid order.  Wall-clock
    readings and injected faults are explicit arguments. *)

From Stdlib Require Import ZArith Lia Ascii String Floats.
From Stdlib Require Import DecimalString.
From stdpp Require Import gmap strings list sorting.

Open Scope Z_scope.

(** ** Exceptions and results *)

Inductive exn : Type :=
  | ValueError
  | IndexError
  | TimeoutError
  | IntegrityError
  | KeyError
  | DatabaseError.

Inductive res (A : Type) : Type :=
  | Ok (a : A)
  | Raise (e : exn).
Arguments Ok {A} a.
Arguments Raise {A} e.

#[global] Instance res_ret : MRet res := fun A a => Ok a.
#[global] Instance res_bind : MBind res := fun A B f m =>
  match m with
  | Ok a => f a
  | Raise e => Raise e
  end.

#[global] Instance res_fmap : FMap res := fun A B f m =>
  match m with
  | Ok a => Ok (f a)
  | Raise e => Raise e
  end.

(** [l[i]] for every [i] of [idx], in order; a position outside [l] raises
    [IndexError] (numpy fancy indexing and Python list indexing with the
    non-negative indices produced by [argsort]). *)
Fixpoint take_idx {A : Type} (l : list A) (idx : list nat) : res (list A) :=
  match idx with
  | [] => Ok []
  | i :: idx' =>
      match l !! i with
      | Some a => r ← take_idx l idx'; Ok (a :: r)
      | None => Raise IndexError
      end
  end.

(** Python's [l[start:]] on a sequence of length [n]. *)
Definition py_slice_from {A : Type} (start : Z) (l : list A) : list A :=
  let n := Z.of_nat (length l) in
  let s := if start <? 0 then Z.max (start + n) 0 else Z.min start n in
  drop (Z.to_nat s) l.

(** [float(n)] for an integer below 2^63 in absolute value, as in
    [time.time() + ttl]. *)
Definition float_of_int (n : Z) : float :=
  if n <? 0 then PrimFloat.opp (PrimFloat.of_uint63 (Uint63.of_Z (- n)))
  else PrimFloat.of_uint63 (Uint63.of_Z n).

(** ** The numeric kernel

    The similarity arithmetic runs in numpy on float32 through BLAS; the
    order in which a dot product is accumulated is not fixed by the source.
    The kernel is therefore an interface: the float32 carrier, the
    conversions from and to Python floats (binary64, Rocq's [float]), the
    vector and scalar operations [search] uses, and the order numpy sorts
    by (NaN last), which is a strict weak order. *)

Record np_kernel : Type := {
  f32 : Type;
  to_f32 : float -> f32;              (* np.array(xs, dtype=np.float32) *)
  of_f32 : f32 -> float;              (* float(x) *)
  dot : list f32 -> list f32 -> f32;  (* one row of np.dot(M, q) *)
  norm : list f32 -> f32;             (* np.linalg.norm *)
  fmul : f32 -> f32 -> f32;
  fadd : f32 -> f32 -> f32;
  fdiv : f32 -> f32 -> f32;
  eps : f32;                          (* 1e-8 *)
  flt : f32 -> f32 -> bool;           (* the order of np.sort *)
  flt_irrefl : forall x, flt x x = false;
  flt_trans : forall x y z, flt x y = true -> flt y z = true -> flt x z = true;
  flt_cotrans : forall x y z,
    flt x y = true -> flt x z = true \/ flt z y = true
}.

(** An executable kernel on binary64 primitive floats, used to run the
    model on concrete stores.  [real_key] sends a float to its value scaled
    by 2^1074 (an integer), infinities and NaN beyond every finite value,
    so that comparing keys is comparing floats with NaN last. *)
Module Binary64.

Definition real_key (x : float) : Z :=
  match Prim2SF x with
  | S754_zero _ => 0
  | S754_infinity s => if s then - 2 ^ 3000 else 2 ^ 3000
  | S754_nan => 2 ^ 3001
  | S754_finite s m e =>
      let v := Z.pos m * 2 ^ (e + 1074) in
      if s then - v else v
  end.

Definition lt64 (x y : float) : bool := real_key x <? real_key y.

Fixpoint dot64 (a b : list float) : float :=
  match a, b with
  | x :: a', y :: b' => (x * y + dot64 a' b')%float
  | _, _ => 0%float
  end.

Definition norm64 (a : list float) : float := PrimFloat.sqrt (dot64 a a).

Lemma lt64_irrefl x : lt64 x x = false.
Proof. unfold lt64. apply Z.ltb_irrefl. Qed.

Lemma lt64_trans x y z : lt64 x y = true -> lt64 y z = true -> lt64 x z = true.
Proof. unfold lt64. rewrite !Z.ltb_lt. lia. Qed.

Lemma lt64_cotrans x y z :
  lt64 x y = true -> lt64 x z = true \/ lt64 z y = true.
Proof. unfold lt64. rewrite !Z.ltb_lt. lia. Qed.

Definition kernel : np_kernel := {|
  f32 := float;
  to_f32 := fun x => x;
  of_f32 := fun x => x;
  dot := dot64;
  norm := norm64;
  fmul := PrimFloat.mul;
  fadd := PrimFloat.add;
  fdiv := PrimFloat.div;
  eps := 0x1.5798ee2308c3ap-27%float;
  flt := lt64;
  flt_irrefl := lt64_irrefl;
  flt_trans := lt64_trans;
  flt_cotrans := lt64_cotrans
|}.

End Binary64.

(** ** Hashing

    [hashlib.md5(s.encode()).hexdigest()], symbolically: two digests are
    equal exactly when the hashed strings are (no collisions). *)
Inductive digest : Type := MD5 (s : string).

#[global] Instance digest_eq_dec : EqDecision digest.
Proof. solve_decision. Defined.

#[global] Instance digest_countable : Countable digest :=
  inj_countable' (fun d => match d with MD5 s => s end) MD5
    (fun d => match d with MD5 s => eq_refl end).

(** ** The per-tenant vector index: [CustomVectorDB] *)

Module VectorDB.

Section Index.

Context (K : np_kernel).

(** A row of [documents]. *)
Record document : Type := {
  doc_id : Z;
  filename : string;
  file_hash : digest
}.

(** A row of [chunks].  The [embedding] BLOB holds the float32 array written
    by [np.array(e, dtype=np.float32).tobytes()] and read back by
    [np.frombuffer(blob, dtype=np.float32)]; it is kept as that array. *)
Record chunk : Type := {
  chunk_id : Z;
  document_id : Z;
  conversation_id : option Z;      (* INTEGER, nullable *)
  chunk_text : string;
  chunk_index : Z;
  embedding : list (f32 K)
}.

(** The database file: both tables in rowid order, and the AUTOINCREMENT
    counters (the largest rowid ever handed out by each table). *)
Record store : Type := {
  documents : list document;
  chunks : list chunk;
  doc_seq : Z;
  chunk_seq : Z
}.

Definition empty_store : store :=
  {| documents := []; chunks := []; doc_seq := 0; chunk_seq := 0 |}.

(** [add_document].  [fault] says that SQLite raises inside the [try]
    block: the transaction is rolled back and the exception re-raised. *)
Definition add_document (fault : bool) (st : store) (fname : string)
    (chunk_list : list string) (embeddings : list (list float))
    (conv : option Z) : res Z * store :=
  let fhash := MD5 fname in
  if fault then (Raise DatabaseError, st) else
  (* INSERT OR REPLACE: a row with the same unique file_hash is removed *)
  let kept := filter (fun d => file_hash d <> fhash) (documents st) in
  let new_doc_id := doc_seq st + 1 in
  let new_doc := {| doc_id := new_doc_id; filename := fname; file_hash := fhash |} in
  let chunk_data :=
    imap (fun idx ce =>
            {| chunk_id := chunk_seq st + 1 + Z.of_nat idx;
               document_id := new_doc_id;
               conversation_id := conv;
               chunk_text := ce.1;
               chunk_index := Z.of_nat idx;
               embedding := map (to_f32 K) ce.2 |})
         (zip chunk_list embeddings) in
  (Ok new_doc_id,
   {| documents := kept ++ [new_doc];
      chunks := chunks st ++ chunk_data;
      doc_seq := new_doc_id;
      chunk_seq := chunk_seq st + Z.of_nat (length chunk_data) |}).

(** SQL comparison [a = b]: unknown (no row selected) when a side is NULL. *)
Definition sql_eq (a b : option Z) : option bool :=
  match a, b with
  | Some x, Some y => Some (bool_decide (x = y))
  | _, _ => None
  end.

(** [WHERE conversation_id = ? AND conversation_id IS NOT NULL]. *)
Definition where_conversation (c : Z) (ch : chunk) : bool :=
  match sql_eq (conversation_id ch) (Some c) with
  | Some true => bool_decide (conversation_id ch <> None)
  | _ => false
  end.

(** [min(500, max(top_k * 50, 100))]. *)
Definition load_limit (top_k : Z) : Z := Z.min 500 (Z.max (top_k * 50) 100).

(** The SELECT of [search]: matching rows in rowid order, at most [limit]. *)
Definition select_rows (st : store) (c : Z) (limit : Z) : list chunk :=
  take (Z.to_nat limit) (List.filter (where_conversation c) (chunks st)).

(** One entry of
    [np.dot(embeddings_matrix, query_vec) / (norms * query_norm + 1e-8)]. *)
Definition similarity (query_vec : list (f32 K)) (query_norm : f32 K)
    (row : list (f32 K)) : f32 K :=
  fdiv K (dot K row query_vec)
         (fadd K (fmul K (norm K row) query_norm) (eps K)).

(** [np.argsort]: indices that sort the array in increasing order.  The
    model is the insertion sort numpy's default sort runs on short arrays:
    an index moves left only past strictly larger values, so equal values
    keep their order. *)
Fixpoint insert_by (x : nat * f32 K) (l : list (nat * f32 K))
    : list (nat * f32 K) :=
  match l with
  | [] => [x]
  | y :: l' => if flt K x.2 y.2 then x :: y :: l' else y :: insert_by x l'
  end.

Definition sort_pairs (l : list (nat * f32 K)) : list (nat * f32 K) :=
  foldl (fun acc x => insert_by x acc) [] l.

Definition argsort (a : list (f32 K)) : list nat :=
  (sort_pairs (imap pair a)).*1.

(** [np.argpartition(a, kth)]: [kth] counts from the end when negative and
    must name a position of [a]; the result puts the [kth] smallest first.
    Any order within the two parts is allowed by numpy; the model returns
    the fully sorted one. *)
Definition argpartition (a : list (f32 K)) (kth : Z) : res (list nat) :=
  let n := Z.of_nat (length a) in
  let k := if kth <? 0 then kth + n else kth in
  if (k <? 0) || (n <=? k) then Raise ValueError else Ok (argsort a).

(** The selection of [top_indices] in [search]. *)
Definition top_indices (similarities : list (f32 K)) (top_k : Z)
    : res (list nat) :=
  if top_k <? Z.of_nat (length similarities) then
    part ← argpartition similarities (- top_k);
    let top := py_slice_from (- top_k) part in
    sub ← take_idx similarities top;
    sel ← take_idx top (argsort sub);
    Ok (reverse sel)
  else
    Ok (reverse (argsort similarities)).

(** [search]. *)
Definition search (st : store) (query_embedding : list float)
    (top_k : Z) (conv : option Z) : res (list (string * float)) :=
  match conv with
  | None => Ok []
  | Some c =>
      let rows := select_rows st c (load_limit top_k) in
      let query_vec := map (to_f32 K) query_embedding in
      let query_norm := norm K query_vec in
      match rows with
      | [] => Ok []
      | r0 :: _ =>
          let texts := map chunk_text rows in
          let embeddings_list := map embedding rows in
          let d := length (embedding r0) in
          (* np.vstack: every row has the width of the first *)
          if negb (forallb (fun e => Nat.eqb (length e) d) embeddings_list)
          then Raise ValueError
          (* np.dot: the query has the width of the matrix *)
          else if negb (Nat.eqb d (length query_vec)) then Raise ValueError
          else
            let similarities :=
              map (similarity query_vec query_norm) embeddings_list in
            idx ← top_indices similarities top_k;
            ts ← take_idx texts idx;
            ss ← take_idx similarities idx;
            Ok (zip ts (map (of_f32 K) ss))
      end
  end.

(** The rows behind the pairs [search] returns, in the order of the
    result (the SELECT keeps only their text and embedding). *)
Definition ranked_rows (st : store) (query_embedding : list float)
    (top_k : Z) (c : Z) : res (list chunk) :=
  let rows := select_rows st c (load_limit top_k) in
  let query_vec := map (to_f32 K) query_embedding in
  let query_norm := norm K query_vec in
  match rows with
  | [] => Ok []
  | r0 :: _ =>
      let d := length (embedding r0) in
      if negb (forallb (fun e => Nat.eqb (length e) d) (map embedding rows))
      then Raise ValueError
      else if negb (Nat.eqb d (length query_vec)) then Raise ValueError
      else
        idx ← top_indices
                 (map (similarity query_vec query_norm)
                      (map embedding rows)) top_k;
        take_idx rows idx
  end.

(** The similarity [search] computes for a stored chunk. *)
Definition score (query_embedding : list float) (ch : chunk) : f32 K :=
  let query_vec := map (to_f32 K) query_embedding in
  similarity query_vec (norm K query_vec) (embedding ch).

(** Rowids grow along the [chunks] table. *)
Definition ids_increasing (st : store) : Prop :=
  forall i j a b, (i < j)%nat ->
    chunks st !! i = Some a -> chunks st !! j = Some b ->
    chunk_id a < chunk_id b.

End Index.

Arguments chunk_id {K} _.
Arguments document_id {K} _.
Arguments conversation_id {K} _.
Arguments chunk_text {K} _.
Arguments chunk_index {K} _.
Arguments embedding {K} _.
Arguments documents {K} _.
Arguments chunks {K} _.

(** The store of the examples: one document of two chunks with the same
    embedding, ingested for conversation 7. *)
Definition two_equal_chunks : store Binary64.kernel :=
  (add_document Binary64.kernel false (empty_store Binary64.kernel)
     "a.pdf" ["first"; "second"]%string [[1; 0]; [1; 0]]%float (Some 7)).2.

Definition first_chunk : chunk Binary64.kernel :=
  {| chunk_id := 1; document_id := 1; conversation_id := Some 7;
     chunk_text := "first"; chunk_index := 0;
     embedding := ([1; 0]%float : list (f32 Binary64.kernel)) |}.

Definition second_chunk : chunk Binary64.kernel :=
  {| chunk_id := 2; document_id := 1; conversation_id := Some 7;
     chunk_text := "second"; chunk_index := 1;
     embedding := ([1; 0]%float : list (f32 Binary64.kernel)) |}.

(** The order [argsort] leaves (position, value) pairs in: values do not
    decrease, and of two values the order does not separate the one met
    first comes first. *)
Definition before (K : np_kernel) (x y : nat * f32 K) : Prop :=
  flt K y.2 x.2 = false /\ (flt K x.2 y.2 = false -> (x.1 < y.1)%nat).

(** What a call returned, nothing when it raised. *)
Definition returned {A : Type} (r : res (list A)) : list A :=
  match r with
  | Ok l => l
  | Raise _ => []
  end.

(** *** Generic facts on indexing *)

Lemma take_idx_map {A B : Type} (f : A -> B) (l : list A) (idx : list nat) :
  take_idx (map f l) idx = (map f) <$> take_idx l idx.
Proof.
  induction idx as [|i idx IH]; simpl; [done|].
  rewrite list_lookup_fmap. destruct (l !! i) as [a|]; simpl; [|done].
  rewrite IH. by destruct (take_idx l idx).
Qed.

Lemma take_idx_elem {A : Type} (l : list A) (idx : list nat) (r : list A) :
  take_idx l idx = Ok r -> Forall (fun a => a ∈ l) r.
Proof.
  revert r. induction idx as [|i idx IH]; simpl; intros r Hr.
  - by inversion Hr.
  - destruct (l !! i) as [a|] eqn:Hi; [|done].
    destruct (take_idx l idx) as [r'|] eqn:Hidx; simpl in Hr; [|done].
    inversion Hr; subst. constructor; [|by apply IH].
    by eapply list_elem_of_lookup_2.
Qed.

Lemma take_idx_length {A : Type} (l : list A) (idx : list nat) (r : list A) :
  take_idx l idx = Ok r -> length r = length idx.
Proof.
  revert r. induction idx as [|i idx IH]; simpl; intros r Hr.
  - by inversion Hr.
  - destruct (l !! i) as [a|]; [|done].
    destruct (take_idx l idx) as [r'|]; simpl in Hr; [|done].
    inversion Hr; subst. simpl. f_equal. by apply IH.
Qed.

Lemma take_idx_in_range {A : Type} (l : list A) (idx : list nat) :
  Forall (fun i => (i < length l)%nat) idx ->
  exists r, take_idx l idx = Ok r.
Proof.
  induction 1 as [|i idx Hi _ [r Hr]]; simpl; [by eexists|].
  destruct (lookup_lt_is_Some_2 l i Hi) as [a ->].
  rewrite Hr. by eexists.
Qed.

Section IndexFacts.

Context (K : np_kernel).

Lemma where_conversation_spec (c : Z) (ch : chunk K) :
  where_conversation K c ch = true <-> conversation_id ch = Some c.
Proof.
  unfold where_conversation, sql_eq.
  destruct (conversation_id ch) as [x|]; [|split; discriminate].
  destruct (bool_decide_reflect (x = c)) as [->|Hne].
  - split; [done|]. intros _. by apply bool_decide_eq_true.
  - split; [discriminate|]. intros [= ->]. done.
Qed.

Lemma select_rows_elem (st : store K) (c limit : Z) (ch : chunk K) :
  ch ∈ select_rows K st c limit ->
  ch ∈ chunks st /\ conversation_id ch = Some c.
Proof.
  unfold select_rows. intros Hin.
  apply (subseteq_take (Z.to_nat limit)) in Hin.
  apply list_elem_of_In, filter_In in Hin. destruct Hin as [Hin Hw].
  split; [by apply list_elem_of_In|by apply where_conversation_spec].
Qed.

(** The pairs [search] returns are read off rows of the SELECT. *)
Lemma search_hits (st : store K) (q : list float) (top_k c : Z)
    (rs : list (string * float)) :
  search K st q top_k (Some c) = Ok rs ->
  exists hits : list (chunk K),
    Forall (fun ch => ch ∈ select_rows K st c (load_limit top_k)) hits /\
    rs = map (fun ch =>
                (chunk_text ch,
                 of_f32 K (similarity K (map (to_f32 K) q)
                             (norm K (map (to_f32 K) q)) (embedding ch))))
             hits.
Proof.
  unfold search.
  set (rows := select_rows K st c (load_limit top_k)).
  set (qv := map (to_f32 K) q). set (qn := norm K qv).
  destruct rows as [|r0 rows'] eqn:Hrows.
  { intros [= <-]. exists []. by split. }
  rewrite <- Hrows. clearbody rows.
  destruct (negb (forallb _ _)); [done|].
  destruct (negb (Nat.eqb _ _)); [done|].
  destruct (top_indices K _ top_k) as [idx|]; simpl; [|done].
  rewrite map_map, !take_idx_map.
  destruct (take_idx rows idx) as [hits|] eqn:Hhits; simpl; [|done].
  intros [= <-]. exists hits. split; [by eapply take_idx_elem|].
  clear. induction hits as [|h hits IH]; simpl; [done|]. by rewrite IH.
Qed.

End IndexFacts.

(** *** Isolation and binding *)

(** C1 (session isolation).  Whatever the store, the query, [top_k] and the
    numeric kernel, every pair returned by [search] for conversation [c] is
    the text and similarity of a stored chunk whose [conversation_id] is
    [c]: no chunk of another conversation and no orphan (NULL) chunk is
    returned, whatever its embedding. *)
Theorem search_session_isolation (K : np_kernel) (st : store K)
    (q : list float) (top_k c : Z) :
  Forall (fun r => exists ch : chunk K,
            ch ∈ chunks st /\
            conversation_id ch = Some c /\
            r = (chunk_text ch,
                 of_f32 K (similarity K (map (to_f32 K) q)
                             (norm K (map (to_f32 K) q)) (embedding ch))))
         (returned (search K st q top_k (Some c))).
Proof.
  destruct (search K st q top_k (Some c)) as [rs|e] eqn:Hs; simpl; [|done].
  apply search_hits in Hs as (hits & Hhits & ->).
  apply Forall_map. eapply Forall_impl; [exact Hhits|].
  intros ch Hch. apply select_rows_elem in Hch as [Hin Hc].
  by exists ch.
Qed.

(** C2.  Without a conversation id [search] returns the empty list, for
    every store, query and [top_k]; the store is not consulted. *)
Theorem search_without_conversation_is_empty (K : np_kernel) (st : store K)
    (q : list float) (top_k : Z) :
  search K st q top_k None = Ok [].
Proof. reflexivity. Qed.

(** C3, as stated, fails: ingest with an absent conversation id does not
    fail.  On the empty store, [add_document("a.pdf", ["x"], [[1.0]], None)]
    returns document id 1 and inserts one chunk whose [conversation_id] is
    NULL. *)
Lemma add_document_accepts_absent_binding :
  add_document Binary64.kernel false (empty_store Binary64.kernel)
    "a.pdf" ["x"%string] [[1%float]] None
  = (Ok 1,
     Build_store Binary64.kernel
       [{| doc_id := 1; filename := "a.pdf"; file_hash := MD5 "a.pdf" |}]
       [Build_chunk Binary64.kernel 1 1 None "x" 0 [1%float]]
       1 1).
Proof. reflexivity. Qed.

(** C3, amended.  Absent a database fault, [add_document] returns the new
    document id and appends one chunk per (chunk, embedding) pair, each
    carrying the conversation id it was given, NULL when none was given;
    the chunks already stored are kept. *)
Theorem add_document_stores_given_binding (K : np_kernel) (st : store K)
    (fname : string) (chunk_list : list string)
    (embeddings : list (list float)) (conv : option Z) :
  let r := add_document K false st fname chunk_list embeddings conv in
  r.1 = Ok (doc_seq K st + 1) /\
  exists new : list (chunk K),
    chunks r.2 = chunks st ++ new /\
    length new = Nat.min (length chunk_list) (length embeddings) /\
    Forall (fun ch => conversation_id ch = conv) new.
Proof.
  simpl. split; [done|]. eexists. split; [done|]. split.
  - by rewrite length_imap, length_zip.
  - apply Forall_forall. intros ch Hin.
    apply list_elem_of_lookup in Hin as [i Hi].
    rewrite list_lookup_imap in Hi.
    destruct (zip chunk_list embeddings !! i); simpl in Hi; [|done].
    by inversion Hi.
Qed.

(** A database fault inside [add_document] rolls the transaction back. *)
Lemma add_document_fault_rolls_back (K : np_kernel) (st : store K)
    (fname : string) (chunk_list : list string)
    (embeddings : list (list float)) (conv : option Z) :
  add_document K true st fname chunk_list embeddings conv
  = (Raise DatabaseError, st).
Proof. reflexivity. Qed.

(** *** Sorting and ranking *)

Section strongly_sorted_lookup.
Context {A : Type} (R : relation A).

Lemma StronglySorted_lookup (l : list A) (i j : nat) (x y : A) :
  StronglySorted R l -> (i < j)%nat ->
  l !! i = Some x -> l !! j = Some y -> R x y.
Proof.
  intros Hs. revert i j. induction Hs as [|a l Hs IH Ha]; intros i j Hij Hi Hj.
  - done.
  - destruct j as [|j]; [lia|]. destruct i as [|i]; simpl in *.
    + inversion Hi; subst. rewrite Forall_forall in Ha.
      apply Ha. by eapply list_elem_of_lookup_2.
    + apply (IH i j); [lia|done|done].
Qed.

Lemma StronglySorted_of_lookup (l : list A) :
  (forall i j x y, (i < j)%nat -> l !! i = Some x -> l !! j = Some y -> R x y) ->
  StronglySorted R l.
Proof.
  induction l as [|a l IH]; intros H; constructor.
  - apply IH. intros i j x y Hij Hi Hj. apply (H (S i) (S j)); [lia|done|done].
  - apply Forall_forall. intros y Hy. apply list_elem_of_lookup in Hy as [j Hj].
    apply (H 0%nat (S j)); [lia|done|done].
Qed.

Lemma StronglySorted_reverse (l : list A) :
  StronglySorted R l -> StronglySorted (flip R) (reverse l).
Proof.
  induction 1 as [|a l Hs IH Ha]; [constructor|].
  rewrite reverse_cons. apply StronglySorted_app_2; [|done|repeat constructor].
  intros x1 x2 Hx1 Hx2. apply list_elem_of_singleton in Hx2 as ->.
  rewrite elem_of_reverse in Hx1. rewrite Forall_forall in Ha.
  unfold flip. by apply Ha.
Qed.
End strongly_sorted_lookup.

Section Sorting.
Context (K : np_kernel).

Local Abbreviation before := (before K).

Lemma flt_asym x y : flt K x y = true -> flt K y x = false.
Proof.
  intros Hxy. destruct (flt K y x) eqn:Hyx; [|done].
  by rewrite <- (flt_irrefl K x), <- (flt_trans K x y x Hxy Hyx).
Qed.

Lemma insert_by_perm (x : nat * f32 K) l : insert_by K x l ≡ₚ x :: l.
Proof.
  induction l as [|y l IH]; simpl; [done|].
  destruct (flt K x.2 y.2); [done|]. rewrite IH. apply Permutation_swap.
Qed.

Lemma insert_by_sorted (x : nat * f32 K) l :
  StronglySorted before l ->
  Forall (fun y => (y.1 < x.1)%nat) l ->
  StronglySorted before (insert_by K x l).
Proof.
  induction 1 as [|y l Hs IH Hy]; intros Hlt; simpl.
  - repeat constructor.
  - apply Forall_cons in Hlt as [Hyx Hlt].
    destruct (flt K x.2 y.2) eqn:Hxy.
    + constructor; [by constructor|].
      constructor.
      * split; [by apply flt_asym|]. by rewrite Hxy.
      * rewrite Forall_forall in Hy |- *. intros z Hz.
        destruct (Hy z Hz) as [Hzy _].
        destruct (flt_cotrans K _ _ z.2 Hxy) as [Hxz|Hzy']; [|congruence].
        split; [by apply flt_asym|]. by rewrite Hxz.
    + constructor; [by apply IH|].
      rewrite insert_by_perm. constructor; [|done].
      split; [done|]. intros _. done.
Qed.

Lemma sort_pairs_acc (l acc : list (nat * f32 K)) :
  StronglySorted before acc ->
  StronglySorted (fun x y : nat * f32 K => (x.1 < y.1)%nat) l ->
  Forall (fun a => Forall (fun x => (a.1 < x.1)%nat) l) acc ->
  StronglySorted before (foldl (fun acc x => insert_by K x acc) acc l) /\
  foldl (fun acc x => insert_by K x acc) acc l ≡ₚ acc ++ l.
Proof.
  revert acc. induction l as [|x l IH]; intros acc Hacc Hl Hlt; simpl.
  { by rewrite app_nil_r. }
  apply StronglySorted_cons in Hl as [Hx Hl].
  destruct (IH (insert_by K x acc)) as [Hs Hp].
  - apply insert_by_sorted; [done|].
    eapply Forall_impl; [exact Hlt|]. simpl. intros a Ha.
    by apply Forall_cons in Ha as [? _].
  - done.
  - rewrite insert_by_perm. constructor; [done|].
    eapply Forall_impl; [exact Hlt|]. simpl. intros a Ha.
    by apply Forall_cons in Ha as [_ ?].
  - split; [done|]. rewrite Hp, insert_by_perm.
    by rewrite <- Permutation_middle.
Qed.

Lemma sort_pairs_spec (a : list (f32 K)) :
  StronglySorted before (sort_pairs K (imap pair a)) /\
  sort_pairs K (imap pair a) ≡ₚ imap pair a.
Proof.
  unfold sort_pairs. apply sort_pairs_acc; [constructor| |constructor].
  apply StronglySorted_of_lookup. intros i j x y Hij Hi Hj.
  rewrite list_lookup_imap in Hi, Hj.
  destruct (a !! i); [|done]. destruct (a !! j); [|done].
  simpl in *. inversion Hi; inversion Hj; subst. done.
Qed.

Lemma sort_pairs_elem (a : list (f32 K)) (p : nat * f32 K) :
  p ∈ sort_pairs K (imap pair a) -> a !! p.1 = Some p.2.
Proof.
  destruct (sort_pairs_spec a) as [_ Hp]. rewrite Hp.
  intros Hin. apply list_elem_of_lookup in Hin as [i Hi].
  rewrite list_lookup_imap in Hi. destruct (a !! i) eqn:Ha; [|done].
  simpl in Hi. by inversion Hi; subst.
Qed.

Lemma argsort_length (a : list (f32 K)) : length (argsort K a) = length a.
Proof.
  unfold argsort. destruct (sort_pairs_spec a) as [_ Hp].
  by rewrite length_fmap, Hp, length_imap.
Qed.

Lemma argsort_in_range (a : list (f32 K)) :
  Forall (fun i => (i < length a)%nat) (argsort K a).
Proof.
  unfold argsort. apply Forall_fmap, Forall_forall. intros p Hp. simpl.
  apply sort_pairs_elem in Hp. by eapply lookup_lt_Some.
Qed.


Lemma take_idx_lookup {A : Type} (l : list A) (idx : list nat) (r : list A) :
  take_idx l idx = Ok r ->
  forall p, r !! p = idx !! p ≫= (l !!.).
Proof.
  revert r. induction idx as [|i idx IH]; simpl; intros r Hr p.
  - by inversion Hr.
  - destruct (l !! i) as [a|] eqn:Hi; [|done].
    destruct (take_idx l idx) as [r'|] eqn:Hidx; simpl in Hr; [|done].
    inversion Hr; subst. destruct p as [|p]; simpl; [done|]. by apply IH.
Qed.

Lemma StronglySorted_filter {A : Type} (R : relation A) (f : A -> bool)
    (l : list A) :
  StronglySorted R l -> StronglySorted R (List.filter f l).
Proof.
  induction 1 as [|a l Hs IH Ha]; simpl; [constructor|].
  destruct (f a); [|done]. constructor; [done|].
  rewrite Forall_forall in Ha |- *. intros y Hy.
  apply list_elem_of_In, filter_In in Hy as [Hy _].
  by apply Ha, list_elem_of_In.
Qed.

Lemma StronglySorted_take {A : Type} (R : relation A) (n : nat) (l : list A) :
  StronglySorted R l -> StronglySorted R (take n l).
Proof.
  intros Hs. rewrite <- (take_drop n l) in Hs.
  by apply StronglySorted_app_1_l in Hs.
Qed.

(** The descending order produced by reversing the ascending stable sort:
    larger values first and, among values the order does not separate,
    larger positions first. *)
Lemma reverse_argsort_ranked (a : list (f32 K)) (p p' i i' : nat)
    (s s' : f32 K) :
  (p < p')%nat ->
  reverse (argsort K a) !! p = Some i ->
  reverse (argsort K a) !! p' = Some i' ->
  a !! i = Some s -> a !! i' = Some s' ->
  flt K s s' = false /\ (flt K s' s = false -> (i' < i)%nat).
Proof.
  intros Hpp Hp Hp' Hs Hs'. unfold argsort in Hp, Hp'.
  rewrite <- fmap_reverse in Hp, Hp'.
  apply list_lookup_fmap_Some in Hp as (x & -> & Hx).
  apply list_lookup_fmap_Some in Hp' as (x' & -> & Hx').
  destruct (sort_pairs_spec a) as [Hsorted _].
  apply StronglySorted_reverse in Hsorted.
  pose proof (StronglySorted_lookup _ _ _ _ _ _ Hsorted Hpp Hx Hx') as [H1 H2].
  assert (Hxs : a !! x.1 = Some x.2).
  { apply sort_pairs_elem, elem_of_reverse. by eapply list_elem_of_lookup_2. }
  assert (Hxs' : a !! x'.1 = Some x'.2).
  { apply sort_pairs_elem, elem_of_reverse. by eapply list_elem_of_lookup_2. }
  rewrite Hs in Hxs. rewrite Hs' in Hxs'.
  simplify_eq. by split.
Qed.

(** What [top_indices] returns lists positions of the array by
    non-increasing value. *)
Lemma top_indices_ranked (sims : list (f32 K)) (top_k : Z) (idx : list nat)
    (p p' i i' : nat) (s s' : f32 K) :
  top_indices K sims top_k = Ok idx ->
  (p < p')%nat ->
  idx !! p = Some i -> idx !! p' = Some i' ->
  sims !! i = Some s -> sims !! i' = Some s' ->
  flt K s s' = false.
Proof.
  unfold top_indices. destruct (top_k <? _).
  - unfold argpartition. destruct (_ || _); [done|]. simpl.
    set (top := py_slice_from (- top_k) (argsort K sims)).
    destruct (take_idx sims top) as [sub|] eqn:Hsub; [|done]. simpl.
    destruct (take_idx top (argsort K sub)) as [sel|] eqn:Hsel; [|done].
    simpl. intros [= <-] Hpp Hp Hp' Hs Hs'.
    apply reverse_lookup_Some in Hp as [Hp Hlp].
    apply reverse_lookup_Some in Hp' as [Hp' Hlp'].
    pose proof (take_idx_lookup _ _ _ Hsel) as Hsel_at.
    pose proof (take_idx_lookup _ _ _ Hsub) as Hsub_at.
    rewrite Hsel_at in Hp, Hp'.
    destruct (argsort K sub !! (length sel - S p)%nat) as [j|] eqn:Hj;
      [|done].
    destruct (argsort K sub !! (length sel - S p')%nat) as [j'|] eqn:Hj';
      [|done].
    simpl in Hp, Hp'.
    assert (Hsj : sub !! j = Some s).
    { by rewrite Hsub_at, Hp. }
    assert (Hsj' : sub !! j' = Some s').
    { by rewrite Hsub_at, Hp'. }
    unfold argsort in Hj, Hj'.
    apply list_lookup_fmap_Some in Hj as (x & -> & Hx).
    apply list_lookup_fmap_Some in Hj' as (x' & -> & Hx').
    destruct (sort_pairs_spec sub) as [Hsorted _].
    assert (Hlt : (length sel - S p' < length sel - S p)%nat) by lia.
    pose proof (StronglySorted_lookup _ _ _ _ _ _ Hsorted Hlt Hx' Hx)
      as [H1 _].
    assert (Hxs : sub !! x.1 = Some x.2).
    { apply sort_pairs_elem. by eapply list_elem_of_lookup_2. }
    assert (Hxs' : sub !! x'.1 = Some x'.2).
    { apply sort_pairs_elem. by eapply list_elem_of_lookup_2. }
    rewrite Hsj in Hxs. rewrite Hsj' in Hxs'.
    by simplify_eq.
  - intros [= <-] Hpp Hp Hp' Hs Hs'.
    by eapply reverse_argsort_ranked.
Qed.


Lemma top_indices_tie_order (sims : list (f32 K)) (top_k : Z)
    (idx : list nat) (p p' i i' : nat) (s s' : f32 K) :
  Z.of_nat (length sims) <= top_k ->
  top_indices K sims top_k = Ok idx ->
  (p < p')%nat ->
  idx !! p = Some i -> idx !! p' = Some i' ->
  sims !! i = Some s -> sims !! i' = Some s' ->
  flt K s' s = false -> (i' < i)%nat.
Proof.
  intros Hn. unfold top_indices.
  destruct (Z.ltb_spec top_k (Z.of_nat (length sims))); [lia|].
  intros [= <-] Hpp Hp Hp' Hs Hs'.
  by eapply reverse_argsort_ranked.
Qed.

Lemma top_indices_in_range (sims : list (f32 K)) (top_k : Z) :
  0 <= top_k ->
  exists idx,
    top_indices K sims top_k = Ok idx /\
    Forall (fun i => (i < length sims)%nat) idx.
Proof.
  intros Hk. unfold top_indices.
  destruct (Z.ltb_spec top_k (Z.of_nat (length sims))) as [Hlt|Hge].
  - unfold argpartition.
    assert (Hkth : ((if - top_k <? 0 then - top_k + Z.of_nat (length sims)
                    else - top_k) <? 0)
                   || (Z.of_nat (length sims) <=?
                       (if - top_k <? 0 then - top_k + Z.of_nat (length sims)
                        else - top_k)) = false).
    { destruct (Z.ltb_spec (- top_k) 0); apply orb_false_intro;
        first [apply Z.ltb_ge | apply Z.leb_gt]; lia. }
    rewrite Hkth. simpl.
    set (top := py_slice_from (- top_k) (argsort K sims)).
    assert (Htop : Forall (fun i => (i < length sims)%nat) top).
    { apply Forall_drop, argsort_in_range. }
    destruct (take_idx_in_range sims top Htop) as [sub Hsub].
    rewrite Hsub. simpl.
    destruct (take_idx_in_range top (argsort K sub)) as [sel Hsel].
    { rewrite <- (take_idx_length _ _ _ Hsub). apply argsort_in_range. }
    rewrite Hsel. simpl. eexists. split; [done|].
    apply Forall_reverse. apply take_idx_elem in Hsel.
    eapply Forall_impl; [exact Hsel|]. simpl. intros i Hi.
    rewrite Forall_forall in Htop. by apply Htop.
  - eexists. split; [done|]. apply Forall_reverse, argsort_in_range.
Qed.

Lemma search_ranked_rows (st : store K) (q : list float) (top_k c : Z) :
  search K st q top_k (Some c)
  = map (fun ch => (chunk_text ch, of_f32 K (score K q ch)))
      <$> ranked_rows K st q top_k c.
Proof.
  unfold search, ranked_rows, score.
  destruct (select_rows K st c (load_limit top_k)) as [|r0 rows'] eqn:Hrows;
    [done|].
  rewrite <- Hrows. generalize (select_rows K st c (load_limit top_k)).
  intros rows.
  destruct (negb (forallb _ _)); [done|].
  destruct (negb (Nat.eqb _ _)); [done|].
  destruct (top_indices K _ top_k) as [idx|]; simpl; [|done].
  rewrite map_map, !take_idx_map.
  destruct (take_idx rows idx) as [hits|]; simpl; [|done].
  f_equal. clear. induction hits as [|h hits IH]; simpl; [done|].
  by rewrite IH.
Qed.

(** With a non-negative [top_k], and the stored embeddings of the
    conversation as wide as the query, [search] returns. *)
Lemma search_returns (st : store K) (q : list float) (top_k c : Z) :
  0 <= top_k ->
  Forall (fun ch : chunk K => length (embedding ch) = length q)
         (select_rows K st c (load_limit top_k)) ->
  exists rs, search K st q top_k (Some c) = Ok rs.
Proof.
  intros Hk Hshape. rewrite search_ranked_rows. unfold ranked_rows.
  destruct (select_rows K st c (load_limit top_k)) as [|r0 rows'];
    [by eexists|].
  set (rows := r0 :: rows') in *.
  assert (Hwide : forallb (fun e => Nat.eqb (length e) (length (embedding r0)))
                    (map embedding rows) = true).
  { apply forallb_forall. intros e He. apply in_map_iff in He as (ch & <- & Hch).
    apply Nat.eqb_eq. rewrite Forall_forall in Hshape.
    rewrite (Hshape ch), (Hshape r0); [done|by left|by apply list_elem_of_In]. }
  rewrite Hwide. cbn [negb].
  assert (Hq : Nat.eqb (length (embedding r0)) (length (map (to_f32 K) q))
               = true).
  { apply Nat.eqb_eq. rewrite length_map. rewrite Forall_forall in Hshape.
    apply Hshape. by left. }
  rewrite Hq. cbn [negb].
  destruct (top_indices_in_range
              (map (similarity K (map (to_f32 K) q)
                      (norm K (map (to_f32 K) q))) (map embedding rows))
              top_k Hk) as (idx & -> & Hidx).
  simpl. rewrite !length_map in Hidx.
  destruct (take_idx_in_range rows idx Hidx) as [hits ->]. by eexists.
Qed.


Lemma map_lookup {A B : Type} (f : A -> B) (l : list A) (i : nat) :
  map f l !! i = f <$> l !! i.
Proof. revert i. induction l as [|a l IH]; intros [|i]; simpl; auto. Qed.

Lemma select_rows_ids (st : store K) (c limit : Z) (i i' : nat)
    (h h' : chunk K) :
  ids_increasing K st -> (i' < i)%nat ->
  select_rows K st c limit !! i' = Some h' ->
  select_rows K st c limit !! i = Some h ->
  chunk_id h' < chunk_id h.
Proof.
  intros Hids Hlt Hh' Hh.
  assert (Hs : StronglySorted (fun a b : chunk K => chunk_id a < chunk_id b)
                 (select_rows K st c limit)).
  { apply StronglySorted_take, StronglySorted_filter.
    apply StronglySorted_of_lookup. exact Hids. }
  exact (StronglySorted_lookup _ _ _ _ _ _ Hs Hlt Hh' Hh).
Qed.


End Sorting.

(** Rowids handed out by [add_document] keep the table in id order. *)
Lemma add_document_ids_increasing (K : np_kernel) (st : store K)
    (fault : bool) (fname : string) (chunk_list : list string)
    (embeddings : list (list float)) (conv : option Z) :
  ids_increasing K st ->
  Forall (fun ch => chunk_id ch <= chunk_seq K st) (chunks st) ->
  let st' := (add_document K fault st fname chunk_list embeddings conv).2 in
  ids_increasing K st' /\
  Forall (fun ch => chunk_id ch <= chunk_seq K st') (chunks st').
Proof.
  intros Hids Hseq. destruct fault; simpl; [by split|].
  set (new := imap _ (zip chunk_list embeddings)).
  assert (Hnew : forall i ch, new !! i = Some ch ->
            chunk_id ch = chunk_seq K st + 1 + Z.of_nat i /\
            (i < length new)%nat).
  { intros i ch Hi. split; [|by eapply lookup_lt_Some].
    unfold new in Hi. rewrite list_lookup_imap in Hi.
    destruct (zip chunk_list embeddings !! i); simpl in Hi; [|done].
    by inversion Hi. }
  split.
  - intros i j a b Hij Hi Hj.
    apply lookup_app_Some in Hi as [Hi|[Hli Hi]];
      apply lookup_app_Some in Hj as [Hj|[Hlj Hj]].
    + by eapply Hids.
    + apply Hnew in Hj as [-> _].
      rewrite Forall_forall in Hseq.
      pose proof (Hseq a (list_elem_of_lookup_2 _ _ _ Hi)). lia.
    + apply lookup_lt_Some in Hj. lia.
    + apply Hnew in Hi as [-> _]. apply Hnew in Hj as [-> _]. lia.
  - apply Forall_app. split.
    + eapply Forall_impl; [exact Hseq|]. simpl. intros ch Hch. lia.
    + apply Forall_forall. intros ch Hch.
      apply list_elem_of_lookup in Hch as [i Hi].
      apply Hnew in Hi as [-> Hlt]. lia.
Qed.

(** Whatever the arithmetic, two equal similarities come back with the
    later position first. *)
Lemma top_indices_equal_pair (K : np_kernel) (s : f32 K) (top_k : Z) :
  2 <= top_k -> top_indices K [s; s] top_k = Ok [1%nat; 0%nat].
Proof.
  intros Hk. unfold top_indices.
  destruct (Z.ltb_spec top_k (Z.of_nat (length [s; s]))) as [Hlt|_];
    [simpl in Hlt; lia|].
  unfold argsort, sort_pairs. simpl. by rewrite flt_irrefl.
Qed.



(** *** How many pairs come back *)

Section Count.

Context (K : np_kernel).

Lemma top_indices_length (sims : list (f32 K)) (top_k : Z) (idx : list nat) :
  top_indices K sims top_k = Ok idx ->
  length idx
  = if top_k <? Z.of_nat (length sims) then
      length (py_slice_from (- top_k) (argsort K sims))
    else length sims.
Proof.
  unfold top_indices. destruct (top_k <? _).
  - unfold argpartition. destruct (_ || _); [done|]. simpl.
    set (top := py_slice_from (- top_k) (argsort K sims)).
    destruct (take_idx sims top) as [sub|] eqn:Hsub; [|done]. simpl.
    destruct (take_idx top (argsort K sub)) as [sel|] eqn:Hsel; [|done].
    simpl. intros [= <-]. rewrite length_reverse.
    rewrite (take_idx_length _ _ _ Hsel), argsort_length.
    by rewrite (take_idx_length _ _ _ Hsub).
  - intros [= <-]. by rewrite length_reverse, argsort_length.
Qed.

Lemma ranked_rows_length (st : store K) (q : list float) (top_k c : Z)
    (hits : list (chunk K)) :
  ranked_rows K st q top_k c = Ok hits ->
  let n := length (select_rows K st c (load_limit top_k)) in
  let first := if - top_k <? 0 then Z.max (- top_k + Z.of_nat n) 0
               else Z.min (- top_k) (Z.of_nat n) in
  length hits
  = if top_k <? Z.of_nat n then (n - Z.to_nat first)%nat else n.
Proof.
  unfold ranked_rows. cbv zeta.
  destruct (select_rows K st c (load_limit top_k)) as [|r0 rows'] eqn:Hrows.
  { intros [= <-]. cbn [length]. destruct (top_k <? _); lia. }
  rewrite <- Hrows. set (rows := select_rows K st c (load_limit top_k)).
  destruct (negb (forallb _ _)); [done|].
  destruct (negb (Nat.eqb _ _)); [done|].
  set (sims := map _ (map embedding rows)).
  destruct (top_indices K sims top_k) as [idx|] eqn:Hidx; [|done].
  simpl. intros Hhits. rewrite (take_idx_length _ _ _ Hhits).
  rewrite (top_indices_length _ _ _ Hidx).
  assert (Hn : length sims = length rows) by (unfold sims; by rewrite !length_map).
  rewrite Hn. destruct (top_k <? _); [|done].
  unfold py_slice_from. rewrite length_drop, argsort_length, Hn. done.
Qed.

(** X1.  With [top_k] at least 1, [search] returns exactly
    [min(top_k, n)] pairs, where [n] is the number of rows the SELECT
    loaded for the conversation, and so never more than [top_k] and never
    more than 500. *)
Theorem search_result_count (st : store K) (q : list float) (top_k c : Z)
    (rs : list (string * float)) :
  1 <= top_k ->
  search K st q top_k (Some c) = Ok rs ->
  Z.of_nat (length rs)
  = Z.min top_k (Z.of_nat (length (select_rows K st c (load_limit top_k)))) /\
  Z.of_nat (length rs) <= 500.
Proof.
  intros Hk. rewrite search_ranked_rows.
  destruct (ranked_rows K st q top_k c) as [hits|] eqn:Hr; [|done].
  simpl. intros [= <-]. rewrite length_map.
  pose proof (ranked_rows_length _ _ _ _ _ Hr) as Hlen. cbv zeta in Hlen.
  set (n := length (select_rows K st c (load_limit top_k))) in *.
  assert (Hn : Z.of_nat n <= 500).
  { unfold n, select_rows. rewrite length_take. unfold load_limit. lia. }
  destruct (Z.ltb_spec top_k (Z.of_nat n));
    destruct (Z.ltb_spec (- top_k) 0); lia.
Qed.

(** X2.  With [top_k = 0] the slice [[-top_k:]] is [[0:]], the whole
    array: [search] returns one pair for every row loaded for the
    conversation (up to 100 of them), not the empty list. *)
Theorem search_top_k_zero_returns_all (st : store K) (q : list float) (c : Z)
    (rs : list (string * float)) :
  search K st q 0 (Some c) = Ok rs ->
  length rs = length (select_rows K st c 100).
Proof.
  rewrite search_ranked_rows.
  destruct (ranked_rows K st q 0 c) as [hits|] eqn:Hr; [|done].
  simpl. intros [= <-]. rewrite length_map.
  pose proof (ranked_rows_length _ _ _ _ _ Hr) as Hlen. cbv zeta in Hlen.
  change (load_limit 0) with 100 in Hlen.
  set (n := length (select_rows K st c 100)) in *.
  change (- 0 <? 0) with false in Hlen. cbv iota in Hlen.
  destruct (Z.ltb_spec 0 (Z.of_nat n)); lia.
Qed.

End Count.

Lemma search_result_count_two_equal_chunks :
  Z.of_nat (length [("second"%string, 0x1.ffffffaa19c49p-1%float)]) = 1 /\
  search Binary64.kernel two_equal_chunks [1; 0]%float 1 (Some 7)
  = Ok [("second"%string, 0x1.ffffffaa19c49p-1%float)].
Proof.
  assert (Hs : search Binary64.kernel two_equal_chunks [1; 0]%float 1 (Some 7)
               = Ok [("second"%string, 0x1.ffffffaa19c49p-1%float)])
    by reflexivity.
  split; [|exact Hs].
  destruct (search_result_count Binary64.kernel two_equal_chunks
              [1; 0]%float 1 7 _ ltac:(lia) Hs) as [H _].
  rewrite H. reflexivity.
Defined.

Lemma search_top_k_zero_returns_all_run :
  search Binary64.kernel two_equal_chunks [1; 0]%float 0 (Some 7)
  = Ok [("second"%string, 0x1.ffffffaa19c49p-1%float);
        ("first"%string, 0x1.ffffffaa19c49p-1%float)] /\
  length [("second"%string, 0x1.ffffffaa19c49p-1%float);
          ("first"%string, 0x1.ffffffaa19c49p-1%float)]
  = length (select_rows Binary64.kernel two_equal_chunks 7 100).
Proof.
  assert (Hs : search Binary64.kernel two_equal_chunks [1; 0]%float 0 (Some 7)
               = Ok [("second"%string, 0x1.ffffffaa19c49p-1%float);
                     ("first"%string, 0x1.ffffffaa19c49p-1%float)])
    by reflexivity.
  split; [exact Hs|].
  exact (search_top_k_zero_returns_all Binary64.kernel two_equal_chunks
           [1; 0]%float 7 _ Hs).
Defined.

End VectorDB.

(** ** The semantic cache: [SemanticCache] and the caching step of
    [CachedRAGSystem.answer] *)

Module SemCache.

(** Values of the metadata dictionary. *)
Inductive json : Type :=
  | JNull
  | JInt (z : Z)
  | JStr (s : string).

(** The dictionary [cache_entry] built by [set]; [answer] is [None] for
    Python's [None]. *)
Record cache_entry : Type := {
  embedding : list float;
  question : string;
  answer : option string;
  metadata : list (string * json);
  created_at : float
}.

(** The Redis side: the values stored under the keys
    [semantic_cache:qa:<md5>] (after [json.dumps]/[json.loads], which give
    the entry back) and the set [semantic_cache:index]. *)
Record redis : Type := {
  data : gmap digest cache_entry;
  index : gset digest
}.

(** Which Redis call of [set] raises, if any. *)
Inductive redis_fault : Type :=
  | NoFault
  | SetexRaises
  | SaddRaises.

#[global] Instance redis_fault_eq_dec : EqDecision redis_fault.
Proof. solve_decision. Defined.

(** A [SemanticCache] object (its hit and miss counters are left out). *)
Record semantic_cache : Type := {
  similarity_threshold : float;
  ttl : Z;
  max_cache_size : Z;
  redis_client : option redis;    (* None: get_redis_client() gave None *)
  memory_cache : list cache_entry
}.

(** [SemanticCache(similarity_threshold, ttl, max_cache_size)]. *)
Definition init (threshold : float) (ttl_s max_size : Z)
    (client : option redis) : semantic_cache :=
  {| similarity_threshold := threshold; ttl := ttl_s;
     max_cache_size := max_size; redis_client := client;
     memory_cache := [] |}.

Definition with_memory (c : semantic_cache) (m : list cache_entry)
    : semantic_cache :=
  {| similarity_threshold := similarity_threshold c; ttl := ttl c;
     max_cache_size := max_cache_size c; redis_client := redis_client c;
     memory_cache := m |}.

Definition with_redis (c : semantic_cache) (r : redis) : semantic_cache :=
  {| similarity_threshold := similarity_threshold c; ttl := ttl c;
     max_cache_size := max_cache_size c; redis_client := Some r;
     memory_cache := memory_cache c |}.

(** [_add_to_memory_cache]. *)
Definition add_to_memory_cache (c : semantic_cache) (entry : cache_entry)
    : semantic_cache :=
  let kept :=
    if max_cache_size c <=? Z.of_nat (length (memory_cache c)) then
      let remove_count := Z.max 1 (max_cache_size c / 10) in
      drop (Z.to_nat remove_count) (memory_cache c)
    else memory_cache c in
  with_memory c (kept ++ [entry]).

(** [_generate_cache_key]. *)
Definition generate_cache_key (q : string) : digest := MD5 q.

(** [SemanticCache.set].  [now] is the reading of [time.time()].  Redis
    refuses a [setex] whose expiry is not positive. *)
Definition set (c : semantic_cache) (fault : redis_fault)
    (question_embedding : list float) (question_text : string)
    (ans : option string) (meta : option (list (string * json)))
    (now : float) : semantic_cache :=
  let entry :=
    {| embedding := question_embedding; question := question_text;
       answer := ans; metadata := default [] meta; created_at := now |} in
  match redis_client c with
  | Some r =>
      let cache_key := generate_cache_key question_text in
      if bool_decide (fault = SetexRaises) || (ttl c <=? 0) then
        add_to_memory_cache c entry
      else
        let r1 := {| data := <[cache_key := entry]> (data r);
                     index := index r |} in
        if bool_decide (fault = SaddRaises) then
          add_to_memory_cache (with_redis c r1) entry
        else
          with_redis c {| data := data r1;
                          index := {[cache_key]} ∪ index r1 |}
  | None => add_to_memory_cache c entry
  end.

(** [_load_cache_entries], as called by [get]; [redis_down] says that the
    first Redis call raises.  Keys of the index whose value has expired are
    removed from the index. *)
Definition load_cache_entries (c : semantic_cache) (redis_down : bool)
    : list cache_entry * semantic_cache :=
  match redis_client c with
  | Some r =>
      if redis_down then (memory_cache c, c) else
      let keys := elements (index r) in
      (omap (fun k => data r !! k) keys,
       with_redis c
         {| data := data r;
            index := filter (fun k => is_Some (data r !! k)) (index r) |})
  | None => (memory_cache c, c)
  end.

(** The Redis server dropping a key whose time to live has passed. *)
Definition expire (c : semantic_cache) (k : digest) : semantic_cache :=
  match redis_client c with
  | Some r => with_redis c {| data := delete k (data r); index := index r |}
  | None => c
  end.

(** Python truth value of an optional string. *)
Definition truthy (s : option string) : bool :=
  match s with
  | Some (String _ _) => true
  | _ => false
  end.

(** Step 4 of [CachedRAGSystem.answer]: the answer just produced by the
    LLM is saved, under the guard
    [save_to_cache and self.enable_cache and answer]. *)
Definition answer_save_step (c : semantic_cache) (fault : redis_fault)
    (save_to_cache enable_cache : bool) (query_embedding : list float)
    (query : string) (ans : option string) (conversation_id : option Z)
    (model : string) (context_count : Z) (now : float) : semantic_cache :=
  if save_to_cache && enable_cache && truthy ans then
    set c fault query_embedding query ans
      (Some [("conversation_id"%string,
              match conversation_id with Some i => JInt i | None => JNull end);
             ("model"%string, JStr model);
             ("context_count"%string, JInt context_count)])
      now
  else c.

(** No answer held by the cache, in memory or in Redis, is empty or
    [None]. *)
Definition answers_nonempty (c : semantic_cache) : Prop :=
  Forall (fun e => truthy (answer e) = true) (memory_cache c) /\
  match redis_client c with
  | Some r => map_Forall (fun _ e => truthy (answer e) = true) (data r)
  | None => True
  end.

(** What happens to a cache that is only written through
    [CachedRAGSystem.answer]. *)
Inductive event : Type :=
  | Save (fault : redis_fault) (save_to_cache enable_cache : bool)
         (query_embedding : list float) (query : string)
         (ans : option string) (conversation_id : option Z)
         (model : string) (context_count : Z) (now : float)
  | Get (redis_down : bool)
  | Expire (k : digest).

Definition step (c : semantic_cache) (e : event) : semantic_cache :=
  match e with
  | Save f s en qe q a ci m n t => answer_save_step c f s en qe q a ci m n t
  | Get down => (load_cache_entries c down).2
  | Expire k => expire c k
  end.

Definition run (c : semantic_cache) (es : list event) : semantic_cache :=
  foldl step c es.

(** *** Properties *)

(** C4, as stated, fails: [SemanticCache.set] has no guard on the answer.
    On a fresh in-memory cache, [set([1.0], "q", "")] and
    [set([1.0], "q", None)] each append an entry. *)
Lemma set_stores_empty_answer :
  memory_cache
    (set (init 0x1.e666666666666p-1 3600 1000 None) NoFault
         [1%float] "q" (Some ""%string) None 0%float)
  = [{| embedding := [1%float]; question := "q"; answer := Some ""%string;
        metadata := []; created_at := 0%float |}]
  /\
  memory_cache
    (set (init 0x1.e666666666666p-1 3600 1000 None) NoFault
         [1%float] "q" None None 0%float)
  = [{| embedding := [1%float]; question := "q"; answer := None;
        metadata := []; created_at := 0%float |}].
Proof. split; reflexivity. Qed.

Lemma add_to_memory_cache_nonempty (c : semantic_cache) (e : cache_entry) :
  truthy (answer e) = true ->
  answers_nonempty c -> answers_nonempty (add_to_memory_cache c e).
Proof.
  intros He [Hm Hr]. split; [|exact Hr]. simpl.
  apply Forall_app. split; [|by constructor].
  destruct (_ <=? _); [by apply Forall_drop|done].
Qed.

Lemma set_nonempty (c : semantic_cache) (fault : redis_fault)
    (qe : list float) (q : string) (ans : option string)
    (meta : option (list (string * json))) (now : float) :
  truthy ans = true ->
  answers_nonempty c -> answers_nonempty (set c fault qe q ans meta now).
Proof.
  intros Ha Hc. unfold set.
  destruct (redis_client c) as [r|] eqn:Hr;
    [|by apply add_to_memory_cache_nonempty].
  destruct (_ || _); [by apply add_to_memory_cache_nonempty|].
  assert (Hins : answers_nonempty
            (with_redis c
               {| data := <[generate_cache_key q :=
                             {| embedding := qe; question := q; answer := ans;
                                metadata := default [] meta;
                                created_at := now |}]> (data r);
                  index := index r |})).
  { destruct Hc as [Hm Hd]. rewrite Hr in Hd. split; [exact Hm|]. simpl.
    by apply map_Forall_insert_2. }
  destruct (bool_decide _); [by apply add_to_memory_cache_nonempty|].
  destruct Hins as [Hm Hd]. by split.
Qed.

Lemma step_nonempty (c : semantic_cache) (e : event) :
  answers_nonempty c -> answers_nonempty (step c e).
Proof.
  intros Hc. destruct e as [f s en qe q a ci m n t|down|k]; simpl.
  - unfold answer_save_step.
    destruct (s && en && truthy a) eqn:Hg; [|done].
    apply set_nonempty; [|done].
    by apply andb_prop in Hg as [_ ?].
  - unfold load_cache_entries.
    destruct (redis_client c) as [r|] eqn:Hr; [|exact Hc].
    destruct down; [exact Hc|].
    destruct Hc as [Hm Hd]. rewrite Hr in Hd. by split.
  - unfold expire.
    destruct (redis_client c) as [r|] eqn:Hr; [|exact Hc].
    destruct Hc as [Hm Hd]. rewrite Hr in Hd.
    split; [done|]. simpl. by apply map_Forall_delete.
Qed.

(** C4, amended.  The guard against empty answers is the test
    [save_to_cache and self.enable_cache and answer] in
    [CachedRAGSystem.answer]: a cache holding no empty answer and written
    only through that step (with lookups and Redis expiries in between)
    never holds an empty or null answer, and the step leaves the cache
    unchanged when the answer is empty or null. *)
Theorem cached_answer_never_stores_empty (c : semantic_cache)
    (es : list event) :
  answers_nonempty c ->
  answers_nonempty (run c es) /\
  forall fault save_to_cache enable_cache qe q ans conv model n now,
    truthy ans = false ->
    answer_save_step (run c es) fault save_to_cache enable_cache
      qe q ans conv model n now = run c es.
Proof.
  intros Hc. split.
  - revert c Hc. induction es as [|e es IH]; intros c Hc; [done|].
    simpl. apply IH. by apply step_nonempty.
  - intros. unfold answer_save_step.
    replace (truthy ans) with false by done. by rewrite andb_false_r.
Qed.

(** The fresh in-memory cache, after one answered question and one answer
    that came back empty. *)
Lemma cached_answer_never_stores_empty_run :
  answers_nonempty
    (run (init 0x1.e666666666666p-1 3600 1000 None)
       [Save NoFault true true [1%float] "q1" (Some "a1"%string)
          (Some 5) "gpt-4-turbo" 2 0%float;
        Save NoFault true true [0%float] "q2" (Some ""%string)
          (Some 5) "gpt-4-turbo" 0 1%float]) /\
  length (memory_cache
    (run (init 0x1.e666666666666p-1 3600 1000 None)
       [Save NoFault true true [1%float] "q1" (Some "a1"%string)
          (Some 5) "gpt-4-turbo" 2 0%float;
        Save NoFault true true [0%float] "q2" (Some ""%string)
          (Some 5) "gpt-4-turbo" 0 1%float])) = 1%nat.
Proof.
  split; [|reflexivity].
  apply (cached_answer_never_stores_empty
           (init 0x1.e666666666666p-1 3600 1000 None)).
  split; [constructor|exact I].
Defined.

(** *** Capacity and the Redis round trip *)

Lemma add_to_memory_cache_bounded (c : semantic_cache) (e : cache_entry) :
  1 <= max_cache_size c ->
  Z.of_nat (length (memory_cache c)) <= max_cache_size c ->
  Z.of_nat (length (memory_cache (add_to_memory_cache c e)))
  <= max_cache_size c /\
  max_cache_size (add_to_memory_cache c e) = max_cache_size c.
Proof.
  intros Hmax Hlen. unfold add_to_memory_cache. cbn.
  split; [|done]. rewrite length_app. cbn [length].
  destruct (Z.leb_spec (max_cache_size c)
              (Z.of_nat (length (memory_cache c)))); [|lia].
  rewrite length_drop. lia.
Qed.

Lemma set_bounded (c : semantic_cache) (fault : redis_fault)
    (qe : list float) (q : string) (ans : option string)
    (meta : option (list (string * json))) (now : float) :
  1 <= max_cache_size c ->
  Z.of_nat (length (memory_cache c)) <= max_cache_size c ->
  Z.of_nat (length (memory_cache (set c fault qe q ans meta now)))
  <= max_cache_size c /\
  max_cache_size (set c fault qe q ans meta now) = max_cache_size c.
Proof.
  intros Hmax Hlen. unfold set.
  destruct (redis_client c) as [r|];
    [|by apply add_to_memory_cache_bounded].
  destruct (_ || _); [by apply add_to_memory_cache_bounded|].
  destruct (bool_decide _); [|done].
  by apply (add_to_memory_cache_bounded (with_redis c _)).
Qed.

(** X3.  The in-memory fallback never outgrows its capacity: from a cache
    with [max_cache_size] at least 1 that holds at most that many entries,
    no sequence of saves through [CachedRAGSystem.answer], lookups and
    Redis expiries leaves more than [max_cache_size] entries in
    [memory_cache]. *)
Theorem memory_cache_bounded (c : semantic_cache) (es : list event) :
  1 <= max_cache_size c ->
  Z.of_nat (length (memory_cache c)) <= max_cache_size c ->
  Z.of_nat (length (memory_cache (run c es))) <= max_cache_size c.
Proof.
  intros Hmax. revert c Hmax.
  assert (H : forall c, 1 <= max_cache_size c ->
            Z.of_nat (length (memory_cache c)) <= max_cache_size c ->
            Z.of_nat (length (memory_cache (run c es))) <= max_cache_size c /\
            max_cache_size (run c es) = max_cache_size c).
  { unfold run. induction es as [|e es IH]; intros c Hmax Hlen; [done|].
    cbn [foldl].
    assert (Hstep : Z.of_nat (length (memory_cache (step c e)))
                    <= max_cache_size c /\
                    max_cache_size (step c e) = max_cache_size c).
    { destruct e as [f s en qe q a ci m n t|down|k]; cbn [step].
      - unfold answer_save_step. destruct (_ && _); [|done].
        by apply set_bounded.
      - unfold load_cache_entries. destruct (redis_client c); [|done].
        by destruct down.
      - unfold expire. by destruct (redis_client c). }
    destruct Hstep as [Hl Hm].
    destruct (IH (step c e)) as [Hl' Hm']; [lia|lia|]. split; lia. }
  intros c Hmax Hlen. by apply H.
Qed.

(** X4.  With Redis up and a positive [ttl], an entry written by [set] is
    among those [_load_cache_entries] reads back, and it is the only one
    with its question text: the key is the digest of the question, so a
    second [set] for the same question replaces the first.  (The keys
    already in Redis are assumed to be digests of their questions, as
    [set] writes them.) *)
Theorem redis_set_then_load (c : semantic_cache) (r : redis)
    (qe : list float) (q : string) (ans : option string)
    (meta : option (list (string * json))) (now : float) :
  redis_client c = Some r ->
  0 < ttl c ->
  (forall k e, data r !! k = Some e -> k = generate_cache_key (question e)) ->
  let entry :=
    {| embedding := qe; question := q; answer := ans;
       metadata := default [] meta; created_at := now |} in
  let entries :=
    (load_cache_entries (set c NoFault qe q ans meta now) false).1 in
  entry ∈ entries /\
  forall e, e ∈ entries -> question e = q -> e = entry.
Proof.
  intros Hr Httl Hkeys. cbv zeta. unfold set. rewrite Hr.
  destruct (Z.leb_spec (ttl c) 0); [lia|]. cbn [orb bool_decide].
  rewrite bool_decide_eq_false_2 by done. cbn [orb].
  rewrite bool_decide_eq_false_2 by done.
  unfold load_cache_entries. cbn.
  set (key := generate_cache_key q).
  set (entry := {| embedding := qe; question := q; answer := ans;
                   metadata := default [] meta; created_at := now |}).
  split.
  - apply list_elem_of_omap. exists key. split.
    + apply elem_of_elements. set_solver.
    + by rewrite lookup_insert_eq.
  - intros e (k & _ & Hk)%list_elem_of_omap Hq.
    destruct (decide (k = key)) as [->|Hne].
    + rewrite lookup_insert_eq in Hk. by injection Hk.
    + rewrite lookup_insert_ne in Hk by done.
      apply Hkeys in Hk. rewrite Hq in Hk. done.
Qed.

Lemma memory_cache_bounded_run :
  Z.of_nat (length (memory_cache
    (run (init 0x1.e666666666666p-1 3600 1 None)
       [Save NoFault true true [1%float] "q1" (Some "a1"%string)
          (Some 5) "gpt-4-turbo" 2 0%float;
        Save NoFault true true [0%float] "q2" (Some "a2"%string)
          (Some 5) "gpt-4-turbo" 0 1%float]))) <= 1.
Proof.
  apply (memory_cache_bounded (init 0x1.e666666666666p-1 3600 1 None)).
  - simpl. lia.
  - simpl. lia.
Defined.

Lemma redis_set_then_load_run :
  {| embedding := [1%float]; question := "q"; answer := Some "a"%string;
     metadata := []; created_at := 0%float |}
  ∈ (load_cache_entries
       (set (init 0x1.e666666666666p-1 3600 1000
               (Some {| data := ∅; index := ∅ |}))
            NoFault [1%float] "q" (Some "a"%string) None 0%float) false).1.
Proof.
  refine (proj1 (redis_set_then_load
    (init 0x1.e666666666666p-1 3600 1000 (Some {| data := ∅; index := ∅ |}))
    {| data := ∅; index := ∅ |} [1%float] "q" (Some "a"%string) None 0%float
    _ _ _)).
  - reflexivity.
  - simpl. lia.
  - intros k e He. cbn [data] in He. by rewrite lookup_empty in He.
Defined.

End SemCache.

(** ** The relational store: [database.py] and the persistence step of
    [send_message] *)

Module RelStore.

(** The settings of an SQLite connection that the sources touch. *)
Record connection : Type := {
  journal_mode : string;
  synchronous : string;
  cache_size : Z;
  temp_store : string;
  foreign_keys : bool
}.

(** [sqlite3.connect(db_path)]: SQLite's defaults; in particular foreign-key
    constraints are not enforced until [PRAGMA foreign_keys=ON] is run on
    the connection. *)
Definition sqlite3_connect : connection :=
  {| journal_mode := "delete"; synchronous := "FULL"; cache_size := -2000;
     temp_store := "DEFAULT"; foreign_keys := false |}.

Inductive pragma : Type :=
  | PRAGMA_journal_mode (m : string)
  | PRAGMA_synchronous (m : string)
  | PRAGMA_cache_size (n : Z)
  | PRAGMA_temp_store (m : string)
  | PRAGMA_foreign_keys (on : bool).

Definition execute_pragma (c : connection) (p : pragma) : connection :=
  match p with
  | PRAGMA_journal_mode m =>
      {| journal_mode := m; synchronous := synchronous c;
         cache_size := cache_size c; temp_store := temp_store c;
         foreign_keys := foreign_keys c |}
  | PRAGMA_synchronous m =>
      {| journal_mode := journal_mode c; synchronous := m;
         cache_size := cache_size c; temp_store := temp_store c;
         foreign_keys := foreign_keys c |}
  | PRAGMA_cache_size n =>
      {| journal_mode := journal_mode c; synchronous := synchronous c;
         cache_size := n; temp_store := temp_store c;
         foreign_keys := foreign_keys c |}
  | PRAGMA_temp_store m =>
      {| journal_mode := journal_mode c; synchronous := synchronous c;
         cache_size := cache_size c; temp_store := m;
         foreign_keys := foreign_keys c |}
  | PRAGMA_foreign_keys on =>
      {| journal_mode := journal_mode c; synchronous := synchronous c;
         cache_size := cache_size c; temp_store := temp_store c;
         foreign_keys := on |}
  end.

(** The statements [SQLiteConnectionPool.__init__] runs on each new
    connection ([database.py]). *)
Definition pool_pragmas : list pragma :=
  [PRAGMA_journal_mode "WAL"; PRAGMA_synchronous "NORMAL";
   PRAGMA_cache_size (-64000); PRAGMA_temp_store "MEMORY"].

(** The statements [set_sqlite_pragma] runs on each new connection of the
    SQLAlchemy engine ([database_config.py], [_configure_sqlite]). *)
Definition engine_pragmas : list pragma :=
  [PRAGMA_journal_mode "WAL"; PRAGMA_synchronous "NORMAL";
   PRAGMA_cache_size (-64000); PRAGMA_temp_store "MEMORY";
   PRAGMA_foreign_keys true].

Definition configure (ps : list pragma) : connection :=
  foldl execute_pragma sqlite3_connect ps.

(** [SQLiteConnectionPool(db_path, pool_size)]: the queue of idle
    connections. *)
Definition SQLiteConnectionPool (pool_size : nat) : list connection :=
  replicate pool_size (configure pool_pragmas).

(** Rows of [conversations], [messages] and [user_documents]. *)
Record conversation : Type := {
  conv_id : Z;
  user_id : Z;
  title : string;
  created_at : Z;
  updated_at : Z
}.

Record message : Type := {
  msg_id : Z;
  conversation_id : Z;
  role : string;
  content : string;
  msg_created_at : Z
}.

Record user_document : Type := {
  ud_id : Z;
  ud_user_id : Z;
  ud_conversation_id : option Z;
  ud_filename : string;
  ud_file_path : string
}.

Record tables : Type := {
  conversations : list conversation;
  messages : list message;
  user_documents : list user_document;
  conv_seq : Z;
  msg_seq : Z
}.

(** The statements of the functions modelled here. *)
Inductive sql : Type :=
  | INSERT_message (conversation_id : Z) (role content : string)
  | UPDATE_updated_at (conversation_id : Z)
  | INSERT_conversation (user_id : Z) (title : string)
  | DELETE_conversation (conversation_id user_id : Z).

(** A database file: the committed tables and, as a record of what was
    done, the statements of each committed transaction, oldest first. *)
Record database : Type := {
  committed : tables;
  journal : list (list sql)
}.

Definition bump (now cid : Z) (c : conversation) : conversation :=
  if bool_decide (conv_id c = cid) then
    {| conv_id := conv_id c; user_id := user_id c; title := title c;
       created_at := created_at c; updated_at := now |}
  else c.

(** One statement on a connection at clock reading [now]
    ([CURRENT_TIMESTAMP]): the new tables and [lastrowid] (for an INSERT)
    or [rowcount].  Foreign keys are checked, and deletes cascade, only on a
    connection that enforces them.  (The [users] table is not modelled; the
    reference to it is not checked.) *)
Definition execute (conn : connection) (now : Z) (q : sql) (t : tables)
    : res (Z * tables) :=
  match q with
  | INSERT_message cid r c =>
      if foreign_keys conn &&
         negb (bool_decide (cid ∈ map conv_id (conversations t)))
      then Raise IntegrityError
      else
        let i := msg_seq t + 1 in
        Ok (i,
            {| conversations := conversations t;
               messages := messages t ++
                 [{| msg_id := i; conversation_id := cid; role := r;
                     content := c; msg_created_at := now |}];
               user_documents := user_documents t;
               conv_seq := conv_seq t; msg_seq := i |})
  | UPDATE_updated_at cid =>
      Ok (Z.of_nat (length (filter (fun c => conv_id c = cid)
                              (conversations t))),
          {| conversations := map (bump now cid) (conversations t);
             messages := messages t;
             user_documents := user_documents t;
             conv_seq := conv_seq t; msg_seq := msg_seq t |})
  | INSERT_conversation uid ttl =>
      let i := conv_seq t + 1 in
      Ok (i,
          {| conversations := conversations t ++
               [{| conv_id := i; user_id := uid; title := ttl;
                   created_at := now; updated_at := now |}];
             messages := messages t;
             user_documents := user_documents t;
             conv_seq := i; msg_seq := msg_seq t |})
  | DELETE_conversation cid uid =>
      let doomed c := conv_id c = cid /\ user_id c = uid in
      let n := length (filter doomed (conversations t)) in
      let cascade := foreign_keys conn && negb (Nat.eqb n 0) in
      Ok (Z.of_nat n,
          {| conversations := filter (fun c => ~ doomed c) (conversations t);
             messages :=
               if cascade
               then filter (fun m => conversation_id m <> cid) (messages t)
               else messages t;
             user_documents :=
               if cascade
               then filter (fun d => ud_conversation_id d <> Some cid)
                      (user_documents t)
               else user_documents t;
             conv_seq := conv_seq t; msg_seq := msg_seq t |})
  end.

(** What can go wrong inside [with get_db_connection() as conn]: no
    connection becomes free within 5 s, the [k]-th statement raises, or the
    commit does. *)
Inductive fault : Type :=
  | NoFault
  | PoolExhausted
  | StatementRaises (k : nat)
  | CommitRaises.

(** The statements of a [with] block, in order, from position [k]; the
    results of the statements are collected. *)
Fixpoint run_block (conn : connection) (now : Z) (f : fault) (k : nat)
    (qs : list sql) (t : tables) : res (list Z * tables) :=
  match qs with
  | [] => Ok ([], t)
  | q :: qs' =>
      match f with
      | StatementRaises j =>
          if Nat.eqb j k then Raise DatabaseError
          else
            r ← execute conn now q t;
            rs ← run_block conn now f (S k) qs' r.2;
            Ok (r.1 :: rs.1, rs.2)
      | _ =>
          r ← execute conn now q t;
          rs ← run_block conn now f (S k) qs' r.2;
          Ok (r.1 :: rs.1, rs.2)
      end
  end.

(** [with get_db_connection() as conn: ...]: a connection is taken from
    the pool, the block runs in one transaction, which is committed when
    the block ends and rolled back when anything raises. *)
Definition get_db_connection (pool : list connection) (f : fault) (now : Z)
    (qs : list sql) (db : database) : res (list Z) * database :=
  match pool, f with
  | [], _ | _, PoolExhausted => (Raise TimeoutError, db)
  | conn :: _, _ =>
      match run_block conn now f 0 qs (committed db) with
      | Raise e => (Raise e, db)
      | Ok (rs, t) =>
          match f with
          | CommitRaises => (Raise DatabaseError, db)
          | _ => (Ok rs, {| committed := t; journal := journal db ++ [qs] |})
          end
      end
  end.

(** [add_message]: returns [cursor.lastrowid], the id of the new message. *)
Definition add_message (pool : list connection) (f : fault) (now : Z)
    (db : database) (cid : Z) (r c : string) : res Z * database :=
  let out := get_db_connection pool f now
               [INSERT_message cid r c; UPDATE_updated_at cid] db in
  (rs ← out.1; Ok (default 0 (rs !! 0%nat)), out.2).

(** [create_conversation]. *)
Definition create_conversation (pool : list connection) (f : fault)
    (now : Z) (db : database) (uid : Z) (ttl : string) : res Z * database :=
  let out := get_db_connection pool f now [INSERT_conversation uid ttl] db in
  (rs ← out.1; Ok (default 0 (rs !! 0%nat)), out.2).

(** [delete_conversation]: [True] when a row was deleted. *)
Definition delete_conversation (pool : list connection) (f : fault)
    (now : Z) (db : database) (cid uid : Z) : res bool * database :=
  let out := get_db_connection pool f now [DELETE_conversation cid uid] db in
  (rs ← out.1; Ok (0 <? default 0 (rs !! 0%nat)), out.2).

(** [get_conversation_by_id]: the row with this id owned by this user.
    (The function is memoised for five minutes and the entry dropped on
    delete and rename; the model reads the table.) *)
Definition get_conversation_by_id (db : database) (cid uid : Z)
    : option conversation :=
  head (filter (fun c => conv_id c = cid /\ user_id c = uid)
          (conversations (committed db))).

(** The block "Save to database" of [send_message]: [conversation_id] and
    [content] come from the request, [ai_response] from the LLM, [ttl] is
    the generated title.  The three [fault]s and clock readings belong to
    the database calls in the order they are made.  Returns [new_conv_id]. *)
Definition save_exchange (pool : list connection) (db : database)
    (conversationId : option Z) (uid : Z) (content ai_response ttl : string)
    (f1 f2 f3 : fault) (t1 t2 t3 : Z) : res (option Z) * database :=
  let truthy := match conversationId with
                | Some i => negb (i =? 0)
                | None => false
                end in
  if truthy then
    let cid := default 0 conversationId in
    match get_conversation_by_id db cid uid with
    | Some _ =>
        let a := add_message pool f2 t2 db cid "user" content in
        match a.1 with
        | Raise e => (Raise e, a.2)
        | Ok _ =>
            let b := add_message pool f3 t3 a.2 cid "assistant" ai_response in
            match b.1 with
            | Raise e => (Raise e, b.2)
            | Ok _ => (Ok conversationId, b.2)
            end
        end
    | None => (Ok conversationId, db)
    end
  else
    let n := create_conversation pool f1 t1 db uid ttl in
    match n.1 with
    | Raise e => (Raise e, n.2)
    | Ok cid =>
        let a := add_message pool f2 t2 n.2 cid "user" content in
        match a.1 with
        | Raise e => (Raise e, a.2)
        | Ok _ =>
            let b := add_message pool f3 t3 a.2 cid "assistant" ai_response in
            match b.1 with
            | Raise e => (Raise e, b.2)
            | Ok _ => (Ok (Some cid), b.2)
            end
        end
    end.

(** *** Properties *)

(** The store of the examples: conversation 1 of user 1, last touched at
    second 100, without messages. *)
Definition one_conversation : database :=
  {| committed :=
       {| conversations :=
            [{| conv_id := 1; user_id := 1; title := "notes";
                created_at := 100; updated_at := 100 |}];
          messages := []; user_documents := [];
          conv_seq := 1; msg_seq := 0 |};
     journal := [] |}.

(** The same conversation holding one message. *)
Definition one_message : database :=
  {| committed :=
       {| conversations :=
            [{| conv_id := 1; user_id := 1; title := "notes";
                created_at := 100; updated_at := 300 |}];
          messages :=
            [{| msg_id := 1; conversation_id := 1; role := "user";
                content := "hi"; msg_created_at := 300 |}];
          user_documents := [];
          conv_seq := 1; msg_seq := 1 |};
     journal := [[INSERT_message 1 "user" "hi"; UPDATE_updated_at 1]] |}.

Lemma pooled_connection_settings (pool_size : nat) (conn : connection) :
  conn ∈ SQLiteConnectionPool pool_size ->
  conn = {| journal_mode := "WAL"; synchronous := "NORMAL";
            cache_size := -64000; temp_store := "MEMORY";
            foreign_keys := false |}.
Proof. intros Hin. by apply elem_of_replicate in Hin as [-> _]. Qed.

(** The engine of [database_config.py] does switch enforcement on. *)
Lemma engine_connection_enforces_foreign_keys :
  foreign_keys (configure engine_pragmas) = true.
Proof. reflexivity. Qed.

(** On a connection that enforces foreign keys the delete cascades. *)
Lemma delete_cascades_when_enforced :
  delete_conversation [configure engine_pragmas] NoFault 500 one_message 1 1
  = (Ok true,
     {| committed :=
          {| conversations := []; messages := []; user_documents := [];
             conv_seq := 1; msg_seq := 1 |};
        journal := [[INSERT_message 1 "user" "hi"; UPDATE_updated_at 1];
                    [DELETE_conversation 1 1]] |}).
Proof. reflexivity. Qed.

(** C5 (the code departs from the claim).  No connection of the pool of
    [database.py] enforces foreign keys, so [delete_conversation] never
    removes a message: whatever the pool size, the fault, the database and
    the arguments, the [messages] table is as before. *)
Theorem delete_conversation_keeps_messages (pool_size : nat) (f : fault)
    (now : Z) (db : database) (cid uid : Z) :
  Forall (fun conn => foreign_keys conn = false)
         (SQLiteConnectionPool pool_size) /\
  messages (committed
    (delete_conversation (SQLiteConnectionPool pool_size) f now db cid uid).2)
  = messages (committed db).
Proof.
  split.
  - apply Forall_forall. intros conn Hin.
    by rewrite (pooled_connection_settings _ _ Hin).
  - unfold delete_conversation, get_db_connection.
    destruct pool_size as [|n]; simpl; [done|].
    destruct f as [| |k|]; simpl; try done.
    destruct k; done.
Qed.

(** The failing input of C5: deleting conversation 1 through the pool
    succeeds and its message stays. *)
Lemma delete_conversation_orphans_message :
  delete_conversation (SQLiteConnectionPool 10) NoFault 500 one_message 1 1
  = (Ok true,
     {| committed :=
          {| conversations := [];
             messages :=
               [{| msg_id := 1; conversation_id := 1; role := "user";
                   content := "hi"; msg_created_at := 300 |}];
             user_documents := [];
             conv_seq := 1; msg_seq := 1 |};
        journal := [[INSERT_message 1 "user" "hi"; UPDATE_updated_at 1];
                    [DELETE_conversation 1 1]] |}).
Proof. reflexivity. Qed.

(** [add_message] is one transaction: the insert and the bump are both
    committed, or the database is as before. *)
Lemma add_message_atomic (pool : list connection) (f : fault) (now : Z)
    (db : database) (cid : Z) (r c : string) :
  let out := add_message pool f now db cid r c in
  match out.1 with
  | Raise _ => out.2 = db
  | Ok i =>
      i = msg_seq (committed db) + 1 /\
      msg_seq (committed out.2) = i /\
      journal out.2
      = journal db ++ [[INSERT_message cid r c; UPDATE_updated_at cid]] /\
      messages (committed out.2)
      = messages (committed db) ++
          [{| msg_id := i; conversation_id := cid; role := r; content := c;
              msg_created_at := now |}] /\
      conversations (committed out.2)
      = map (bump now cid) (conversations (committed db))
  end.
Proof.
  unfold add_message, get_db_connection.
  destruct pool as [|conn pool]; simpl; [done|].
  destruct f as [| |k|]; simpl; try done.
  - destruct (foreign_keys conn && _); simpl; done.
  - destruct k as [|[|k]]; simpl; try done;
      destruct (foreign_keys conn && _); simpl; done.
  - destruct (foreign_keys conn && _); simpl; done.
Qed.




(** *** Missing rows and ownership *)

(** X5.  For a conversation id that no row of [conversations] carries,
    [add_message] through the pool of [database.py] succeeds: it returns
    the new message id and stores a message that points at no
    conversation.  On a connection that enforces foreign keys the same call
    raises [IntegrityError] and leaves the database as it was. *)
Theorem add_message_to_missing_conversation (pool_size : nat) (now : Z)
    (db : database) (cid : Z) (r c : string) :
  cid ∉ map conv_id (conversations (committed db)) ->
  let row := {| msg_id := msg_seq (committed db) + 1; conversation_id := cid;
                role := r; content := c; msg_created_at := now |} in
  let out :=
    add_message (SQLiteConnectionPool (S pool_size)) NoFault now db cid r c in
  out.1 = Ok (msg_seq (committed db) + 1) /\
  messages (committed out.2) = messages (committed db) ++ [row] /\
  conversations (committed out.2) = conversations (committed db) /\
  add_message [configure engine_pragmas] NoFault now db cid r c
  = (Raise IntegrityError, db).
Proof.
  intros Hmissing. cbv zeta. split; [done|]. split; [done|]. split.
  - cbn. induction (conversations (committed db)) as [|x l IH]; [done|].
    cbn [map] in *. apply not_elem_of_cons in Hmissing as [Hx Hl].
    rewrite IH by done. f_equal. unfold bump.
    rewrite bool_decide_eq_false_2; [done|congruence].
  - unfold add_message, get_db_connection. cbn.
    rewrite bool_decide_eq_false_2 by done. done.
Qed.

Lemma filter_no_match {A : Type} (P : A -> Prop)
    `{!forall x, Decision (P x)} (l : list A) :
  Forall (fun x => ~ P x) l -> filter P l = [].
Proof.
  induction 1 as [|x l Hx _ IH]; [done|].
  by rewrite filter_cons_False, IH.
Qed.

Lemma filter_head_unique {A : Type} (P : A -> Prop)
    `{!forall x, Decision (P x)} (l : list A) (a : A) :
  Forall (fun x => ~ P x) l -> P a -> head (filter P (l ++ [a])) = Some a.
Proof.
  intros Hl Ha. rewrite filter_app, (filter_no_match P l Hl).
  by rewrite filter_cons_True.
Qed.

(** X6.  In a table whose ids do not exceed the AUTOINCREMENT counter,
    the id [create_conversation] returns is the next one;
    [get_conversation_by_id] finds the new row under that id for the user
    who created it and finds nothing under that id for any other user; no
    message is touched. *)
Theorem create_then_get_conversation (pool : list connection) (now : Z)
    (db : database) (uid : Z) (ttl : string) (cid : Z) :
  Forall (fun c => conv_id c <= conv_seq (committed db))
         (conversations (committed db)) ->
  (create_conversation pool NoFault now db uid ttl).1 = Ok cid ->
  let db' := (create_conversation pool NoFault now db uid ttl).2 in
  cid = conv_seq (committed db) + 1 /\
  get_conversation_by_id db' cid uid
  = Some {| conv_id := cid; user_id := uid; title := ttl;
            created_at := now; updated_at := now |} /\
  (forall other, other <> uid -> get_conversation_by_id db' cid other = None) /\
  messages (committed db') = messages (committed db).
Proof.
  intros Hseq. unfold create_conversation, get_db_connection.
  destruct pool as [|conn pool]; [done|]. cbn. intros [= <-].
  split; [done|]. unfold get_conversation_by_id. cbn.
  split; [|split; [|done]].
  - apply filter_head_unique; [|done].
    eapply Forall_impl; [exact Hseq|]. simpl. intros c Hc [Hid _]. lia.
  - intros other Hne. apply head_None. rewrite filter_app.
    rewrite filter_cons_False by (simpl; intros [_ ?]; congruence).
    rewrite filter_nil, app_nil_r. apply filter_no_match.
    eapply Forall_impl; [exact Hseq|]. simpl. intros c Hc [Hid _]. lia.
Qed.

(** X7.  [delete_conversation(conversation_id, user_id)] removes exactly
    the rows with that id and that owner: a conversation with another id
    or another owner stays, and the result is [True] exactly when such a
    row existed. *)
Theorem delete_conversation_checks_owner (pool : list connection) (now : Z)
    (db : database) (cid uid : Z) :
  pool <> [] ->
  let out := delete_conversation pool NoFault now db cid uid in
  out.1 = Ok (bool_decide
                (Exists (fun c => conv_id c = cid /\ user_id c = uid)
                        (conversations (committed db)))) /\
  forall c, c ∈ conversations (committed out.2) <->
            c ∈ conversations (committed db) /\
            ~ (conv_id c = cid /\ user_id c = uid).
Proof.
  intros Hpool. destruct pool as [|conn pool]; [done|].
  cbv zeta. unfold delete_conversation, get_db_connection. cbn. split.
  - f_equal.
    induction (conversations (committed db)) as [|x l IH]; [done|].
    rewrite filter_cons.
    destruct (decide (conv_id x = cid /\ user_id x = uid)) as [Hx|Hx].
    + cbn [length]. rewrite bool_decide_eq_true_2 by (by left). done.
    + rewrite IH. apply bool_decide_ext. rewrite Exists_cons. tauto.
  - intros c. by rewrite list_elem_of_filter, (comm and).
Qed.

Lemma add_message_to_missing_conversation_run :
  (add_message (SQLiteConnectionPool 10) NoFault 500 one_conversation 9
     "user" "hi").1 = Ok 1 /\
  add_message [configure engine_pragmas] NoFault 500 one_conversation 9
    "user" "hi" = (Raise IntegrityError, one_conversation).
Proof.
  destruct (add_message_to_missing_conversation 9 500 one_conversation 9
              "user" "hi") as (H1 & _ & _ & H2).
  - cbn. rewrite list_elem_of_singleton. discriminate.
  - split; [exact H1|exact H2].
Defined.

Lemma create_then_get_conversation_run :
  get_conversation_by_id
    (create_conversation (SQLiteConnectionPool 10) NoFault 200
       one_conversation 2 "plans").2 2 2
  = Some {| conv_id := 2; user_id := 2; title := "plans";
            created_at := 200; updated_at := 200 |}.
Proof.
  refine (proj1 (proj2
    (create_then_get_conversation (SQLiteConnectionPool 10) 200
       one_conversation 2 "plans" 2 _ _))).
  - repeat constructor. simpl. lia.
  - reflexivity.
Defined.

Lemma delete_conversation_checks_owner_run :
  (delete_conversation (SQLiteConnectionPool 10) NoFault 500
     one_conversation 1 2).1 = Ok false.
Proof.
  refine (proj1 (delete_conversation_checks_owner (SQLiteConnectionPool 10)
                   500 one_conversation 1 2 _)).
  discriminate.
Defined.

End RelStore.

(** ** The rate limiter: [rate_limiting.py] *)

Module RateLimit.

(** A [datetime] is its number of microseconds since the epoch, a
    [timedelta] a number of microseconds. *)
Definition timedelta_seconds (n : Z) : Z := n * 1000000.
Definition timedelta_minutes (n : Z) : Z := n * 60000000.

(** [td.seconds]: the seconds field of the normalised [timedelta], between
    0 and 86399 (days are split off first, rounding down). *)
Definition seconds (td : Z) : Z := (td mod 86400000000) / 1000000.

(** [str(n)] for an integer. *)
Definition str (n : Z) : string := NilZero.string_of_int (Z.to_int n).

(** The state of a [RateLimiter].  [request_counts] is a
    [defaultdict(list)]: a missing key reads as the empty list. *)
Record limiter : Type := {
  request_counts : gmap string (list Z);
  limits : gmap string (Z * Z);
  blacklist : gmap string (Z * string)
}.

(** The rules installed by [__init__]. *)
Definition limit_rules : list (string * (Z * Z)) :=
  [("chat", (20, 60)); ("upload", (10, 60)); ("voice", (5, 60));
   ("login", (5, 300)); ("register", (3, 3600));
   ("config_update", (10, 60)); ("search", (30, 60));
   ("api_default", (100, 60))]%string.

(** [RateLimiter()]. *)
Definition RateLimiter : limiter :=
  {| request_counts := ∅; limits := list_to_map limit_rules;
     blacklist := ∅ |}.

(** The readings of [datetime.now()] made during one call, in program
    order: the blacklist test, the remaining block time, the window, and
    the violation record. *)
Record clock : Type := {
  at_test : Z;
  at_remaining : Z;
  at_window : Z;
  at_violation : Z
}.

(** What [check_rate_limit] decides. *)
Inductive verdict : Type :=
  | Allowed
  | Blocked (reason : string) (remaining : Z)
  | Exceeded (limit_count limit_seconds retry_after : Z).

(** The pair [(is_allowed, error_message)] returned for a verdict. *)
Definition reply (v : verdict) : bool * option string :=
  match v with
  | Allowed => (true, None)
  | Blocked reason remaining =>
      (false,
       Some ("Temporarily blocked: " +:+ reason +:+ ". Retry after " +:+
             str remaining +:+ "s"))
  | Exceeded limit_count limit_seconds retry_after =>
      (false,
       Some ("Rate limit exceeded. Max " +:+ str limit_count +:+
             " requests per " +:+ str limit_seconds +:+ "s. Retry after " +:+
             str retry_after +:+ "s."))
  end.

Definition read (s : limiter) (key : string) : list Z :=
  default [] (request_counts s !! key).

Definition with_counts (s : limiter) (rc : gmap string (list Z)) : limiter :=
  {| request_counts := rc; limits := limits s; blacklist := blacklist s |}.

(** [self.limits.get(operation, self.limits["api_default"])]; the default
    is looked up first. *)
Definition limit_of (s : limiter) (operation : string) : res (Z * Z) :=
  match limits s !! "api_default"%string with
  | None => Raise KeyError
  | Some d => Ok (default d (limits s !! operation))
  end.

(** [_check_blacklist_trigger]. *)
Definition check_blacklist_trigger (s : limiter) (user_id : string)
    (now : Z) : limiter :=
  let violation_key := user_id +:+ ":violations" in
  let cutoff := now - timedelta_minutes 10 in
  let recorded :=
    filter (fun ts => cutoff < ts) (read s violation_key) ++ [now] in
  let rc := <[violation_key := recorded]> (request_counts s) in
  let violation_count := Z.of_nat (length recorded) in
  if 5 <=? violation_count then
    let blocked_until := now + timedelta_minutes 30 in
    let reason :=
      "Excessive rate limit violations (" +:+ str violation_count +:+
      " times)" in
    {| request_counts := rc; limits := limits s;
       blacklist := <[user_id := (blocked_until, reason)]> (blacklist s) |}
  else with_counts s rc.

(** The window step of [check_rate_limit] (steps 2 to 7), on a limiter in
    which the caller is not blocked. *)
Definition check_window (s : limiter) (user_id operation : string)
    (cost : Z) (clk : clock) : res verdict * limiter :=
  match limit_of s operation with
  | Raise e => (Raise e, s)
  | Ok (limit_count, limit_seconds) =>
      let key := user_id +:+ ":" +:+ operation in
      let now := at_window clk in
      let cutoff_time := now - timedelta_seconds limit_seconds in
      let kept := filter (fun ts => cutoff_time < ts) (read s key) in
      let s1 := with_counts s (<[key := kept]> (request_counts s)) in
      let current_count := Z.of_nat (length kept) in
      if limit_count <? current_count + cost then
        match kept with
        | [] => (Raise IndexError, s1)    (* self.request_counts[key][0] *)
        | oldest :: _ =>
            let retry_after := limit_seconds - seconds (now - oldest) in
            (Ok (Exceeded limit_count limit_seconds retry_after),
             check_blacklist_trigger s1 user_id (at_violation clk))
        end
      else
        (Ok Allowed,
         with_counts s1
           (<[key := kept ++ replicate (Z.to_nat cost) now]>
              (request_counts s1)))
  end.

(** [check_rate_limit], as a verdict; the method returns [reply] of it. *)
Definition check_verdict (s : limiter) (user_id operation : string)
    (cost : Z) (clk : clock) : res verdict * limiter :=
  match blacklist s !! user_id with
  | Some (blocked_until, reason) =>
      if at_test clk <? blocked_until then
        (Ok (Blocked reason (seconds (blocked_until - at_remaining clk))), s)
      else
        check_window
          {| request_counts := request_counts s; limits := limits s;
             blacklist := delete user_id (blacklist s) |}
          user_id operation cost clk
  | None => check_window s user_id operation cost clk
  end.

Definition check_rate_limit (s : limiter) (user_id operation : string)
    (cost : Z) (clk : clock) : res (bool * option string) * limiter :=
  let out := check_verdict s user_id operation cost clk in
  (reply <$> out.1, out.2).

(** The dictionary returned by [get_remaining_quota]. *)
Record quota : Type := {
  q_limit : Z;
  q_used : Z;
  q_remaining : Z;
  q_reset_in : Z;
  q_window_seconds : Z
}.

(** [get_remaining_quota]; [now] is its one clock reading. *)
Definition get_remaining_quota (s : limiter) (user_id operation : string)
    (now : Z) : res quota * limiter :=
  match limit_of s operation with
  | Raise e => (Raise e, s)
  | Ok (limit_count, limit_seconds) =>
      let key := user_id +:+ ":" +:+ operation in
      let cutoff_time := now - timedelta_seconds limit_seconds in
      let kept := filter (fun ts => cutoff_time < ts) (read s key) in
      let used := Z.of_nat (length kept) in
      let reset_in :=
        match kept with
        | oldest :: _ => limit_seconds - seconds (now - oldest)
        | [] => 0
        end in
      (Ok {| q_limit := limit_count; q_used := used;
             q_remaining := Z.max 0 (limit_count - used);
             q_reset_in := reset_in; q_window_seconds := limit_seconds |},
       with_counts s (<[key := kept]> (request_counts s)))
  end.

(** [update_limits]. *)
Definition update_limits (s : limiter) (operation : string)
    (max_requests window_seconds : Z) : limiter :=
  {| request_counts := request_counts s;
     limits := <[operation := (max_requests, window_seconds)]> (limits s);
     blacklist := blacklist s |}.

(** [reset_user_limits]: every key that starts with [user_id + ":"] is
    deleted. *)
Definition reset_user_limits (s : limiter) (user_id : string) : limiter :=
  with_counts s
    (filter (fun kv : string * list Z =>
               String.prefix (user_id +:+ ":") kv.1 = false)
            (request_counts s)).

(** [add_to_blacklist]; [now] is the reading of [datetime.now()]. *)
Definition add_to_blacklist (s : limiter) (user_id : string)
    (duration_minutes : Z) (reason : string) (now : Z) : limiter :=
  {| request_counts := request_counts s; limits := limits s;
     blacklist :=
       <[user_id := (now + timedelta_minutes duration_minutes, reason)]>
         (blacklist s) |}.

(** [remove_from_blacklist]. *)
Definition remove_from_blacklist (s : limiter) (user_id : string)
    : bool * limiter :=
  match blacklist s !! user_id with
  | Some _ =>
      (true,
       {| request_counts := request_counts s; limits := limits s;
          blacklist := delete user_id (blacklist s) |})
  | None => (false, s)
  end.

(** Successive calls with cost 1 by one user for one operation, one clock
    per call: the results, oldest first, and the final state. *)
Fixpoint calls (s : limiter) (user_id operation : string)
    (clks : list clock) : list (res (bool * option string)) * limiter :=
  match clks with
  | [] => ([], s)
  | clk :: clks' =>
      let out := check_rate_limit s user_id operation 1 clk in
      let rest := calls out.2 user_id operation clks' in
      (out.1 :: rest.1, rest.2)
  end.

(** A call during which every clock reading is [sec] seconds after the
    epoch. *)
Definition tick (sec : Z) : clock :=
  {| at_test := timedelta_seconds sec; at_remaining := timedelta_seconds sec;
     at_window := timedelta_seconds sec;
     at_violation := timedelta_seconds sec |}.

(** *** Properties *)

Lemma filter_all {A : Type} (P : A -> Prop) `{!forall x, Decision (P x)}
    (l : list A) :
  Forall P l -> filter P l = l.
Proof.
  induction 1 as [|x l Hx _ IH]; [done|].
  by rewrite filter_cons_True, IH.
Qed.

Lemma seconds_nonneg (td : Z) : 0 <= seconds td.
Proof.
  unfold seconds. apply Z.div_pos; [|lia].
  apply Z.mod_pos_bound. lia.
Qed.

(** Every rule of the shipped table admits at least one request. *)
Lemma limit_rules_positive (s : limiter) (operation : string) (L W : Z) :
  limits s = limits RateLimiter ->
  limit_of s operation = Ok (L, W) -> 1 <= L.
Proof.
  intros Hl. unfold limit_of. rewrite Hl.
  change (limits RateLimiter)
    with (list_to_map limit_rules : gmap string (Z * Z)).
  assert (Hdef : (list_to_map limit_rules : gmap string (Z * Z))
                   !! "api_default"%string = Some (100, 60))
    by (vm_compute; reflexivity).
  rewrite Hdef.
  destruct ((list_to_map limit_rules : gmap string (Z * Z)) !! operation)
    as [v|] eqn:Hop; intros [= Hd]; [|lia].
  apply elem_of_list_to_map_2 in Hop. subst v.
  assert (Hall : Forall (fun kv : string * (Z * Z) => 1 <= kv.2.1)
                   limit_rules).
  { unfold limit_rules. repeat constructor; simpl; lia. }
  rewrite Forall_forall in Hall. exact (Hall _ Hop).
Qed.

Section Window.

Context (user_id operation : string) (L W lo hi : Z).

Let key : string := user_id +:+ ":" +:+ operation.

Hypothesis Hspan : hi - lo < timedelta_seconds W.

(** A request inside the span, with the window not yet full, is allowed
    and recorded. *)
Lemma check_verdict_allowed (s : limiter) (clk : clock) :
  blacklist s !! user_id = None ->
  limit_of s operation = Ok (L, W) ->
  Forall (fun ts => lo <= ts) (read s key) ->
  lo <= at_window clk <= hi ->
  Z.of_nat (length (read s key)) + 1 <= L ->
  let out := check_verdict s user_id operation 1 clk in
  out.1 = Ok Allowed /\
  blacklist out.2 = blacklist s /\
  limits out.2 = limits s /\
  read out.2 key = read s key ++ [at_window clk].
Proof.
  intros Hb Hlim Hold Hclk Hroom. unfold check_verdict, check_window.
  rewrite Hb, Hlim. fold key. cbv zeta.
  rewrite filter_all.
  2:{ eapply Forall_impl; [exact Hold|]. simpl. intros ts Hts. lia. }
  destruct (Z.ltb_spec L (Z.of_nat (length (read s key)) + 1)); [lia|].
  simpl. repeat split; try done.
  unfold read. simpl. by rewrite lookup_insert_eq.
Qed.

(** A request inside the span that finds the window full is refused, with
    a waiting time of at most the window. *)
Lemma check_verdict_exceeded (s : limiter) (clk : clock) :
  blacklist s !! user_id = None ->
  limit_of s operation = Ok (L, W) ->
  Forall (fun ts => lo <= ts) (read s key) ->
  lo <= at_window clk <= hi ->
  1 <= L ->
  Z.of_nat (length (read s key)) = L ->
  exists r,
    (check_verdict s user_id operation 1 clk).1 = Ok (Exceeded L W r) /\
    r <= W.
Proof.
  intros Hb Hlim Hold Hclk HL Hfull. unfold check_verdict, check_window.
  rewrite Hb, Hlim. fold key. cbv zeta.
  rewrite filter_all.
  2:{ eapply Forall_impl; [exact Hold|]. simpl. intros ts Hts. lia. }
  destruct (Z.ltb_spec L (Z.of_nat (length (read s key)) + 1)); [|lia].
  destruct (read s key) as [|oldest rest]; [simpl in Hfull; lia|].
  simpl. eexists. split; [done|].
  pose proof (seconds_nonneg (at_window clk - oldest)). lia.
Qed.

Lemma calls_allowed (clks : list clock) (s : limiter) :
  blacklist s !! user_id = None ->
  limit_of s operation = Ok (L, W) ->
  Forall (fun ts => lo <= ts) (read s key) ->
  Forall (fun c => lo <= at_window c <= hi) clks ->
  Z.of_nat (length (read s key)) + Z.of_nat (length clks) <= L ->
  let out := calls s user_id operation clks in
  out.1 = replicate (length clks) (Ok (true, None)) /\
  blacklist out.2 !! user_id = None /\
  limit_of out.2 operation = Ok (L, W) /\
  read out.2 key = read s key ++ map at_window clks.
Proof.
  revert s. induction clks as [|clk clks IH]; intros s Hb Hlim Hold Hin Hroom.
  { simpl. by rewrite app_nil_r. }
  apply Forall_cons in Hin as [Hclk Hin]. simpl in Hroom.
  destruct (check_verdict_allowed s clk) as (Hv & Hb' & Hl' & Hr');
    [done|done|done|done|lia|].
  cbv zeta in Hv, Hb', Hl', Hr'.
  destruct (IH (check_verdict s user_id operation 1 clk).2)
    as (Hvs & Hb'' & Hl'' & Hr'').
  - by rewrite Hb'.
  - unfold limit_of. rewrite Hl'. exact Hlim.
  - rewrite Hr'. apply Forall_app. split; [done|].
    constructor; [lia|constructor].
  - done.
  - rewrite Hr', length_app. simpl. lia.
  - cbv zeta in Hvs, Hb'', Hl'', Hr''.
    cbn [calls fst snd length replicate map].
    unfold check_rate_limit. cbn [fst snd]. rewrite Hv.
    split; [by f_equal|]. split; [done|]. split; [done|].
    by rewrite Hr'', Hr', <- app_assoc.
Qed.

End Window.

Section Room.

Context (user_id operation : string) (L W : Z).

Let key : string := user_id +:+ ":" +:+ operation.

(** While the window has room, a request of cost 1 is allowed whatever the
    clock says. *)
Lemma check_verdict_room (s : limiter) (clk : clock) :
  blacklist s !! user_id = None ->
  limit_of s operation = Ok (L, W) ->
  Z.of_nat (length (read s key)) + 1 <= L ->
  let out := check_verdict s user_id operation 1 clk in
  out.1 = Ok Allowed /\
  blacklist out.2 = blacklist s /\
  limits out.2 = limits s /\
  (length (read out.2 key) <= length (read s key) + 1)%nat.
Proof.
  intros Hb Hlim Hroom. unfold check_verdict, check_window.
  rewrite Hb, Hlim. fold key. cbv zeta.
  set (kept := filter _ (read s key)).
  assert (Hkept : (length kept <= length (read s key))%nat)
    by apply length_filter.
  destruct (Z.ltb_spec L (Z.of_nat (length kept) + 1)); [lia|].
  simpl. repeat split; try done.
  unfold read at 1. simpl. rewrite lookup_insert_eq. simpl.
  rewrite length_app. simpl. lia.
Qed.

(** From a window with room for them, requests of cost 1 are allowed
    however they are spread in time. *)
Lemma calls_with_room (clks : list clock) (s : limiter) :
  blacklist s !! user_id = None ->
  limit_of s operation = Ok (L, W) ->
  Z.of_nat (length (read s key)) + Z.of_nat (length clks) <= L ->
  (calls s user_id operation clks).1
  = replicate (length clks) (Ok (true, None)).
Proof.
  revert s. induction clks as [|clk clks IH]; intros s Hb Hlim Hroom; [done|].
  simpl in Hroom.
  destruct (check_verdict_room s clk) as (Hv & Hb' & Hl' & Hlen);
    [done|done|lia|].
  cbv zeta in Hv, Hb', Hl', Hlen.
  cbn [calls fst snd length replicate].
  unfold check_rate_limit. cbn [fst snd]. rewrite Hv. f_equal.
  apply IH.
  - by rewrite Hb'.
  - unfold limit_of. rewrite Hl'. exact Hlim.
  - lia.
Qed.

End Room.



Lemma filter_none {A : Type} (P : A -> Prop) `{!forall x, Decision (P x)}
    (l : list A) :
  Forall (fun x => ~ P x) l -> filter P l = [].
Proof.
  induction 1 as [|x l Hx _ IH]; [done|].
  by rewrite filter_cons_False, IH.
Qed.

(** C10 (the code departs from the claim).  When no request of the window
    is left after eviction and the cost alone exceeds the limit, the
    refusal branch reads [self.request_counts[key][0]] on an empty list:
    [check_rate_limit] raises [IndexError] instead of returning a pair. *)
Theorem check_rate_limit_overcost_raises (s : limiter)
    (user_id operation : string) (L W cost : Z) (clk : clock) :
  blacklist s !! user_id = None ->
  limit_of s operation = Ok (L, W) ->
  Forall (fun ts => ts <= at_window clk - timedelta_seconds W)
         (read s (user_id +:+ ":" +:+ operation)) ->
  L < cost ->
  (check_rate_limit s user_id operation cost clk).1 = Raise IndexError.
Proof.
  intros Hb Hlim Hold Hcost.
  unfold check_rate_limit, check_verdict, check_window.
  rewrite Hb, Hlim. cbv zeta. rewrite filter_none.
  2:{ eapply Forall_impl; [exact Hold|]. simpl. intros ts Hts. lia. }
  simpl. destruct (Z.ltb_spec L (Z.of_nat 0 + cost)); [done|lia].
Qed.

(** The failing input of C10: a fresh limiter and a voice request (limit 5
    per 60 s) of cost 6. *)
Lemma check_rate_limit_overcost_voice :
  (check_rate_limit RateLimiter "u" "voice" 6 (tick 0)).1 = Raise IndexError.
Proof.
  apply (check_rate_limit_overcost_raises RateLimiter "u" "voice" 5 60).
  - reflexivity.
  - vm_compute. reflexivity.
  - constructor.
  - lia.
Defined.

(** The sibling [get_remaining_quota] guards the same read: on the empty
    window it reports a reset time of 0. *)
Lemma get_remaining_quota_empty_window :
  (get_remaining_quota RateLimiter "u" "voice" 0).1
  = Ok {| q_limit := 5; q_used := 0; q_remaining := 5; q_reset_in := 0;
          q_window_seconds := 60 |}.
Proof. vm_compute. reflexivity. Qed.

(** *** Quota, blacklist and reset *)

Lemma prefix_app (a b c : string) :
  String.prefix (a +:+ b) (a +:+ b +:+ c) = true.
Proof.
  induction a as [|x a IH]; simpl.
  - induction b as [|y b IHb]; simpl; [by destruct c|].
    destruct (ascii_dec y y); [done|congruence].
  - destruct (ascii_dec x x); [done|congruence].
Qed.

Lemma read_with_counts_insert (s : limiter) (key : string) (l : list Z) :
  read (with_counts s (<[key := l]> (request_counts s))) key = l.
Proof. unfold read. simpl. by rewrite lookup_insert_eq. Qed.

Lemma limit_of_with_counts (s : limiter) (rc : gmap string (list Z))
    (operation : string) :
  limit_of (with_counts s rc) operation = limit_of s operation.
Proof. done. Qed.

(** X8.  [get_remaining_quota] followed by [check_rate_limit]: for a user
    who is not blocked, a request whose cost is between 1 and the
    [remaining] just reported is allowed, whatever the clock reads. *)
Theorem quota_admits_request (s : limiter) (user_id operation : string)
    (now cost : Z) (clk : clock) (q : quota) :
  blacklist s !! user_id = None ->
  (get_remaining_quota s user_id operation now).1 = Ok q ->
  1 <= cost <= q_remaining q ->
  (check_rate_limit (get_remaining_quota s user_id operation now).2
     user_id operation cost clk).1 = Ok (true, None).
Proof.
  intros Hb Hq Hcost. unfold get_remaining_quota in *.
  destruct (limit_of s operation) as [[L W]|e] eqn:Hlim; [|done].
  cbv zeta in *. cbn [fst snd] in *. injection Hq as <-. cbn in Hcost.
  set (key := user_id +:+ ":" +:+ operation) in *.
  set (kept := filter _ (read s key)) in *.
  unfold check_rate_limit, check_verdict. cbn [fst snd blacklist with_counts].
  rewrite Hb. unfold check_window.
  rewrite limit_of_with_counts, Hlim. cbv zeta. fold key.
  rewrite read_with_counts_insert.
  set (kept' := filter _ kept).
  assert (Hlen : (length kept' <= length kept)%nat) by apply length_filter.
  destruct (Z.ltb_spec L (Z.of_nat (length kept') + cost)); [lia|done].
Qed.

(** X9.  After [add_to_blacklist(user_id, duration_minutes, reason)],
    every [check_rate_limit] of that user whose blacklist test is made
    before the block ends is refused with the message carrying [reason] and
    the seconds left, for every operation and cost, and changes nothing in
    the limiter. *)
Theorem manual_block_refuses_everything (s : limiter) (user_id : string)
    (duration_minutes : Z) (reason : string) (now : Z)
    (operation : string) (cost : Z) (clk : clock) :
  at_test clk < now + timedelta_minutes duration_minutes ->
  let s' := add_to_blacklist s user_id duration_minutes reason now in
  check_rate_limit s' user_id operation cost clk
  = (Ok (false,
         Some ("Temporarily blocked: " +:+ reason +:+ ". Retry after " +:+
               str (seconds (now + timedelta_minutes duration_minutes
                             - at_remaining clk)) +:+ "s")),
     s').
Proof.
  intros Hclk. cbv zeta. unfold check_rate_limit, check_verdict.
  cbn [blacklist add_to_blacklist]. rewrite lookup_insert_eq.
  destruct (Z.ltb_spec (at_test clk) (now + timedelta_minutes duration_minutes));
    [done|lia].
Qed.

(** X10.  A block that has run out is dropped by the next
    [check_rate_limit]: result and new state are those of the same call
    made after [remove_from_blacklist], which returns [True]. *)
Theorem expired_block_is_lifted (s : limiter) (user_id operation : string)
    (cost : Z) (clk : clock) (blocked_until : Z) (reason : string) :
  blacklist s !! user_id = Some (blocked_until, reason) ->
  blocked_until <= at_test clk ->
  (remove_from_blacklist s user_id).1 = true /\
  check_rate_limit s user_id operation cost clk
  = check_rate_limit (remove_from_blacklist s user_id).2
      user_id operation cost clk.
Proof.
  intros Hb Hclk. unfold remove_from_blacklist. rewrite Hb. split; [done|].
  unfold check_rate_limit, check_verdict. cbn [fst snd blacklist].
  rewrite Hb, lookup_delete_eq.
  destruct (Z.ltb_spec (at_test clk) blocked_until); [lia|done].
Qed.

Lemma append_inj_l (a b c : string) : a +:+ b = a +:+ c -> b = c.
Proof. induction a as [|x a IH]; simpl; [done|]. intros [= H]. by apply IH. Qed.

Section Escalation.

Context (user_id operation : string) (L W vlo vhi : Z).

Let key : string := user_id +:+ ":" +:+ operation.
Let vkey : string := user_id +:+ ":violations".

Hypothesis Hop : operation <> "violations"%string.
Hypothesis Hvspan : vhi - vlo < timedelta_minutes 10.

Lemma key_not_violations : vkey <> key.
Proof.
  unfold key, vkey. intros H. apply append_inj_l in H.
  apply (append_inj_l ":") in H. by apply Hop.
Qed.

(** A request that finds the window full is refused and recorded as a
    violation; the fifth violation in ten minutes puts the user on the
    blacklist. *)
Lemma check_verdict_violation (s : limiter) (clk : clock) :
  blacklist s !! user_id = None ->
  limit_of s operation = Ok (L, W) ->
  read s key <> [] ->
  L <= Z.of_nat (length (read s key)) ->
  Forall (fun ts => at_window clk - timedelta_seconds W < ts) (read s key) ->
  Forall (fun ts => vlo <= ts) (read s vkey) ->
  vlo <= at_violation clk <= vhi ->
  let out := check_verdict s user_id operation 1 clk in
  let n := Z.of_nat (length (read s vkey)) + 1 in
  (exists r, out.1 = Ok (Exceeded L W r)) /\
  limits out.2 = limits s /\
  read out.2 key = read s key /\
  read out.2 vkey = read s vkey ++ [at_violation clk] /\
  blacklist out.2
  = if 5 <=? n then
      <[user_id := (at_violation clk + timedelta_minutes 30,
                    "Excessive rate limit violations (" +:+ str n +:+
                    " times)")]> (blacklist s)
    else blacklist s.
Proof.
  intros Hb Hlim Hne Hfull Hwin Hold Hclk. cbv zeta.
  unfold check_verdict, check_window. rewrite Hb, Hlim. fold key. cbv zeta.
  rewrite filter_all by done.
  destruct (Z.ltb_spec L (Z.of_nat (length (read s key)) + 1)); [|lia].
  destruct (read s key) as [|oldest rest] eqn:Hread; [done|].
  cbn [fst snd]. split; [by eexists|].
  unfold check_blacklist_trigger. fold vkey. cbv zeta.
  assert (Hv : read (with_counts s (<[key:=oldest :: rest]> (request_counts s)))
                 vkey = read s vkey).
  { unfold read. simpl. rewrite lookup_insert_ne; [done|].
    intros Heq. by apply key_not_violations. }
  rewrite Hv. rewrite filter_all.
  2:{ eapply Forall_impl; [exact Hold|]. simpl. intros ts Hts. lia. }
  rewrite length_app. cbn [length].
  replace (Z.of_nat (length (read s vkey) + 1))
    with (Z.of_nat (length (read s vkey)) + 1) by lia.
  destruct (5 <=? Z.of_nat (length (read s vkey)) + 1); cbn.
  - repeat split; try done.
    + unfold read. simpl. rewrite lookup_insert_ne by apply key_not_violations.
      by rewrite lookup_insert_eq.
    + unfold read. simpl. by rewrite lookup_insert_eq.
  - repeat split; try done.
    + unfold read. simpl. rewrite lookup_insert_ne by apply key_not_violations.
      by rewrite lookup_insert_eq.
    + unfold read. simpl. by rewrite lookup_insert_eq.
Qed.

Lemma calls_violations (clks : list clock) (s : limiter) :
  blacklist s !! user_id = None ->
  limit_of s operation = Ok (L, W) ->
  read s key <> [] ->
  L <= Z.of_nat (length (read s key)) ->
  Forall (fun ts => vlo <= ts) (read s vkey) ->
  Forall (fun c => vlo <= at_violation c <= vhi /\
            Forall (fun ts => at_window c - timedelta_seconds W < ts)
                   (read s key)) clks ->
  (length (read s vkey) + length clks <= 4)%nat ->
  let out := calls s user_id operation clks in
  Forall (fun r => exists m, r = Ok (false, Some m)) out.1 /\
  blacklist out.2 !! user_id = None /\
  limit_of out.2 operation = Ok (L, W) /\
  read out.2 key = read s key /\
  read out.2 vkey = read s vkey ++ map at_violation clks.
Proof.
  revert s.
  induction clks as [|clk clks IH]; intros s Hb Hlim Hne Hfull Hold Hin Hn.
  { simpl. by rewrite app_nil_r. }
  apply Forall_cons in Hin as [[Hclk Hwin] Hin]. cbn [length] in Hn.
  destruct (check_verdict_violation s clk)
    as ([r Hv] & Hl' & Hr' & Hvr' & Hb'); try done.
  cbv zeta in Hv, Hl', Hr', Hvr', Hb'.
  destruct (Z.leb_spec 5 (Z.of_nat (length (read s vkey)) + 1)) as [|_];
    [lia|].
  destruct (IH (check_verdict s user_id operation 1 clk).2)
    as (Hvs & Hb'' & Hl'' & Hr'' & Hvr'').
  - by rewrite Hb'.
  - unfold limit_of. rewrite Hl'. exact Hlim.
  - by rewrite Hr'.
  - by rewrite Hr'.
  - rewrite Hvr'. apply Forall_app. split; [done|].
    constructor; [lia|constructor].
  - by rewrite Hr'.
  - rewrite Hvr', length_app. simpl. lia.
  - cbv zeta in Hvs, Hb'', Hl'', Hr'', Hvr''.
    cbn [calls fst snd map].
    unfold check_rate_limit. cbn [fst snd]. rewrite Hv.
    split; [constructor; [by eexists|done]|].
    split; [done|]. split; [done|]. split; [by rewrite Hr''|].
    by rewrite Hvr'', Hvr', <- app_assoc.
Qed.

End Escalation.

(** X11.  Escalation.  A user who is not blocked, has no violation on
    record and whose window for an operation (other than one named
    "violations") stays full makes five requests of cost 1 whose violation
    records fall within ten minutes: all five are refused, the user is not
    blocked after the fourth, and the fifth puts the user on the blacklist
    for 30 minutes with the reason "Excessive rate limit violations (5
    times)". *)
Theorem five_violations_block_user (s : limiter) (user_id operation : string)
    (L W vlo vhi : Z) (clks : list clock) (last : clock) :
  operation <> "violations"%string ->
  blacklist s !! user_id = None ->
  limit_of s operation = Ok (L, W) ->
  read s (user_id +:+ ":" +:+ operation) <> [] ->
  L <= Z.of_nat (length (read s (user_id +:+ ":" +:+ operation))) ->
  read s (user_id +:+ ":violations") = [] ->
  length clks = 4%nat ->
  vhi - vlo < timedelta_minutes 10 ->
  Forall (fun c => vlo <= at_violation c <= vhi /\
            Forall (fun ts => at_window c - timedelta_seconds W < ts)
                   (read s (user_id +:+ ":" +:+ operation)))
         (clks ++ [last]) ->
  let out := calls s user_id operation clks in
  let fin := check_rate_limit out.2 user_id operation 1 last in
  Forall (fun r => exists m, r = Ok (false, Some m)) (out.1 ++ [fin.1]) /\
  blacklist out.2 !! user_id = None /\
  blacklist fin.2 !! user_id
  = Some (at_violation last + timedelta_minutes 30,
          "Excessive rate limit violations (5 times)"%string).
Proof.
  intros Hop Hb Hlim Hne Hfull Hv Hlen Hspan Hin. cbv zeta.
  apply Forall_app in Hin as [Hin Hlast].
  apply Forall_cons in Hlast as [[Hlast Hwin] _].
  destruct (calls_violations user_id operation L W vlo vhi Hop Hspan clks s)
    as (Hvs & Hb' & Hl' & Hr' & Hvr'); try done.
  { by rewrite Hv. }
  { rewrite Hv, Hlen. simpl. lia. }
  cbv zeta in Hvs, Hb', Hl', Hr', Hvr'. rewrite Hv in Hvr'. simpl in Hvr'.
  destruct (check_verdict_violation user_id operation L W vlo vhi Hop Hspan
              (calls s user_id operation clks).2 last)
    as ([r Hr] & _ & _ & _ & Hbl); try done.
  { by rewrite Hr'. }
  { by rewrite Hr'. }
  { by rewrite Hr'. }
  { rewrite Hvr'. apply Forall_fmap. eapply Forall_impl; [exact Hin|].
    simpl. intros c [Hc _]. lia. }
  cbv zeta in Hr, Hbl. rewrite Hvr', length_map, Hlen in Hbl.
  split; [|split; [done|]].
  - apply Forall_app. split; [done|]. constructor; [|constructor].
    unfold check_rate_limit. cbn [fst snd]. rewrite Hr. by eexists.
  - unfold check_rate_limit. cbn [fst snd]. rewrite Hbl.
    change (5 <=? Z.of_nat 4 + 1) with true. cbv iota.
    by rewrite lookup_insert_eq.
Qed.

(** X12.  After [reset_user_limits(user_id)], [get_remaining_quota]
    reports no use and no reset time for every operation of that user; the
    blacklist and the limits are untouched, and so is every key that does
    not start with [user_id + ":"]. *)
Theorem reset_user_limits_clears_usage (s : limiter)
    (user_id operation : string) (L W now : Z) :
  limit_of s operation = Ok (L, W) ->
  let s' := reset_user_limits s user_id in
  (get_remaining_quota s' user_id operation now).1
  = Ok {| q_limit := L; q_used := 0; q_remaining := Z.max 0 L;
          q_reset_in := 0; q_window_seconds := W |} /\
  blacklist s' = blacklist s /\
  limits s' = limits s /\
  forall key, String.prefix (user_id +:+ ":") key = false ->
    read s' key = read s key.
Proof.
  intros Hlim. cbv zeta. split; [|split; [done|split; [done|]]].
  - unfold get_remaining_quota, reset_user_limits.
    rewrite limit_of_with_counts, Hlim. cbv zeta. cbn [fst].
    assert (Hr : read (with_counts s
                (filter (fun kv : string * list Z =>
                           String.prefix (user_id +:+ ":") kv.1 = false)
                        (request_counts s)))
                (user_id +:+ ":" +:+ operation) = []).
    { unfold read. simpl. rewrite map_lookup_filter_None_2; [done|].
      right. intros l _. simpl. by rewrite prefix_app. }
    rewrite Hr. rewrite filter_nil. simpl. do 2 f_equal. lia.
  - intros key Hkey. unfold read, reset_user_limits. simpl.
    destruct (request_counts s !! key) as [l|] eqn:Hl.
    + by rewrite (map_lookup_filter_Some_2 _ _ _ _ Hl Hkey).
    + rewrite map_lookup_filter_None_2; [done|by left].
Qed.

(** X13.  When no recorded request lies in the future,
    [get_remaining_quota] returns a dictionary in which [used + remaining]
    is the larger of [limit] and [used], and either nothing is used and
    [reset_in] is 0, or something is and [reset_in] is between 1 and
    [window_seconds]. *)
Theorem remaining_quota_bounds (s : limiter) (user_id operation : string)
    (L W now : Z) :
  limit_of s operation = Ok (L, W) ->
  Forall (fun ts => ts <= now) (read s (user_id +:+ ":" +:+ operation)) ->
  exists q,
    (get_remaining_quota s user_id operation now).1 = Ok q /\
    q_limit q = L /\ q_window_seconds q = W /\
    q_used q + q_remaining q = Z.max L (q_used q) /\
    ((q_used q = 0 /\ q_reset_in q = 0) \/
     (1 <= q_used q /\ 1 <= q_reset_in q <= W)).
Proof.
  intros Hlim Hpast. unfold get_remaining_quota. rewrite Hlim. cbv zeta.
  set (key := user_id +:+ ":" +:+ operation) in *.
  set (kept := filter _ (read s key)).
  eexists. split; [done|]. cbn. split; [done|]. split; [done|].
  split; [lia|].
  destruct kept as [|oldest rest] eqn:Hk; [by left|]. right.
  assert (Hin : oldest ∈ kept) by (rewrite Hk; left).
  apply list_elem_of_filter in Hin as [Hcut Hin].
  rewrite Forall_forall in Hpast. apply Hpast in Hin.
  cbn [length]. split; [lia|].
  unfold seconds, timedelta_seconds in *.
  assert (0 <= now - oldest < W * 1000000) by lia.
  assert (0 <= ((now - oldest) mod 86400000000) <= now - oldest).
  { split; [apply Z.mod_pos_bound; lia|apply Z.mod_le; lia]. }
  assert (0 <= (now - oldest) mod 86400000000 / 1000000 < W).
  { split; [apply Z.div_pos; lia|]. apply Z.div_lt_upper_bound; lia. }
  lia.
Qed.

Lemma quota_admits_request_voice :
  (check_rate_limit (get_remaining_quota RateLimiter "u" "voice" 0).2
     "u" "voice" 5 (tick 1)).1 = Ok (true, None).
Proof.
  apply (quota_admits_request RateLimiter "u" "voice" 0 5 (tick 1)
           {| q_limit := 5; q_used := 0; q_remaining := 5; q_reset_in := 0;
              q_window_seconds := 60 |}).
  - reflexivity.
  - vm_compute. reflexivity.
  - simpl. lia.
Defined.

Lemma manual_block_refuses_everything_run :
  check_rate_limit (add_to_blacklist RateLimiter "u" 5 "abuse" 0)
    "u" "chat" 1 (tick 10)
  = (Ok (false,
         Some "Temporarily blocked: abuse. Retry after 290s"%string),
     add_to_blacklist RateLimiter "u" 5 "abuse" 0).
Proof.
  apply (manual_block_refuses_everything RateLimiter "u" 5 "abuse" 0
           "chat" 1 (tick 10)).
  vm_compute. reflexivity.
Defined.

Lemma expired_block_is_lifted_run :
  (remove_from_blacklist (add_to_blacklist RateLimiter "u" 5 "abuse" 0)
     "u").1 = true /\
  check_rate_limit (add_to_blacklist RateLimiter "u" 5 "abuse" 0)
    "u" "chat" 1 (tick 300)
  = check_rate_limit
      (remove_from_blacklist (add_to_blacklist RateLimiter "u" 5 "abuse" 0)
         "u").2
      "u" "chat" 1 (tick 300).
Proof.
  apply (expired_block_is_lifted (add_to_blacklist RateLimiter "u" 5 "abuse" 0)
           "u" "chat" 1 (tick 300) 300000000 "abuse").
  - reflexivity.
  - vm_compute. discriminate.
Defined.

Definition full_voice_window : limiter :=
  (calls RateLimiter "u" "voice" (map tick [1; 2; 3; 4; 5])).2.

Lemma five_violations_block_user_voice :
  blacklist
    (check_rate_limit
       (calls full_voice_window "u" "voice" (map tick [6; 7; 8; 9])).2
       "u" "voice" 1 (tick 10)).2 !! "u"%string
  = Some (timedelta_seconds 10 + timedelta_minutes 30,
          "Excessive rate limit violations (5 times)"%string).
Proof.
  refine (proj2 (proj2
    (five_violations_block_user full_voice_window "u" "voice" 5 60
       6000000 10000000 (map tick [6; 7; 8; 9]) (tick 10)
       _ _ _ _ _ _ _ _ _))).
  - discriminate.
  - reflexivity.
  - vm_compute. reflexivity.
  - vm_compute. discriminate.
  - vm_compute. discriminate.
  - vm_compute. reflexivity.
  - reflexivity.
  - vm_compute. reflexivity.
  - repeat constructor; vm_compute; try discriminate; reflexivity.
Defined.

Lemma reset_user_limits_clears_usage_voice :
  (get_remaining_quota (reset_user_limits full_voice_window "u")
     "u" "voice" 6000000).1
  = Ok {| q_limit := 5; q_used := 0; q_remaining := 5; q_reset_in := 0;
          q_window_seconds := 60 |}.
Proof.
  refine (proj1 (reset_user_limits_clears_usage full_voice_window
                   "u" "voice" 5 60 6000000 _)).
  vm_compute. reflexivity.
Defined.

Lemma remaining_quota_bounds_voice :
  exists q,
    (get_remaining_quota full_voice_window "u" "voice" 6000000).1 = Ok q /\
    q_limit q = 5 /\ q_window_seconds q = 60 /\
    q_used q + q_remaining q = Z.max 5 (q_used q) /\
    ((q_used q = 0 /\ q_reset_in q = 0) \/
     (1 <= q_used q /\ 1 <= q_reset_in q <= 60)).
Proof.
  apply (remaining_quota_bounds full_voice_window "u" "voice" 5 60 6000000).
  - vm_compute. reflexivity.
  - repeat constructor; vm_compute; discriminate.
Defined.

End RateLimit.

(** ** The error sanitizer: [sanitize_error_message] in [main.py]

    A message is a Python [str]; the model takes the strings whose code
    points are below 256, one [ascii] per code point. *)

Module Sanitizer.

Open Scope string_scope.

Definition code (c : ascii) : N := N_of_ascii c.

(** [c.lower()] on one character: A-Z and the capital letters of Latin-1
    (U+00C0 to U+00DE without the multiplication sign) move up by 32. *)
Definition lower_char (c : ascii) : ascii :=
  let n := code c in
  if ((65 <=? n) && (n <=? 90))%N ||
     ((192 <=? n) && (n <=? 222) && negb (n =? 215))%N
  then ascii_of_N (n + 32)
  else c.

(** [s.lower()]. *)
Fixpoint lower (s : string) : string :=
  match s with
  | "" => ""
  | String c t => String (lower_char c) (lower t)
  end.

(** The characters [\s] matches in a [str] pattern. *)
Definition is_space (c : ascii) : bool :=
  let n := code c in
  (((9 <=? n) && (n <=? 13)) || ((28 <=? n) && (n <=? 32)) ||
   (n =? 133) || (n =? 160))%N.

(** [needle in haystack]. *)
Fixpoint contains (needle haystack : string) : bool :=
  String.prefix needle haystack ||
  match haystack with
  | "" => false
  | String _ t => contains needle t
  end.

(** The number of leading characters of [s] that satisfy [p]. *)
Fixpoint span (p : ascii -> bool) (s : string) : nat :=
  match s with
  | "" => 0
  | String c t => if p c then S (span p t) else 0
  end.

(** [s[n:]]. *)
Fixpoint skip (n : nat) (s : string) : string :=
  match n, s with
  | S n', String _ t => skip n' t
  | _, _ => s
  end.

(** *** Regular expressions

    A pattern is read as a function giving, for a string, the length of the
    match that starts the string, if there is one.  Each construct takes the
    pattern that follows it as its continuation. *)
Definition matcher : Type := string -> option nat.

(** [[^\s]+] and [\S+] at the end of a pattern: the longest run, of at
    least one character. *)
Definition nonblanks : matcher := fun s =>
  match span (fun c => negb (is_space c)) s with
  | O => None
  | S k => Some (S k)
  end.

(** [\s*]: the longest run of blanks.  (A shorter run need not be tried:
    what follows here starts with a character that is not blank.) *)
Definition blanks (k : matcher) : matcher := fun s =>
  let b := span is_space s in
  (fun n => (b + n)%nat) <$> k (skip b s).

(** A literal. *)
Fixpoint lit (w : string) (k : matcher) : matcher := fun s =>
  match w with
  | "" => k s
  | String a w' =>
      match s with
      | String c s' => if Ascii.eqb a c then S <$> lit w' k s' else None
      | "" => None
      end
  end.

(** A literal of lower-case letters under [re.IGNORECASE]. *)
Fixpoint ilit (w : string) (k : matcher) : matcher := fun s =>
  match w with
  | "" => k s
  | String a w' =>
      match s with
      | String c s' =>
          if Ascii.eqb a (lower_char c) then S <$> ilit w' k s' else None
      | "" => None
      end
  end.

(** A character class [[...]]. *)
Definition one_of (cs : list ascii) (k : matcher) : matcher := fun s =>
  match s with
  | String c s' => if existsb (Ascii.eqb c) cs then S <$> k s' else None
  | "" => None
  end.

(** [p?]: with [p] first, without it if that fails. *)
Definition optional (p : matcher -> matcher) (k : matcher) : matcher :=
  fun s =>
    match p k s with
    | Some n => Some n
    | None => k s
    end.

(** [https?://[^\s]+]. *)
Definition match_url : matcher :=
  lit "http" (optional (lit "s") (lit "://" nonblanks)).

(** [api[_-]?key[=:]\s*\S+] with [flags=re.IGNORECASE]. *)
Definition match_api_key : matcher :=
  ilit "api"
    (optional (one_of ["_"; "-"]%char)
       (ilit "key" (one_of ["="; ":"]%char (blanks nonblanks)))).

(** [sk-[^\s]+]. *)
Definition match_sk : matcher := lit "sk-" nonblanks.

(** [re.sub(pattern, repl, s)] for a pattern that matches no empty string:
    [m] gives the match at the start of a string.  The scan goes left to
    right; [pending] characters of the match being replaced are still to
    be dropped. *)
Fixpoint sub_from (m : matcher) (repl : string)
    (pending : nat) (s : string) : string :=
  match s with
  | "" => ""
  | String c t =>
      match pending with
      | S n => sub_from m repl n t
      | O =>
          match m s with
          | Some (S n) => repl +:+ sub_from m repl n t
          | _ => String c (sub_from m repl 0 t)
          end
      end
  end.

Definition re_sub (m : matcher) (repl s : string) : string :=
  sub_from m repl 0 s.

Definition SENSITIVE_SERVICES : list string :=
  ["gemini"; "Gemini"; "GEMINI";
   "google"; "Google"; "GOOGLE";
   "jina"; "Jina"; "JINA";
   "voyage"; "Voyage"; "VOYAGE";
   "bge"; "BGE";
   "cohere"; "Cohere"; "COHERE";
   "openai"; "OpenAI"; "OPENAI";
   "anthropic"; "Anthropic"; "ANTHROPIC";
   "claude"; "Claude"; "CLAUDE"].

Definition internal_error : string :=
  "An internal error occurred. Please try again.".

(** [sanitize_error_message]. *)
Definition sanitize_error_message (error_msg : string) : string :=
  match error_msg with
  | "" => internal_error
  | _ =>
      let error_lower := lower error_msg in
      if existsb (fun service => contains (lower service) error_lower)
           SENSITIVE_SERVICES
      then internal_error
      else
        let m1 := re_sub match_url "[URL_REMOVED]" error_msg in
        let m2 := re_sub match_api_key "[API_KEY_REMOVED]" m1 in
        let m3 := re_sub match_sk "[API_KEY_REMOVED]" m2 in
        if (200 <? String.length m3)%nat ||
           existsb (fun keyword => contains keyword error_lower)
             ["traceback"; "stack"; "exception"; "raise"]
        then internal_error
        else m3
  end.

(** Some position of [s] starts a match of [m]. *)
Fixpoint has_match (m : matcher) (s : string) : bool :=
  match s with
  | "" => false
  | String _ t =>
      match m s with
      | Some _ => true
      | None => has_match m t
      end
  end.

(** Whether a pattern matched. *)
Definition found (o : option nat) : bool :=
  match o with
  | Some _ => true
  | None => false
  end.

(** The character [a] does not occur in [w]. *)
Fixpoint free_of (a : ascii) (w : string) : bool :=
  match w with
  | "" => true
  | String b w' => negb (Ascii.eqb b a) && free_of a w'
  end.

(** [s] starts with a literal of [L] followed by a character that is not
    blank; [has_hit]: some position of [s] does. *)
Definition hit (L : list string) (s : string) : bool :=
  existsb (fun w => found (lit w nonblanks s)) L.

Fixpoint has_hit (L : list string) (s : string) : bool :=
  match s with
  | "" => false
  | String _ t => hit L s || has_hit L t
  end.

(** [w] starts with [r] (or is empty). *)
Definition starts_with (r : ascii) (w : string) : bool :=
  match w with
  | String a _ => Ascii.eqb a r
  | "" => true
  end.

(** No literal of [L] starts with a character of [R]. *)
Fixpoint avoids (L : list string) (R : string) : bool :=
  match R with
  | "" => true
  | String r R' => forallb (fun w => negb (starts_with r w)) L && avoids L R'
  end.

(** The literals that open a match of [match_url] and of [match_sk]. *)
Definition url_literals : list string := ["https://"; "http://"].
Definition sk_literals : list string := ["sk-"].

(** *** Properties *)

Lemma found_fmap (f : nat -> nat) (o : option nat) : found (f <$> o) = found o.
Proof. by destruct o. Qed.

Lemma found_nonblanks (s : string) :
  found (nonblanks s) =
  match s with
  | String c _ => negb (is_space c)
  | "" => false
  end.
Proof. destruct s as [|c t]; [done|]. unfold nonblanks. simpl. by destruct (is_space c). Qed.

Lemma append_cons (c : ascii) (a b : string) :
  String c a +:+ b = String c (a +:+ b).
Proof. reflexivity. Qed.

Lemma append_nil (b : string) : "" +:+ b = b.
Proof. reflexivity. Qed.

Lemma lower_app (a b : string) : lower (a +:+ b) = lower a +:+ lower b.
Proof. induction a as [|c a IH]; simpl; [done|]. by rewrite IH. Qed.

Section Substitution.

Context (m : matcher) (inner : string).

Let repl : string := String "[" (inner +:+ "]").

Hypothesis m_nonblank : forall s n, m s = Some n ->
  match s with
  | String c _ => is_space c = false
  | "" => False
  end.

Lemma sub_from_keep (c : ascii) (t : string) :
  (forall n, m (String c t) <> Some (S n)) ->
  sub_from m repl 0 (String c t) = String c (sub_from m repl 0 t).
Proof.
  intros Hm. simpl. destruct (m (String c t)) as [[|n]|] eqn:E; try done.
  by destruct (Hm n).
Qed.

Lemma lit_sub (w s : string) :
  free_of "[" w = true ->
  found (lit w nonblanks (sub_from m repl 0 s)) = true ->
  found (lit w nonblanks s) = true.
Proof.
  revert s. induction w as [|a w IH]; intros s Hw.
  - simpl. rewrite !found_nonblanks. destruct s as [|c t]; [done|]. simpl.
    destruct (m (String c t)) as [[|n]|] eqn:E; simpl; try done.
    intros _. apply m_nonblank in E. by rewrite E.
  - simpl in Hw. apply andb_prop in Hw as [Ha Hw].
    destruct s as [|c t]; [done|]. simpl.
    destruct (m (String c t)) as [[|n]|] eqn:E; simpl.
    + destruct (Ascii.eqb a c); [|done]. rewrite !found_fmap. by apply IH.
    + apply negb_true_iff in Ha. rewrite Ha. done.
    + destruct (Ascii.eqb a c); [|done]. rewrite !found_fmap. by apply IH.
Qed.

Lemma hit_sub (L : list string) (s : string) :
  forallb (free_of "[") L = true ->
  hit L (sub_from m repl 0 s) = true -> hit L s = true.
Proof.
  intros HL. unfold hit. rewrite !existsb_exists.
  intros (w & Hw & Hf). exists w. split; [done|].
  apply lit_sub; [|done]. rewrite forallb_forall in HL. by apply HL.
Qed.

Lemma hit_avoided (L : list string) (r : ascii) (Y : string) :
  forallb (fun w => negb (starts_with r w)) L = true ->
  forallb (fun w => negb (String.eqb w "")) L = true ->
  hit L (String r Y) = false.
Proof.
  intros Hr Hne. unfold hit. apply not_true_is_false. rewrite existsb_exists.
  intros (w & Hw & Hf). rewrite forallb_forall in Hr, Hne.
  specialize (Hr w Hw). specialize (Hne w Hw).
  destruct w as [|a w]; [done|]. simpl in *.
  apply negb_true_iff in Hr. by rewrite Hr in Hf.
Qed.

Lemma has_hit_app (L : list string) (R Y : string) :
  avoids L R = true ->
  forallb (fun w => negb (String.eqb w "")) L = true ->
  has_hit L (R +:+ Y) = has_hit L Y.
Proof.
  intros HR Hne. induction R as [|r R IH]; [done|].
  simpl in HR. apply andb_prop in HR as [Hr HR].
  simpl. rewrite IH by done.
  by rewrite (hit_avoided L r (R +:+ Y)).
Qed.

Section Literals.

Context (L : list string).
Hypothesis L_free : forallb (free_of "[") L = true.
Hypothesis L_nonempty : forallb (fun w => negb (String.eqb w "")) L = true.
Hypothesis L_avoids : avoids L repl = true.

(** Replacing the matches of [m] creates no occurrence of a literal of [L]
    followed by a character that is not blank. *)
Lemma has_hit_sub (k : nat) (s : string) :
  has_hit L (sub_from m repl k s) = true -> has_hit L s = true.
Proof.
  revert k. induction s as [|c t IH]; intros k; [done|].
  destruct k as [|k].
  - destruct (m (String c t)) as [[|n]|] eqn:E.
    + rewrite sub_from_keep by (intros n; by rewrite E).
      simpl. rewrite <- (sub_from_keep c t) by (intros n; by rewrite E).
      intros [Hh|Hh]%orb_prop.
      * by rewrite (hit_sub L _ L_free Hh).
      * rewrite (IH 0%nat Hh). apply orb_true_r.
    + simpl. rewrite E. fold repl. rewrite has_hit_app by done.
      intros Hh. rewrite (IH n Hh). apply orb_true_r.
    + rewrite sub_from_keep by (intros n; by rewrite E).
      simpl. rewrite <- (sub_from_keep c t) by (intros n; by rewrite E).
      intros [Hh|Hh]%orb_prop.
      * by rewrite (hit_sub L _ L_free Hh).
      * rewrite (IH 0%nat Hh). apply orb_true_r.
  - simpl. intros Hh. rewrite (IH k Hh). apply orb_true_r.
Qed.

(** When [m] matches wherever a literal of [L] occurs before a character
    that is not blank, nothing of the kind is left. *)
Lemma has_hit_sub_own (k : nat) (s : string) :
  (forall s, hit L s = true -> exists n, m s = Some (S n)) ->
  has_hit L (sub_from m repl k s) = false.
Proof.
  intros Hm. revert k. induction s as [|c t IH]; intros k; [done|].
  destruct k as [|k]; [|apply IH].
  destruct (m (String c t)) as [[|n]|] eqn:E.
  - rewrite sub_from_keep by (intros n; by rewrite E).
    simpl. rewrite IH, orb_false_r.
    rewrite <- (sub_from_keep c t) by (intros n; by rewrite E).
    apply not_true_is_false. intros Hh.
    apply hit_sub in Hh; [|done]. apply Hm in Hh as [n Hn]. congruence.
  - simpl. rewrite E. fold repl. rewrite has_hit_app by done. apply IH.
  - rewrite sub_from_keep by (intros n; by rewrite E).
    simpl. rewrite IH, orb_false_r.
    rewrite <- (sub_from_keep c t) by (intros n; by rewrite E).
    apply not_true_is_false. intros Hh.
    apply hit_sub in Hh; [|done]. apply Hm in Hh as [n Hn]. congruence.
Qed.

End Literals.


(** A word without brackets that occurs, up to letter case, after the
    replacement already occurred before it. *)
Lemma prefix_cons (a b : ascii) (w s : string) :
  String.prefix (String a w) (String b s)
  = Ascii.eqb a b && String.prefix w s.
Proof.
  simpl. destruct (ascii_dec a b) as [->|Hne].
  - by rewrite Ascii.eqb_refl.
  - apply Ascii.eqb_neq in Hne. by rewrite Hne.
Qed.

Lemma prefix_sub_lower (w s : string) :
  free_of "[" w = true ->
  String.prefix w (lower (sub_from m repl 0 s)) = true ->
  String.prefix w (lower s) = true.
Proof.
  revert s. induction w as [|a w IH]; intros s Hw;
    [by destruct (lower s)|].
  simpl in Hw. apply andb_prop in Hw as [Ha Hw].
  destruct s as [|c t]; [done|].
  destruct (m (String c t)) as [[|n]|] eqn:E.
  - rewrite sub_from_keep by (intros n; by rewrite E).
    cbn [lower]. rewrite !prefix_cons.
    intros [-> Hp]%andb_prop. by rewrite (IH t Hw Hp).
  - cbn [sub_from]. rewrite E. unfold repl. rewrite append_cons.
    cbn [lower]. rewrite !prefix_cons. apply negb_true_iff in Ha.
    change (lower_char "[") with "["%char. by rewrite Ha.
  - rewrite sub_from_keep by (intros n; by rewrite E).
    cbn [lower]. rewrite !prefix_cons.
    intros [-> Hp]%andb_prop. by rewrite (IH t Hw Hp).
Qed.

Lemma prefix_stop (w u Y : string) :
  free_of "]" w = true ->
  String.prefix w (u +:+ String "]" Y) = true -> String.prefix w u = true.
Proof.
  revert u. induction w as [|a w IH]; intros u Hw; [by destruct u|].
  simpl in Hw. apply andb_prop in Hw as [Ha Hw].
  apply negb_true_iff in Ha.
  destruct u as [|r u].
  - rewrite append_nil, prefix_cons. by rewrite Ha.
  - rewrite append_cons, !prefix_cons.
    intros [-> Hp]%andb_prop. by rewrite (IH u Hw Hp).
Qed.

Lemma contains_cons (w : string) (c : ascii) (s : string) :
  contains w (String c s) = String.prefix w (String c s) || contains w s.
Proof. done. Qed.

Lemma contains_app_close (w u Y : string) :
  free_of "]" w = true -> w <> "" ->
  contains w (u +:+ String "]" Y) = true ->
  contains w u = true \/ contains w Y = true.
Proof.
  intros Hw Hne. induction u as [|r u IH].
  - rewrite append_nil, contains_cons. intros [Hp|Hc]%orb_prop; [|by right].
    destruct w as [|a w]; [done|]. rewrite prefix_cons in Hp.
    simpl in Hw. apply andb_prop in Hw as [Ha _].
    apply negb_true_iff in Ha. by rewrite Ha in Hp.
  - rewrite append_cons, !contains_cons. intros [Hp|Hc]%orb_prop.
    + left. rewrite <- append_cons in Hp.
      by rewrite (prefix_stop _ _ _ Hw Hp).
    + destruct (IH Hc) as [Hu|HY]; [left|by right].
      rewrite Hu. apply orb_true_r.
Qed.


Lemma append_assoc (a b c : string) : (a +:+ b) +:+ c = a +:+ (b +:+ c).
Proof. induction a as [|x a IH]; [done|]. by rewrite !append_cons, IH. Qed.

Lemma lower_repl_app (X : string) :
  lower (repl +:+ X) = lower (String "[" inner) +:+ String "]" (lower X).
Proof.
  unfold repl. rewrite !append_cons. cbn [lower]. f_equal.
  by rewrite append_assoc, lower_app.
Qed.

Lemma contains_prefix (w s : string) :
  String.prefix w s = true -> contains w s = true.
Proof.
  intros Hp. destruct s as [|c s].
  - by destruct w.
  - by rewrite contains_cons, Hp.
Qed.

(** Replacing the matches of [m] brings in no word that has no bracket
    and does not occur in the replacement. *)
Lemma contains_sub_lower (w : string) (k : nat) (s : string) :
  free_of "[" w = true -> free_of "]" w = true -> w <> "" ->
  contains w (lower (String "[" inner)) = false ->
  contains w (lower (sub_from m repl k s)) = true ->
  contains w (lower s) = true.
Proof.
  intros Hopen Hclose Hne Hrepl. revert k.
  induction s as [|c t IH]; intros k.
  { simpl. by destruct w. }
  destruct k as [|k].
  - destruct (m (String c t)) as [[|n]|] eqn:E.
    + rewrite sub_from_keep by (intros n; by rewrite E).
      cbn [lower]. rewrite contains_cons.
      intros [Hp|Hc]%orb_prop.
      * apply contains_prefix.
        apply (prefix_sub_lower w (String c t) Hopen).
        by rewrite sub_from_keep by (intros n; by rewrite E).
      * rewrite contains_cons, (IH 0%nat Hc). apply orb_true_r.
    + cbn [sub_from]. rewrite E. fold repl. rewrite lower_repl_app.
      intros [Hu|HY]%contains_app_close; [congruence| |done|done].
      cbn [lower]. rewrite contains_cons, (IH n HY). apply orb_true_r.
    + rewrite sub_from_keep by (intros n; by rewrite E).
      cbn [lower]. rewrite contains_cons.
      intros [Hp|Hc]%orb_prop.
      * apply contains_prefix.
        apply (prefix_sub_lower w (String c t) Hopen).
        by rewrite sub_from_keep by (intros n; by rewrite E).
      * rewrite contains_cons, (IH 0%nat Hc). apply orb_true_r.
  - cbn [sub_from lower]. intros Hc.
    rewrite contains_cons, (IH k Hc). apply orb_true_r.
Qed.

Lemma sub_from_nonempty (s : string) : s <> "" -> sub_from m repl 0 s <> "".
Proof.
  destruct s as [|c t]; [done|]. intros _. simpl.
  by destruct (m (String c t)) as [[|n]|].
Qed.

End Substitution.

(** *** The three patterns *)

Lemma lit_head (a : ascii) (w : string) (k : matcher) (s : string) (n : nat) :
  lit (String a w) k s = Some n ->
  exists t n', s = String a t /\ n = S n'.
Proof.
  destruct s as [|c t]; simpl; [done|].
  destruct (Ascii.eqb_spec a c) as [<-|]; [|done].
  destruct (lit w k t) as [n'|]; simpl; [|done].
  intros [= <-]. by exists t, n'.
Qed.

Lemma api_head_nonblank (c : ascii) :
  Ascii.eqb "a" (lower_char c) = true -> is_space c = false.
Proof.
  destruct c as [[] [] [] [] [] [] [] []]; vm_compute; congruence.
Qed.

Lemma match_url_nonblank (s : string) (n : nat) :
  match_url s = Some n ->
  match s with String c _ => is_space c = false | "" => False end.
Proof. intros (t & n' & -> & _)%lit_head. reflexivity. Qed.

Lemma match_sk_nonblank (s : string) (n : nat) :
  match_sk s = Some n ->
  match s with String c _ => is_space c = false | "" => False end.
Proof. intros (t & n' & -> & _)%lit_head. reflexivity. Qed.

Lemma match_api_key_nonblank (s : string) (n : nat) :
  match_api_key s = Some n ->
  match s with String c _ => is_space c = false | "" => False end.
Proof.
  destruct s as [|c t]; [done|]. unfold match_api_key. cbn [ilit].
  destruct (Ascii.eqb "a" (lower_char c)) eqn:E; [|done].
  intros _. by apply api_head_nonblank.
Qed.

Lemma found_lit_alt (w : string) (a b : matcher) (s : string) :
  found (lit w (fun s => match a s with Some n => Some n | None => b s end) s)
  = found (lit w a s) || found (lit w b s).
Proof.
  revert s. induction w as [|x w IH]; intros s; simpl.
  - by destruct (a s).
  - destruct s as [|c t]; [done|]. destruct (Ascii.eqb x c); [|done].
    by rewrite !found_fmap.
Qed.

Lemma found_match_url (s : string) :
  found (match_url s) = hit url_literals s.
Proof.
  unfold match_url, optional, hit, url_literals. rewrite found_lit_alt.
  simpl existsb. by rewrite orb_false_r.
Qed.

Lemma found_match_sk (s : string) : found (match_sk s) = hit sk_literals s.
Proof. unfold hit, sk_literals. simpl existsb. by rewrite orb_false_r. Qed.

Lemma has_match_hits (m : matcher) (L : list string) (s : string) :
  (forall s, found (m s) = hit L s) -> has_match m s = has_hit L s.
Proof.
  intros Hm. induction s as [|c t IH]; [done|].
  simpl. rewrite <- Hm, IH. by destruct (m (String c t)).
Qed.

Lemma hit_gives_match (m : matcher) (L : list string) (a : ascii) (w : string)
    (k : matcher) :
  (forall s, found (m s) = hit L s) ->
  (forall s, m s = lit (String a w) k s) ->
  forall s, hit L s = true -> exists n, m s = Some (S n).
Proof.
  intros Hm Hlit s Hh. rewrite <- Hm in Hh.
  destruct (m s) as [n|] eqn:E; [|done].
  rewrite Hlit in E. apply lit_head in E as (t & n' & _ & ->).
  by exists n'.
Qed.


Lemma brands_checked :
  Forall (fun service =>
            free_of "[" (lower service) = true /\
            free_of "]" (lower service) = true /\
            lower service <> "" /\
            contains (lower service) (lower "[URL_REMOVED") = false /\
            contains (lower service) (lower "[API_KEY_REMOVED") = false)
         SENSITIVE_SERVICES.
Proof. repeat constructor; try discriminate. Qed.

Lemma internal_error_clean :
  Forall (fun service => contains (lower service) (lower internal_error) = false)
         SENSITIVE_SERVICES /\
  has_match match_url internal_error = false /\
  has_match match_sk internal_error = false /\
  internal_error <> "".
Proof. split; [repeat constructor|]. repeat split. discriminate. Qed.

Lemma substitutions_clean (s : string) :
  s <> "" ->
  existsb (fun service => contains (lower service) (lower s))
    SENSITIVE_SERVICES = false ->
  let out := re_sub match_sk "[API_KEY_REMOVED]"
               (re_sub match_api_key "[API_KEY_REMOVED]"
                  (re_sub match_url "[URL_REMOVED]" s)) in
  Forall (fun service => contains (lower service) (lower out) = false)
         SENSITIVE_SERVICES /\
  has_match match_url out = false /\
  has_match match_sk out = false /\
  out <> "".
Proof.
  intros Hne Hbrand out. unfold out, re_sub. repeat split.
  - apply Forall_forall. intros service Hin.
    pose proof brands_checked as Hok. rewrite Forall_forall in Hok.
    destruct (Hok service Hin) as (Ho & Hc & Hw & Hu & Ha).
    apply not_true_is_false. intros Hin3.
    apply (contains_sub_lower match_sk "API_KEY_REMOVED") in Hin3; try done.
    apply (contains_sub_lower match_api_key "API_KEY_REMOVED") in Hin3;
      try done.
    apply (contains_sub_lower match_url "URL_REMOVED") in Hin3; try done.
    assert (Hex : existsb (fun service => contains (lower service) (lower s))
                    SENSITIVE_SERVICES = true).
    { apply existsb_exists. exists service. split; [|done].
      by apply list_elem_of_In. }
    congruence.
  - rewrite (has_match_hits match_url url_literals) by apply found_match_url.
    apply not_true_is_false. intros Hh.
    apply (has_hit_sub match_sk "API_KEY_REMOVED" match_sk_nonblank
             url_literals) in Hh; try done.
    apply (has_hit_sub match_api_key "API_KEY_REMOVED" match_api_key_nonblank
             url_literals) in Hh; try done.
    rewrite (has_hit_sub_own match_url "URL_REMOVED" match_url_nonblank
               url_literals) in Hh; try done.
    apply (hit_gives_match match_url url_literals "h" "ttp"
             (optional (lit "s") (lit "://" nonblanks))); [|done].
    apply found_match_url.
  - rewrite (has_match_hits match_sk sk_literals) by apply found_match_sk.
    apply (has_hit_sub_own match_sk "API_KEY_REMOVED" match_sk_nonblank
             sk_literals); try done.
    apply (hit_gives_match match_sk sk_literals "s" "k-" nonblanks); [|done].
    apply found_match_sk.
  - apply (sub_from_nonempty match_sk "API_KEY_REMOVED").
    apply (sub_from_nonempty match_api_key "API_KEY_REMOVED").
    by apply (sub_from_nonempty match_url "URL_REMOVED").
Qed.


(** A message that is only a URL becomes the placeholder, not the generic
    message. *)
Lemma sanitizer_url_only :
  sanitize_error_message "https://internal.example/v1" = "[URL_REMOVED]".
Proof. vm_compute. reflexivity. Qed.


End Sanitizer.

(** ** The query cache: [app/core/cache.py]

    [CacheManager] as it runs without a Redis server, and the decorator
    [cached]. *)

(** A Python [dict] with string keys, in insertion order. *)
Module Dict.

Section Dict.

Context {A : Type}.

Definition keys (d : list (string * A)) : list string := fst <$> d.

(** [d.get(k)]; [k in d] is [is_Some] of it. *)
Fixpoint get (d : list (string * A)) (k : string) : option A :=
  match d with
  | [] => None
  | (k', v) :: d' => if String.eqb k' k then Some v else get d' k
  end.

(** [d[k] = v]: a key already present keeps its place. *)
Fixpoint set (d : list (string * A)) (k : string) (v : A)
    : list (string * A) :=
  match d with
  | [] => [(k, v)]
  | (k', v') :: d' =>
      if String.eqb k' k then (k', v) :: d' else (k', v') :: set d' k v
  end.

(** [d.pop(k, None)], and [del d[k]] for a key that is present. *)
Definition pop (d : list (string * A)) (k : string) : list (string * A) :=
  filter (fun kv => kv.1 <> k) d.

End Dict.

End Dict.

Module Cache.

Section Manager.

(** The cached values (anything but [None]). *)
Context {V : Type}.

(** A [CacheManager] without Redis ([get_redis_client()] gave [None]). *)
Record cache_manager : Type := {
  memory_cache : list (string * V);
  memory_cache_ttl : list (string * float);
  max_memory_items : Z
}.

(** [CacheManager()]. *)
Definition CacheManager : cache_manager :=
  {| memory_cache := []; memory_cache_ttl := []; max_memory_items := 500 |}.

Definition forget (c : cache_manager) (k : string) : cache_manager :=
  {| memory_cache := Dict.pop (memory_cache c) k;
     memory_cache_ttl := Dict.pop (memory_cache_ttl c) k;
     max_memory_items := max_memory_items c |}.

(** [CacheManager.get]; [now] is the reading of [time.time()]. *)
Definition get (c : cache_manager) (key : string) (now : float)
    : option V * cache_manager :=
  match Dict.get (memory_cache c) key with
  | Some v =>
      match Dict.get (memory_cache_ttl c) key with
      | Some deadline =>
          if PrimFloat.ltb now deadline then (Some v, c)
          else (None, forget c key)
      | None => (Some v, c)
      end
  | None => (None, c)
  end.

(** [CacheManager.set]: a full cache first loses its 50 oldest keys. *)
Definition set (c : cache_manager) (key : string) (value : V) (ttl : Z)
    (now : float) : cache_manager :=
  let c1 :=
    if max_memory_items c <=? Z.of_nat (length (memory_cache c)) then
      foldl forget c (take 50 (Dict.keys (memory_cache c)))
    else c in
  {| memory_cache := Dict.set (memory_cache c1) key value;
     memory_cache_ttl :=
       Dict.set (memory_cache_ttl c1) key
         (PrimFloat.add now (float_of_int ttl));
     max_memory_items := max_memory_items c1 |}.

(** [CacheManager.delete]. *)
Definition delete (c : cache_manager) (key : string) : cache_manager :=
  forget c key.

(** The wrapper built by [@cached(ttl, key_prefix)], called with arguments
    that give the key [cache_key]; the wrapped function acts on a world
    [W] and may raise.  [t_get] and [t_set] are the clock readings of the
    lookup and of the store. *)
Definition cached {W : Type} (ttl : Z) (cache_key : string)
    (func : W -> res (option V) * W) (c : cache_manager) (w : W)
    (t_get t_set : float) : res (option V) * cache_manager * W :=
  let looked := get c cache_key t_get in
  match looked.1 with
  | Some v => (Ok (Some v), looked.2, w)
  | None =>
      let out := func w in
      match out.1 with
      | Ok (Some v) => (Ok (Some v), set looked.2 cache_key v ttl t_set, out.2)
      | r => (r, looked.2, out.2)
      end
  end.

(** The two dictionaries hold the same keys, each once. *)
Definition consistent (c : cache_manager) : Prop :=
  NoDup (Dict.keys (memory_cache c)) /\
  Dict.keys (memory_cache_ttl c) = Dict.keys (memory_cache c).

Inductive op : Type :=
  | Lookup (key : string) (now : float)
  | Store (key : string) (value : V) (ttl : Z) (now : float)
  | Remove (key : string).

Definition step (c : cache_manager) (o : op) : cache_manager :=
  match o with
  | Lookup k now => (get c k now).2
  | Store k v ttl now => set c k v ttl now
  | Remove k => delete c k
  end.

End Manager.

Arguments cache_manager V : clear implicits.
Arguments op V : clear implicits.

(** *** Properties *)

Section DictFacts.

Context {A : Type}.

Implicit Types d : list (string * A).

Lemma get_set_eq d k v : Dict.get (Dict.set d k v) k = Some v.
Proof.
  induction d as [|[k' v'] d IH]; simpl.
  - by rewrite String.eqb_refl.
  - destruct (String.eqb k' k) eqn:E; simpl; by rewrite E.
Qed.

Lemma get_set_ne d k k' v :
  k' <> k -> Dict.get (Dict.set d k v) k' = Dict.get d k'.
Proof.
  intros Hne. induction d as [|[k0 v0] d IH]; simpl.
  - destruct (String.eqb_spec k k'); [congruence|done].
  - destruct (String.eqb_spec k0 k) as [->|]; simpl.
    + destruct (String.eqb_spec k k'); [congruence|done].
    + by rewrite IH.
Qed.

Lemma get_None d k : Dict.get d k = None <-> k ∉ Dict.keys d.
Proof.
  induction d as [|[k' v'] d IH]; simpl.
  - split; [intros _; apply not_elem_of_nil|done].
  - destruct (String.eqb_spec k' k) as [->|Hne].
    + split; [done|]. intros H. exfalso. apply H. left.
    + rewrite IH, not_elem_of_cons. split; [by split|by intros [_ ?]].
Qed.

Lemma get_pop_eq d k : Dict.get (Dict.pop d k) k = None.
Proof.
  apply get_None. unfold Dict.keys, Dict.pop.
  intros (kv & -> & Hin)%list_elem_of_fmap.
  by apply list_elem_of_filter in Hin as [? _].
Qed.

Lemma keys_pop d k : Dict.keys (Dict.pop d k) = filter (.≠ k) (Dict.keys d).
Proof.
  unfold Dict.keys, Dict.pop. induction d as [|[k' v'] d IH]; [done|].
  rewrite fmap_cons, !filter_cons. cbn [fst].
  destruct (decide (k' ≠ k)); by rewrite ?fmap_cons, IH.
Qed.

Lemma keys_set d k v :
  Dict.keys (Dict.set d k v)
  = if bool_decide (k ∈ Dict.keys d) then Dict.keys d else Dict.keys d ++ [k].
Proof.
  unfold Dict.keys. induction d as [|[k' v'] d IH]; [done|].
  cbn [Dict.set]. rewrite fmap_cons. cbn [fst].
  destruct (String.eqb_spec k' k) as [->|Hne]; rewrite fmap_cons; cbn [fst].
  - rewrite bool_decide_eq_true_2 by left. done.
  - rewrite IH. destruct (decide (k ∈ fst <$> d)) as [Hin|Hin].
    + rewrite !bool_decide_eq_true_2; [done|by right|done].
    + rewrite !bool_decide_eq_false_2; [done| |done].
      rewrite not_elem_of_cons. split; [congruence|done].
Qed.

Lemma pop_absent d k : k ∉ Dict.keys d -> Dict.pop d k = d.
Proof.
  intros Hk. unfold Dict.pop. apply RateLimit.filter_all. apply Forall_forall.
  intros kv Hin Heq. apply Hk. unfold Dict.keys. apply list_elem_of_fmap.
  by exists kv.
Qed.

End DictFacts.

Section ManagerFacts.

Context {V : Type}.

Implicit Types c : cache_manager V.

Lemma foldl_pop_take {A : Type} (d : list (string * A)) (n : nat) :
  NoDup (Dict.keys d) ->
  foldl Dict.pop d (take n (Dict.keys d)) = drop n d.
Proof.
  revert n. induction d as [|[k v] d IH]; intros n Hnd.
  { by destruct n. }
  destruct n as [|n]; [done|].
  unfold Dict.keys in *. rewrite fmap_cons in Hnd |- *.
  apply NoDup_cons in Hnd as [Hk Hnd]. cbn [fst take foldl drop].
  replace (Dict.pop ((k, v) :: d) k) with d; [by apply IH|].
  unfold Dict.pop. rewrite filter_cons_False by (simpl; tauto).
  symmetry. by apply pop_absent.
Qed.

Lemma foldl_forget c (ks : list string) :
  memory_cache (foldl forget c ks) = foldl Dict.pop (memory_cache c) ks /\
  memory_cache_ttl (foldl forget c ks)
  = foldl Dict.pop (memory_cache_ttl c) ks /\
  max_memory_items (foldl forget c ks) = max_memory_items c.
Proof.
  revert c. induction ks as [|k ks IH]; intros c; [done|].
  cbn [foldl]. destruct (IH (forget c k)) as (-> & -> & ->). done.
Qed.

Lemma forget_consistent c k : consistent c -> consistent (forget c k).
Proof.
  intros [Hnd Hk]. split; simpl.
  - rewrite keys_pop. by apply NoDup_filter.
  - by rewrite !keys_pop, Hk.
Qed.

Lemma evict_consistent c :
  consistent c ->
  let c1 := foldl forget c (take 50 (Dict.keys (memory_cache c))) in
  consistent c1 /\ memory_cache c1 = drop 50 (memory_cache c).
Proof.
  intros [Hnd Hk]. cbv zeta.
  destruct (foldl_forget c (take 50 (Dict.keys (memory_cache c))))
    as (Hm & Ht & _).
  rewrite foldl_pop_take in Hm by done.
  assert (Htt : foldl Dict.pop (memory_cache_ttl c)
                  (take 50 (Dict.keys (memory_cache c)))
                = drop 50 (memory_cache_ttl c)).
  { rewrite <- Hk. apply foldl_pop_take. by rewrite Hk. }
  rewrite Htt in Ht.
  split; [|done]. split.
  - rewrite Hm. unfold Dict.keys. rewrite fmap_drop.
    eapply sublist_NoDup; [exact Hnd|apply sublist_drop].
  - rewrite Hm, Ht. unfold Dict.keys in *. by rewrite !fmap_drop, Hk.
Qed.

Lemma set_dicts_consistent c key (v : V) (x : float) :
  consistent c ->
  consistent {| memory_cache := Dict.set (memory_cache c) key v;
                memory_cache_ttl := Dict.set (memory_cache_ttl c) key x;
                max_memory_items := max_memory_items c |}.
Proof.
  intros [Hnd Hk]. split; simpl.
  - rewrite keys_set. destruct (decide (key ∈ Dict.keys (memory_cache c))).
    + by rewrite bool_decide_eq_true_2.
    + rewrite bool_decide_eq_false_2 by done.
      apply NoDup_app. split; [done|]. split; [|apply NoDup_singleton].
      intros k Hin ->%list_elem_of_singleton. done.
  - by rewrite !keys_set, Hk.
Qed.

Lemma length_dict_set {A : Type} (d : list (string * A)) k v :
  (length (Dict.set d k v) <= length d + 1)%nat.
Proof.
  induction d as [|[k' v'] d IH]; simpl; [lia|].
  destruct (String.eqb k' k); simpl; lia.
Qed.

Lemma step_consistent c (o : op V) :
  consistent c -> 1 <= max_memory_items c ->
  Z.of_nat (length (memory_cache c)) <= max_memory_items c ->
  consistent (step c o) /\
  max_memory_items (step c o) = max_memory_items c /\
  Z.of_nat (length (memory_cache (step c o))) <= max_memory_items c.
Proof.
  intros Hc Hmax Hlen. destruct o as [k now|k v ttl now|k]; simpl.
  - unfold get. destruct (Dict.get (memory_cache c) k); [|done].
    destruct (Dict.get (memory_cache_ttl c) k); [|done].
    destruct (PrimFloat.ltb now f); [done|]. cbn [snd].
    split; [by apply forget_consistent|]. split; [done|]. simpl.
    pose proof (length_filter (fun kv : string * V => kv.1 <> k)
                  (memory_cache c)). unfold Dict.pop. lia.
  - unfold set.
    destruct (Z.leb_spec (max_memory_items c)
                (Z.of_nat (length (memory_cache c)))) as [Hfull|Hroom].
    + destruct (evict_consistent c Hc) as [Hc1 Hm1]. cbv zeta in Hc1, Hm1.
      destruct (foldl_forget c (take 50 (Dict.keys (memory_cache c))))
        as (_ & _ & Hmx).
      split; [by apply set_dicts_consistent|]. split; [done|]. simpl.
      pose proof (length_dict_set
        (memory_cache
           (foldl forget c (take 50 (Dict.keys (memory_cache c))))) k v) as Hs.
      rewrite Hm1 in Hs |- *. rewrite length_drop in Hs. lia.
    + split; [by apply set_dicts_consistent|]. split; [done|]. simpl.
      pose proof (length_dict_set (memory_cache c) k v). lia.
  - split; [by apply forget_consistent|]. split; [done|]. simpl.
    pose proof (length_filter (fun kv : string * V => kv.1 <> k)
                  (memory_cache c)). unfold Dict.pop. lia.
Qed.


Lemma get_set_fresh c (key : string) (v : V) (ttl : Z) (t_set t : float) :
  PrimFloat.ltb t (PrimFloat.add t_set (float_of_int ttl)) = true ->
  get (set c key v ttl t_set) key t = (Some v, set c key v ttl t_set).
Proof.
  intros Hfresh. unfold get. cbn [memory_cache memory_cache_ttl set].
  by rewrite !get_set_eq, Hfresh.
Qed.

Lemma cached_miss {W : Type} (ttl : Z) (cache_key : string)
    (func : W -> res (option V) * W) c (w : W) (t0 t1 : float) :
  (get c cache_key t0).1 = None ->
  cached ttl cache_key func c w t0 t1
  = match (func w).1 with
    | Ok (Some v) =>
        (Ok (Some v), set (get c cache_key t0).2 cache_key v ttl t1,
         (func w).2)
    | r => (r, (get c cache_key t0).2, (func w).2)
    end.
Proof. intros Hmiss. unfold cached. by rewrite Hmiss. Qed.

Lemma cached_hit {W : Type} (ttl : Z) (cache_key : string)
    (func : W -> res (option V) * W) c (w : W) (v : V) (t0 t1 : float) :
  get c cache_key t0 = (Some v, c) ->
  cached ttl cache_key func c w t0 t1 = (Ok (Some v), c, w).
Proof. intros Hhit. unfold cached. by rewrite Hhit. Qed.



End ManagerFacts.


End Cache.

Module CachedStore.

Import RelStore.

(** A row of [users]. *)
Record user : Type := {
  u_id : Z;
  username : string;
  email : string;
  hashed_password : string;
  u_created_at : Z;
  u_updated_at : Z
}.

(** What the decorated functions of [database.py] put in the cache. *)
Inductive value : Type :=
  | UserRow (u : user)
  | ConversationRow (c : conversation).

(** The body of a one-statement [with get_db_connection() as conn] block
    whose result is computed by [body]. *)
Definition with_connection {T A : Type} (pool : list connection) (f : fault)
    (body : T -> A * T) (t : T) : res A * T :=
  match pool, f with
  | [], _ | _, PoolExhausted => (Raise TimeoutError, t)
  | _, StatementRaises 0 | _, CommitRaises => (Raise DatabaseError, t)
  | _, _ => let r := body t in (Ok r.1, r.2)
  end.

(** [SELECT * FROM users WHERE username = ?] and [fetchone]. *)
Definition select_user (users : list user) (name : string) : option user :=
  head (filter (fun u => username u = name) users).

(** [get_user_by_username], under [@cached(ttl=600,
    key_prefix="user:username")]. *)
Definition get_user_by_username (pool : list connection) (f : fault)
    (c : Cache.cache_manager value) (users : list user) (name : string)
    (t_get t_set : float)
    : res (option value) * Cache.cache_manager value * list user :=
  Cache.cached 600 ("user:username:" +:+ name)
    (with_connection pool f
       (fun users => (UserRow <$> select_user users name, users)))
    c users t_get t_set.

(** [update_user_password]: [True] when a row was updated. *)
Definition update_user_password (pool : list connection) (f : fault)
    (users : list user) (mail hashed : string) (now : Z)
    : res bool * list user :=
  with_connection pool f
    (fun users =>
       (bool_decide (Exists (fun u => email u = mail) users),
        map (fun u =>
               if bool_decide (email u = mail) then
                 {| u_id := u_id u; username := username u; email := email u;
                    hashed_password := hashed; u_created_at := u_created_at u;
                    u_updated_at := now |}
               else u) users))
    users.

(** [get_conversation_by_id], under [@cached(ttl=300,
    key_prefix="conversation")]. *)
Definition get_conversation_by_id (pool : list connection) (f : fault)
    (c : Cache.cache_manager value) (db : database) (cid uid : Z)
    (t_get t_set : float)
    : res (option value) * Cache.cache_manager value * database :=
  Cache.cached 300
    ("conversation:" +:+ RateLimit.str cid +:+ ":" +:+ RateLimit.str uid)
    (with_connection pool f
       (fun db => (ConversationRow <$> RelStore.get_conversation_by_id db cid uid,
                   db)))
    c db t_get t_set.

(** [delete_conversation] with its cache invalidation: the two keys are
    dropped inside the block, before the commit. *)
Definition delete_conversation (pool : list connection) (f : fault)
    (c : Cache.cache_manager value) (now : Z) (db : database) (cid uid : Z)
    : res bool * Cache.cache_manager value * database :=
  let out := RelStore.delete_conversation pool f now db cid uid in
  let deleted :=
    match pool, f with
    | [], _ | _, PoolExhausted | _, StatementRaises 0 => false
    | conn :: _, _ =>
        match execute conn now (DELETE_conversation cid uid) (committed db) with
        | Ok (n, _) => 0 <? n
        | Raise _ => false
        end
    end in
  let c' :=
    if deleted then
      Cache.delete
        (Cache.delete c ("conversations:" +:+ RateLimit.str uid))
        ("conversation:" +:+ RateLimit.str cid +:+ ":" +:+ RateLimit.str uid)
    else c in
  (out.1, c', out.2).

(** *** Properties *)

Lemma select_user_elem (users : list user) (name : string) (u : user) :
  select_user users name = Some u -> u ∈ users /\ username u = name.
Proof.
  unfold select_user. intros [l Hl]%head_Some.
  assert (Hx : u ∈ filter (fun u0 => username u0 = name) users)
    by (rewrite Hl; left).
  apply list_elem_of_filter in Hx. tauto.
Qed.

(** X17.  [get_user_by_username] is cached for 600 seconds and
    [update_user_password] does not drop the entry: once the row of a user
    has been read through the cache (without Redis), a password update
    succeeds and changes the row in the table, and
    [get_user_by_username] called within the 600 seconds still returns the
    row with the old hash. *)
Theorem password_update_served_stale (pool : list connection)
    (c : Cache.cache_manager value) (users : list user) (name hashed : string)
    (u : user) (now : Z) (t0 t1 t2 t3 : float) :
  pool <> [] ->
  select_user users name = Some u ->
  (Cache.get c ("user:username:" +:+ name) t0).1 = None ->
  PrimFloat.ltb t2 (PrimFloat.add t1 (float_of_int 600)) = true ->
  let first := get_user_by_username pool NoFault c users name t0 t1 in
  let change :=
    update_user_password pool NoFault (first.2) (email u) hashed now in
  let second :=
    get_user_by_username pool NoFault (first.1.2) (change.2) name t2 t3 in
  first.1.1 = Ok (Some (UserRow u)) /\
  change.1 = Ok true /\
  select_user (change.2) name
  = Some {| u_id := u_id u; username := username u; email := email u;
            hashed_password := hashed; u_created_at := u_created_at u;
            u_updated_at := now |} /\
  second.1.1 = Ok (Some (UserRow u)).
Proof.
  intros Hpool Hu Hmiss Hfresh. cbv zeta.
  destruct pool as [|conn pool]; [done|].
  destruct (select_user_elem _ _ _ Hu) as [Hin Hname].
  unfold get_user_by_username.
  rewrite (Cache.cached_miss _ _ _ _ _ _ _ Hmiss).
  cbn [with_connection fst snd]. rewrite Hu. cbn [fmap option_fmap option_map fst snd].
  split; [done|]. split.
  { unfold update_user_password. cbn. f_equal. apply bool_decide_eq_true.
    apply Exists_exists. by exists u. }
  split.
  { unfold update_user_password. cbn [with_connection fst snd].
    unfold select_user in *. clear -Hu.
    induction users as [|x users IH]; [done|].
    cbn [map]. rewrite filter_cons in Hu.
    destruct (decide (username x = name)) as [Hx|Hx].
    - injection Hu as ->. rewrite bool_decide_eq_true_2 by done.
      rewrite filter_cons_True by done. done.
    - rewrite filter_cons_False; [by apply IH|].
      by destruct (bool_decide (email x = email u)). }
  rewrite (Cache.cached_hit _ _ _ _ _ (UserRow u)); [done|].
  by apply Cache.get_set_fresh.
Qed.

Lemma get_conversation_by_id_deleted (conn : connection) (now : Z)
    (db : database) (cid uid : Z) (n : Z) (t : tables) :
  execute conn now (DELETE_conversation cid uid) (committed db) = Ok (n, t) ->
  RelStore.get_conversation_by_id {| committed := t; journal := journal db ++ [[DELETE_conversation cid uid]] |} cid uid = None.
Proof.
  intros [= _ <-]. unfold RelStore.get_conversation_by_id. cbn.
  apply head_None.
  destruct (filter _ (filter _ _)) as [|x l] eqn:Hf; [done|].
  assert (Hx : x ∈ x :: l) by left. rewrite <- Hf in Hx.
  apply list_elem_of_filter in Hx as [Hx1 Hx].
  apply list_elem_of_filter in Hx as [Hx2 _]. done.
Qed.


(** The users and the store of the examples. *)
Definition alice : user :=
  {| u_id := 1; username := "alice"; email := "a@x.org";
     hashed_password := "old"; u_created_at := 0; u_updated_at := 0 |}.

Lemma password_update_served_stale_alice :
  (get_user_by_username (SQLiteConnectionPool 10) NoFault
     (get_user_by_username (SQLiteConnectionPool 10) NoFault
        Cache.CacheManager [alice] "alice" 0%float 0%float).1.2
     (update_user_password (SQLiteConnectionPool 10) NoFault
        [alice] "a@x.org" "new" 5).2
     "alice" 599%float 599%float).1.1
  = Ok (Some (UserRow alice)).
Proof.
  refine (proj2 (proj2 (proj2
    (password_update_served_stale (SQLiteConnectionPool 10)
       Cache.CacheManager [alice] "alice" "new" alice 5
       0%float 0%float 599%float 599%float _ _ _ _)))).
  - discriminate.
  - reflexivity.
  - reflexivity.
  - vm_compute. reflexivity.
Defined.


End CachedStore.

(** ** Verification codes: [ConfigManager] in [app/core/config_manager.py] *)

Module Verification.

(** The verification side of a [ConfigManager]: [_verification_codes]
    maps an email to its code and the reading of [time.time()] when it was
    set. *)
Record config_manager : Type := {
  verification_codes : gmap string (string * float);
  verification_ttl : Z
}.

(** [ConfigManager(verification_ttl)]; the global instance is built with
    360. *)
Definition ConfigManager (ttl : Z) : config_manager :=
  {| verification_codes := ∅; verification_ttl := ttl |}.

(** The test [now - data["timestamp"] > self._verification_ttl]. *)
Definition expired (m : config_manager) (now timestamp : float) : bool :=
  PrimFloat.ltb (float_of_int (verification_ttl m))
    (PrimFloat.sub now timestamp).

Definition with_codes (m : config_manager)
    (codes : gmap string (string * float)) : config_manager :=
  {| verification_codes := codes; verification_ttl := verification_ttl m |}.

(** [_cleanup_expired_codes_unsafe]: the number of codes removed and the
    new state. *)
Definition cleanup_expired_codes_unsafe (m : config_manager) (now : float)
    : Z * config_manager :=
  let live :=
    filter (fun kv : string * (string * float) =>
              expired m now kv.2.2 = false) (verification_codes m) in
  (Z.of_nat (size (verification_codes m)) - Z.of_nat (size live),
   with_codes m live).

(** [set_verification_code]; [t_clean] and [t_set] are the two readings of
    the clock. *)
Definition set_verification_code (m : config_manager) (email code : string)
    (t_clean t_set : float) : config_manager :=
  let m1 := (cleanup_expired_codes_unsafe m t_clean).2 in
  with_codes m1 (<[email := (code, t_set)]> (verification_codes m1)).

(** [get_verification_code]. *)
Definition get_verification_code (m : config_manager) (email : string)
    (now : float) : option string * config_manager :=
  match verification_codes m !! email with
  | None => (None, m)
  | Some (code, timestamp) =>
      if expired m now timestamp then
        (None, with_codes m (delete email (verification_codes m)))
      else (Some code, m)
  end.

(** [verify_code]. *)
Definition verify_code (m : config_manager) (email code : string)
    (now : float) : bool * config_manager :=
  match verification_codes m !! email with
  | None => (false, m)
  | Some (stored, timestamp) =>
      if expired m now timestamp then
        (false, with_codes m (delete email (verification_codes m)))
      else if String.eqb stored code then
        (true, with_codes m (delete email (verification_codes m)))
      else (false, m)
  end.

(** *** Properties *)


(** X20.  A verification code works once: after a successful
    [verify_code], any further [verify_code] for that email fails, with the
    same code or another, until a new code is set. *)
Theorem verify_code_single_use (m : config_manager) (email code guess : string)
    (now later : float) :
  (verify_code m email code now).1 = true ->
  verify_code (verify_code m email code now).2 email guess later
  = (false, (verify_code m email code now).2).
Proof.
  intros Hok.
  assert (Hv : (verify_code m email code now).2
               = with_codes m (delete email (verification_codes m))).
  { unfold verify_code in *.
    destruct (verification_codes m !! email) as [[stored ts]|]; [|done].
    destruct (expired m now ts); [done|].
    by destruct (String.eqb stored code). }
  rewrite Hv. unfold verify_code. cbn [verification_codes with_codes].
  by rewrite lookup_delete_eq.
Qed.


(** A code set at second 0 and the manager of [config_manager.py]. *)
Definition code_sent : config_manager :=
  set_verification_code (ConfigManager 360) "a@x.org" "123456" 0%float 0%float.

Lemma verify_code_single_use_run :
  verify_code (verify_code code_sent "a@x.org" "123456" 10%float).2
    "a@x.org" "123456" 11%float
  = (false, (verify_code code_sent "a@x.org" "123456" 10%float).2).
Proof.
  apply (verify_code_single_use code_sent "a@x.org" "123456" "123456"
           10%float 11%float).
  vm_compute. reflexivity.
Defined.


End Verification.

(** ** The embedding cache: [EmbeddingCache] in [custom_rag.py] *)

Module EmbeddingCache.

Section Cache.

(** The keys: [str] in the class; [CustomEmbedder] uses md5 digests. *)
Context {Key : Type} {Key_eq : EqDecision Key}
  {Key_countable : Countable Key}.

(** An [EmbeddingCache]: the dictionary [cache] and the list
    [access_order], least recently used key first. *)
Record embedding_cache : Type := {
  cache : gmap Key (list float);
  max_size : Z;
  access_order : list Key
}.

(** [EmbeddingCache(max_size)]. *)
Definition init (size : Z) : embedding_cache :=
  {| cache := ∅; max_size := size; access_order := [] |}.

(** [l.remove(k)]: the first occurrence goes; [ValueError] when there is
    none. *)
Fixpoint list_remove (k : Key) (l : list Key) : res (list Key) :=
  match l with
  | [] => Raise ValueError
  | x :: l' =>
      if decide (x = k) then Ok l'
      else l'' ← list_remove k l'; Ok (x :: l'')
  end.

(** [EmbeddingCache.get]. *)
Definition get (s : embedding_cache) (key : Key)
    : res (option (list float)) * embedding_cache :=
  match cache s !! key with
  | Some v =>
      match list_remove key (access_order s) with
      | Raise e => (Raise e, s)
      | Ok l =>
          (Ok (Some v),
           {| cache := cache s; max_size := max_size s;
              access_order := l ++ [key] |})
      end
  | None => (Ok None, s)
  end.

(** [EmbeddingCache.put]. *)
Definition put (s : embedding_cache) (key : Key) (value : list float)
    : res () * embedding_cache :=
  let store (c : gmap Key (list float)) (l : list Key) :=
    (Ok (), {| cache := <[key := value]> c; max_size := max_size s;
               access_order := l ++ [key] |}) in
  match cache s !! key with
  | Some _ =>
      match list_remove key (access_order s) with
      | Raise e => (Raise e, s)
      | Ok l => store (cache s) l
      end
  | None =>
      if max_size s <=? Z.of_nat (size (cache s)) then
        match access_order s with
        | [] => (Raise IndexError, s)                (* pop(0) *)
        | oldest :: l =>
            match cache s !! oldest with
            | None =>                                 (* del self.cache[oldest] *)
                (Raise KeyError,
                 {| cache := cache s; max_size := max_size s;
                    access_order := l |})
            | Some _ => store (delete oldest (cache s)) l
            end
        end
      else store (cache s) (access_order s)
  end.

(** The list of keys names each cached key once. *)
Definition well_formed (s : embedding_cache) : Prop :=
  NoDup (access_order s) /\
  forall k, k ∈ access_order s <-> is_Some (cache s !! k).

Inductive op : Type :=
  | Get (key : Key)
  | Put (key : Key) (value : list float).

Definition step (s : embedding_cache) (o : op) : res () * embedding_cache :=
  match o with
  | Get k => let r := get s k in (_ ← r.1; Ok (), r.2)
  | Put k v => put s k v
  end.

(** The operations in turn, stopping at the first that raises. *)
Fixpoint run (s : embedding_cache) (ops : list op)
    : res () * embedding_cache :=
  match ops with
  | [] => (Ok (), s)
  | o :: ops' =>
      let r := step s o in
      match r.1 with
      | Ok _ => run r.2 ops'
      | Raise e => (Raise e, r.2)
      end
  end.

(** *** Properties *)

Lemma list_remove_present (k : Key) (l : list Key) :
  k ∈ l -> NoDup l ->
  exists l', list_remove k l = Ok l' /\ NoDup l' /\ length l = S (length l') /\
    forall x, x ∈ l' <-> x ∈ l /\ x <> k.
Proof.
  induction l as [|x l IH]; intros Hin Hnd; [by apply elem_of_nil in Hin|].
  apply NoDup_cons in Hnd as [Hx Hnd]. simpl.
  destruct (decide (x = k)) as [->|Hne].
  - exists l. split; [done|]. split; [done|]. split; [done|].
    intros y. rewrite elem_of_cons. split.
    + intros Hy. split; [by right|]. intros ->. done.
    + intros [[->|Hy] Hne]; done.
  - apply elem_of_cons in Hin as [->|Hin]; [done|].
    destruct (IH Hin Hnd) as (l' & -> & Hnd' & Hlen & Hl'). simpl.
    exists (x :: l'). split; [done|]. split.
    + apply NoDup_cons. split; [|done]. rewrite Hl'. tauto.
    + split; [simpl; lia|]. intros y. rewrite !elem_of_cons, Hl'.
      split; [intros [->|[? ?]]; auto|intros [[->|?] ?]; auto].
Qed.

Lemma well_formed_size (s : embedding_cache) :
  well_formed s -> size (cache s) = length (access_order s).
Proof.
  intros [Hnd Hk].
  rewrite <- size_dom, <- (size_list_to_set (C := gset Key)) by done.
  f_equal. apply set_eq. intros k.
  by rewrite elem_of_dom, elem_of_list_to_set, Hk.
Qed.

Lemma get_well_formed (s : embedding_cache) (key : Key) :
  well_formed s ->
  exists r, (get s key).1 = Ok r /\ r = cache s !! key /\
    well_formed (get s key).2 /\
    cache (get s key).2 = cache s /\ max_size (get s key).2 = max_size s /\
    (is_Some (cache s !! key) -> last (access_order (get s key).2) = Some key).
Proof.
  intros [Hnd Hk]. unfold get.
  destruct (cache s !! key) as [v|] eqn:Hc.
  2:{ exists None. split; [done|]. split; [done|]. split; [by split|].
      split; [done|]. split; [done|]. intros H. by apply is_Some_None in H. }
  destruct (list_remove_present key (access_order s))
    as (l & -> & Hnd' & _ & Hl); [by apply Hk|done|].
  exists (Some v). unfold well_formed.
  cbn [fst snd cache max_size access_order].
  split; [done|]. split; [done|]. split; [split|].
  - apply NoDup_app. split; [done|]. split; [|apply NoDup_singleton].
    intros x Hx ->%list_elem_of_singleton. apply Hl in Hx. tauto.
  - intros k. rewrite elem_of_app, list_elem_of_singleton, Hl, Hk.
    destruct (decide (k = key)) as [->|Hne]; [by split; auto|].
    split; [intros [[? _]|?]; done|auto].
  - split; [done|]. split; [done|]. intros _. by rewrite last_snoc.
Qed.

Lemma put_well_formed (s : embedding_cache) (key : Key)
    (value : list float) :
  well_formed s -> 1 <= max_size s ->
  Z.of_nat (size (cache s)) <= max_size s ->
  (put s key value).1 = Ok () /\
  well_formed (put s key value).2 /\
  max_size (put s key value).2 = max_size s /\
  Z.of_nat (size (cache (put s key value).2)) <= max_size s /\
  cache (put s key value).2 !! key = Some value /\
  last (access_order (put s key value).2) = Some key.
Proof.
  intros Hwf Hmax Hsize. pose proof (well_formed_size s Hwf) as Hlen.
  destruct Hwf as [Hnd Hk]. unfold put.
  destruct (cache s !! key) as [v|] eqn:Hc.
  - destruct (list_remove_present key (access_order s))
      as (l & -> & Hnd' & Hl1 & Hl); [by apply Hk|done|].
    unfold well_formed. cbn [fst snd cache max_size access_order].
    rewrite lookup_insert_eq, last_snoc.
    repeat split; try done.
    + apply NoDup_app. split; [done|]. split; [|apply NoDup_singleton].
      intros x Hx ->%list_elem_of_singleton. apply Hl in Hx. tauto.
    + rewrite elem_of_app, list_elem_of_singleton, Hl, Hk.
      destruct (decide (k = key)) as [->|Hne].
      * by rewrite lookup_insert_eq.
      * rewrite lookup_insert_ne by done. by intros [[? _]|?].
    + rewrite elem_of_app, list_elem_of_singleton, Hl, Hk.
      destruct (decide (k = key)) as [->|Hne]; [auto|].
      rewrite lookup_insert_ne by done. auto.
    + rewrite map_size_insert_Some by done. lia.
  - assert (Hfresh : key ∉ access_order s).
    { rewrite Hk, Hc. apply is_Some_None. }
    destruct (Z.leb_spec (max_size s) (Z.of_nat (size (cache s))))
      as [Hfull|Hroom].
    + destruct (access_order s) as [|oldest l] eqn:Ha;
        [simpl in Hlen; lia|].
      apply NoDup_cons in Hnd as [Ho Hnd].
      assert (Hold : is_Some (cache s !! oldest)) by (apply Hk; left).
      destruct Hold as [w Hw]. rewrite Hw.
      assert (Hne : oldest <> key).
      { intros ->. apply Hfresh. left. }
      unfold well_formed. cbn [fst snd cache max_size access_order].
      rewrite lookup_insert_eq, last_snoc.
      repeat split; try done.
      * apply NoDup_app. split; [done|]. split; [|apply NoDup_singleton].
        intros x Hx ->%list_elem_of_singleton. apply Hfresh. by right.
      * rewrite elem_of_app, list_elem_of_singleton.
        destruct (decide (k = key)) as [->|Hn].
        { by rewrite lookup_insert_eq. }
        rewrite lookup_insert_ne by done.
        intros [Hin|?]; [|done].
        rewrite lookup_delete_ne by (intros ->; done).
        apply Hk. by right.
      * rewrite elem_of_app, list_elem_of_singleton.
        destruct (decide (k = key)) as [->|Hn]; [auto|].
        rewrite lookup_insert_ne by done.
        destruct (decide (oldest = k)) as [->|Hn'].
        { rewrite lookup_delete_eq. intros H. by apply is_Some_None in H. }
        rewrite lookup_delete_ne by done. intros Hs. apply Hk in Hs.
        apply elem_of_cons in Hs as [->|Hs]; [done|auto].
      * rewrite map_size_insert_None
          by (rewrite lookup_delete_ne by done; done).
        rewrite map_size_delete_Some by done. simpl in Hlen. lia.
    + unfold well_formed. cbn [fst snd cache max_size access_order].
      rewrite lookup_insert_eq, last_snoc.
      repeat split; try done.
      * apply NoDup_app. split; [done|]. split; [|apply NoDup_singleton].
        by intros x Hx ->%list_elem_of_singleton.
      * rewrite elem_of_app, list_elem_of_singleton.
        destruct (decide (k = key)) as [->|Hn].
        { by rewrite lookup_insert_eq. }
        rewrite lookup_insert_ne by done. intros [Hin|?]; [|done].
        by apply Hk.
      * rewrite elem_of_app, list_elem_of_singleton.
        destruct (decide (k = key)) as [->|Hn]; [auto|].
        rewrite lookup_insert_ne by done. intros Hs. left. by apply Hk.
      * rewrite map_size_insert_None by done. lia.
Qed.

Lemma init_well_formed (n : Z) : well_formed (init n).
Proof.
  split; [constructor|]. intros k. simpl. rewrite lookup_empty.
  split; [by intros ?%elem_of_nil|by intros ?%is_Some_None].
Qed.

Lemma run_well_formed (n : Z) (ops : list op) (s : embedding_cache) :
  1 <= n -> well_formed s -> max_size s = n ->
  Z.of_nat (size (cache s)) <= n ->
  (run s ops).1 = Ok () /\ well_formed (run s ops).2 /\
  max_size (run s ops).2 = n /\
  Z.of_nat (size (cache (run s ops).2)) <= n.
Proof.
  intros Hn. revert s.
  induction ops as [|o ops IH]; intros s Hwf Hmax Hsize; [done|].
  cbn [run]. destruct o as [k|k v]; cbn [step].
  - destruct (get_well_formed s k Hwf) as (r & Hr & _ & Hwf' & Hc & Hm & _).
    cbn [fst snd]. rewrite Hr. cbn [mbind res_bind].
    apply IH; [done|congruence|by rewrite Hc].
  - destruct (put_well_formed s k v Hwf) as (Hr & Hwf' & Hm & Hs & _);
      [lia|lia|].
    rewrite Hr. apply IH; [done|congruence|lia].
Qed.

(** X22.  From [EmbeddingCache(max_size)] with [max_size] at least 1,
    no sequence of [get] and [put] raises, [access_order] lists the cached
    keys each once, and the cache never holds more than [max_size]
    embeddings. *)
Theorem embedding_cache_bounded (n : Z) (ops : list op) :
  1 <= n ->
  let r := run (init n) ops in
  r.1 = Ok () /\ well_formed r.2 /\ Z.of_nat (size (cache r.2)) <= n.
Proof.
  intros Hn. cbv zeta.
  destruct (run_well_formed n ops (init n)) as (H1 & H2 & _ & H3);
    [done|apply init_well_formed|done|
     cbn [init cache]; rewrite map_size_empty; lia|].
  done.
Qed.

(** X23.  In a well-formed cache, [put(key, value)] succeeds and [get(key)]
    then returns [value]. *)
Theorem put_then_get (s : embedding_cache) (key : Key)
    (value : list float) :
  well_formed s -> 1 <= max_size s ->
  Z.of_nat (size (cache s)) <= max_size s ->
  (put s key value).1 = Ok () /\
  (get (put s key value).2 key).1 = Ok (Some value).
Proof.
  intros Hwf Hmax Hsize.
  destruct (put_well_formed s key value Hwf Hmax Hsize)
    as (Hr & Hwf' & _ & _ & Hv & _).
  split; [done|].
  destruct (get_well_formed (put s key value).2 key Hwf')
    as (r & -> & -> & _). by rewrite Hv.
Qed.

(** X24.  Least recently used: in a well-formed cache for at least two
    embeddings, a key that has just been read by [get] is still cached,
    with its value, after the next [put] of another key, even when that
    [put] has to evict. *)
Theorem recently_read_key_survives (s : embedding_cache)
    (used key : Key) (value : list float) :
  well_formed s -> 2 <= max_size s ->
  Z.of_nat (size (cache s)) <= max_size s ->
  is_Some (cache s !! used) ->
  let s1 := (get s used).2 in
  (put s1 key value).1 = Ok () /\
  (used <> key -> cache (put s1 key value).2 !! used = cache s !! used).
Proof.
  intros Hwf Hmax Hsize Hused. cbv zeta.
  destruct (get_well_formed s used Hwf) as (r & _ & _ & Hwf1 & Hc1 & Hm1 & Hl).
  specialize (Hl Hused).
  destruct (put_well_formed (get s used).2 key value Hwf1)
    as (Hr & _); [lia|rewrite Hc1; lia|].
  split; [done|]. intros Hne.
  pose proof (well_formed_size _ Hwf1) as Hlen. destruct Hwf1 as [Hnd Hk].
  unfold put in *. rewrite Hc1 in *. rewrite Hm1 in *.
  destruct (cache s !! key) as [w|] eqn:Hkey.
  - destruct (list_remove key (access_order (get s used).2)); [|done].
    cbn. by rewrite lookup_insert_ne.
  - destruct (Z.leb_spec (max_size s) (Z.of_nat (size (cache s)))) as [Hf|].
    2:{ cbn. by rewrite lookup_insert_ne. }
    destruct (access_order (get s used).2) as [|oldest l] eqn:Ha; [done|].
    destruct (cache s !! oldest) eqn:Ho; [|by simpl in Hr]. cbn.
    rewrite lookup_insert_ne by done.
    rewrite lookup_delete_ne; [done|]. intros ->.
    destruct l as [|y l]; [simpl in Hlen; lia|].
    rewrite last_cons in Hl.
    destruct (last (y :: l)) as [z|] eqn:Hz; [|by apply last_None in Hz].
    injection Hl as ->. apply NoDup_cons in Hnd as [Hnin _]. apply Hnin.
    by apply last_Some_elem_of.
Qed.

End Cache.

Arguments embedding_cache Key {Key_eq Key_countable}.
Arguments op Key : clear implicits.

(** A cache for two embeddings holding the keys a and b. *)
Definition two_keys : embedding_cache string :=
  (run (init 2) [Put "a" [1%float]; Put "b" [2%float]]).2.

Lemma two_keys_well_formed : well_formed two_keys.
Proof.
  apply (run_well_formed 2 [Put "a" [1%float]; Put "b" [2%float]] (init 2));
    [lia|apply init_well_formed|done|].
  cbn [init cache]. rewrite map_size_empty. lia.
Qed.

Lemma embedding_cache_bounded_run :
  (run (init 2) [Put "a" [1%float]; Put "b" [2%float]; Get "a";
                 Put "c" [3%float]]).1 = Ok () /\
  well_formed
    (run (init 2) [Put "a" [1%float]; Put "b" [2%float]; Get "a";
                   Put "c" [3%float]]).2 /\
  Z.of_nat (size (cache
    (run (init 2) [Put "a" [1%float]; Put "b" [2%float]; Get "a";
                   Put "c" [3%float]]).2)) <= 2.
Proof.
  apply (embedding_cache_bounded 2
           [Put "a" [1%float]; Put "b" [2%float]; Get "a";
            Put "c" [3%float]]).
  lia.
Defined.

Lemma put_then_get_run :
  (put two_keys "c" [3%float]).1 = Ok () /\
  (get (put two_keys "c" [3%float]).2 "c").1 = Ok (Some [3%float]).
Proof.
  apply (put_then_get two_keys "c" [3%float]).
  - exact two_keys_well_formed.
  - vm_compute. discriminate.
  - vm_compute. discriminate.
Defined.

Lemma recently_read_key_survives_run :
  (put (get two_keys "a").2 "c" [3%float]).1 = Ok () /\
  cache (put (get two_keys "a").2 "c" [3%float]).2 !! "a"%string
  = Some [1%float].
Proof.
  destruct (recently_read_key_survives two_keys "a" "c" [3%float])
    as [H1 H2].
  - exact two_keys_well_formed.
  - vm_compute. discriminate.
  - vm_compute. discriminate.
  - by eexists.
  - split; [exact H1|]. rewrite H2 by discriminate. reflexivity.
Defined.

End EmbeddingCache.

(** ** The embedder: [CustomEmbedder.embed_texts] in [custom_rag.py] *)

Module Embedder.

Import EmbeddingCache.

Section Embed.

(** The two ways to the embedding service: the OpenAI client
    ([client.embeddings.create], read into the list of vectors) and the
    plain HTTP request of [_embed_via_http]. *)
Context (client_create http_post : list string -> res (list (list float))).

(** The first loop of [embed_texts], from position [i]: the pairs found
    in the cache, the texts still to embed and their positions. *)
Fixpoint check_cache (s : embedding_cache digest) (i : nat)
    (texts : list string)
    : res (list (nat * list float) * list string * list nat)
      * embedding_cache digest :=
  match texts with
  | [] => (Ok ([], [], []), s)
  | text :: texts' =>
      let g := get s (MD5 text) in
      match g.1 with
      | Raise e => (Raise e, g.2)
      | Ok cached =>
          let r := check_cache g.2 (S i) texts' in
          (rest ← r.1;
           Ok (match cached with
               | Some v => ((i, v) :: rest.1.1, rest.1.2, rest.2)
               | None => (rest.1.1, text :: rest.1.2, i :: rest.2)
               end),
           r.2)
      end
  end.

(** [for text, embedding in zip(...): self.cache.put(md5(text), embedding)]. *)
Fixpoint put_all (s : embedding_cache digest)
    (l : list (string * list float)) : res () * embedding_cache digest :=
  match l with
  | [] => (Ok (), s)
  | te :: l' =>
      let p := put s (MD5 te.1) te.2 in
      match p.1 with
      | Raise e => (Raise e, p.2)
      | Ok _ => put_all p.2 l'
      end
  end.

(** [results.sort(key=lambda x: x[0])]: a stable sort on the position. *)
Fixpoint insert_by_index (x : nat * list float) (l : list (nat * list float))
    : list (nat * list float) :=
  match l with
  | [] => [x]
  | y :: l' =>
      if (x.1 <? y.1)%nat then x :: y :: l' else y :: insert_by_index x l'
  end.

Definition sort_by_index (l : list (nat * list float))
    : list (nat * list float) :=
  foldl (fun acc x => insert_by_index x acc) [] l.

(** The two loops that follow a successful request. *)
Definition store_batch (s : embedding_cache digest)
    (results : list (nat * list float)) (texts_to_embed : list string)
    (indices_to_embed : list nat) (embeddings : list (list float))
    : res (list (nat * list float)) * embedding_cache digest :=
  let p := put_all s (zip texts_to_embed embeddings) in
  (_ ← p.1; Ok (results ++ zip indices_to_embed embeddings), p.2).

(** [CustomEmbedder.embed_texts]. *)
Definition embed_texts (s : embedding_cache digest) (texts : list string)
    : res (list (list float)) * embedding_cache digest :=
  let c := check_cache s 0 texts in
  match c.1 with
  | Raise e => (Raise e, c.2)
  | Ok (results, texts_to_embed, indices_to_embed) =>
      let finish (r : res (list (nat * list float)) * embedding_cache digest) :=
        ((fun l => (sort_by_index l).*2) <$> r.1, r.2) in
      let via_http (s1 : embedding_cache digest) :=
        match http_post texts_to_embed with
        | Raise e => (Raise e, s1)
        | Ok embeddings =>
            store_batch s1 results texts_to_embed indices_to_embed embeddings
        end in
      match texts_to_embed with
      | [] => finish (Ok results, c.2)
      | _ =>
          match client_create texts_to_embed with
          | Raise _ => finish (via_http c.2)
          | Ok embeddings =>
              let b := store_batch c.2 results texts_to_embed
                         indices_to_embed embeddings in
              match b.1 with
              | Ok _ => finish b
              | Raise _ => finish (via_http b.2)
              end
          end
      end
  end.

(** What the first loop finds, read off the dictionary. *)
Fixpoint split_cached (m : gmap digest (list float)) (i : nat)
    (texts : list string)
    : list (nat * list float) * list string * list nat :=
  match texts with
  | [] => ([], [], [])
  | text :: texts' =>
      let rest := split_cached m (S i) texts' in
      match m !! MD5 text with
      | Some v => ((i, v) :: rest.1.1, rest.1.2, rest.2)
      | None => (rest.1.1, text :: rest.1.2, i :: rest.2)
      end
  end.

(** The texts the cache does not hold. *)
Definition uncached (m : gmap digest (list float)) (texts : list string)
    : list string :=
  filter (fun text => m !! MD5 text = None) texts.

(** A cache [put] and [get] cannot fail on. *)
Definition sound (s : embedding_cache digest) : Prop :=
  well_formed s /\ 1 <= max_size s /\
  Z.of_nat (size (cache s)) <= max_size s.

(** *** Properties *)

Lemma check_cache_spec (s : embedding_cache digest) (i : nat)
    (texts : list string) :
  sound s ->
  (check_cache s i texts).1 = Ok (split_cached (cache s) i texts) /\
  sound (check_cache s i texts).2 /\
  cache (check_cache s i texts).2 = cache s.
Proof.
  revert s i. induction texts as [|text texts IH]; intros s i Hs; [done|].
  destruct Hs as (Hwf & Hmax & Hsize). cbn [check_cache split_cached].
  destruct (get_well_formed s (MD5 text) Hwf)
    as (r & Hr & -> & Hwf' & Hc & Hm & _).
  rewrite Hr.
  destruct (IH (get s (MD5 text)).2 (S i)) as (H1 & H2 & H3).
  { split; [done|]. rewrite Hc, Hm. done. }
  cbn [fst snd]. rewrite H1, Hc in *. cbn [mbind res_bind].
  split; [|split; [done|by rewrite H3]].
  by destruct (cache s !! MD5 text).
Qed.

Lemma put_all_sound (s : embedding_cache digest)
    (l : list (string * list float)) :
  sound s -> (put_all s l).1 = Ok () /\ sound (put_all s l).2.
Proof.
  revert s. induction l as [|[text e] l IH]; intros s Hs; [done|].
  destruct Hs as (Hwf & Hmax & Hsize). cbn [put_all fst snd].
  destruct (put_well_formed s (MD5 text) e Hwf Hmax Hsize)
    as (Hr & Hwf' & Hm & Hs' & _).
  rewrite Hr. apply IH. split; [done|]. rewrite Hm. done.
Qed.

Lemma split_cached_uncached (m : gmap digest (list float)) (i : nat)
    (texts : list string) :
  (split_cached m i texts).1.2 = uncached m texts /\
  length (split_cached m i texts).2 = length (uncached m texts).
Proof.
  unfold uncached. revert i.
  induction texts as [|text texts IH]; intros i; [done|].
  cbn [split_cached]. destruct (IH (S i)) as [H1 H2].
  destruct (m !! MD5 text) eqn:Hm; cbn [fst snd].
  - rewrite filter_cons_False by (rewrite Hm; done). done.
  - rewrite filter_cons_True by done. cbn [length]. by rewrite H1, H2.
Qed.

(** The result the caller expects: the cached vector where there is one,
    the vector of the service otherwise. *)
Definition answer (m : gmap digest (list float)) (f : string -> list float)
    (text : string) : list float :=
  default (f text) (m !! MD5 text).

(** The expected pairs, in the order of the texts. *)
Fixpoint numbered (m : gmap digest (list float)) (f : string -> list float)
    (i : nat) (texts : list string) : list (nat * list float) :=
  match texts with
  | [] => []
  | text :: texts' => (i, answer m f text) :: numbered m f (S i) texts'
  end.

Lemma split_cached_perm (m : gmap digest (list float))
    (f : string -> list float) (i : nat) (texts : list string) :
  let sp := split_cached m i texts in
  sp.1.1 ++ zip sp.2 (map f sp.1.2) ≡ₚ numbered m f i texts.
Proof.
  cbv zeta. revert i. induction texts as [|text texts IH]; intros i; [done|].
  cbn [split_cached numbered]. specialize (IH (S i)). unfold answer at 1.
  destruct (m !! MD5 text) as [v|]; cbn [fst snd default].
  - by rewrite <- IH.
  - cbn [map zip zip_with]. rewrite <- Permutation_middle. by rewrite <- IH.
Qed.

Lemma numbered_sorted (m : gmap digest (list float))
    (f : string -> list float) (i : nat) (texts : list string) :
  StronglySorted (fun a b : nat * list float => (a.1 < b.1)%nat)
    (numbered m f i texts) /\
  Forall (fun b : nat * list float => (i <= b.1)%nat) (numbered m f i texts).
Proof.
  revert i. induction texts as [|text texts IH]; intros i.
  { split; constructor. }
  destruct (IH (S i)) as [Hs Hf]. cbn [numbered]. split.
  - constructor; [done|]. eapply Forall_impl; [exact Hf|]. simpl. lia.
  - constructor; [simpl; lia|]. eapply Forall_impl; [exact Hf|]. simpl. lia.
Qed.

Lemma numbered_values (m : gmap digest (list float))
    (f : string -> list float) (i : nat) (texts : list string) :
  (numbered m f i texts).*2 = map (answer m f) texts.
Proof.
  revert i. induction texts as [|text texts IH]; intros i; [done|].
  cbn [numbered fmap list_fmap map]. f_equal. apply IH.
Qed.

Lemma insert_by_index_perm (x : nat * list float) l :
  insert_by_index x l ≡ₚ x :: l.
Proof.
  induction l as [|y l IH]; simpl; [done|].
  destruct (x.1 <? y.1)%nat; [done|]. rewrite IH. apply Permutation_swap.
Qed.

Lemma insert_by_index_sorted (x : nat * list float) l :
  StronglySorted (fun a b : nat * list float => (a.1 <= b.1)%nat) l ->
  StronglySorted (fun a b : nat * list float => (a.1 <= b.1)%nat)
    (insert_by_index x l).
Proof.
  induction 1 as [|y l Hs IH Hy]; simpl; [repeat constructor|].
  destruct (Nat.ltb_spec x.1 y.1).
  - constructor; [by constructor|]. constructor; [lia|].
    eapply Forall_impl; [exact Hy|]. simpl. lia.
  - constructor; [done|]. rewrite insert_by_index_perm.
    constructor; [lia|done].
Qed.

Lemma sort_by_index_spec (l : list (nat * list float)) :
  StronglySorted (fun a b : nat * list float => (a.1 <= b.1)%nat)
    (sort_by_index l) /\
  sort_by_index l ≡ₚ l.
Proof.
  unfold sort_by_index.
  assert (H : forall acc,
            StronglySorted (fun a b : nat * list float => (a.1 <= b.1)%nat)
              acc ->
            StronglySorted (fun a b : nat * list float => (a.1 <= b.1)%nat)
              (foldl (fun acc x => insert_by_index x acc) acc l) /\
            foldl (fun acc x => insert_by_index x acc) acc l ≡ₚ acc ++ l).
  { induction l as [|x l IH]; intros acc Hacc; simpl.
    { by rewrite app_nil_r. }
    destruct (IH (insert_by_index x acc)) as [Hs Hp];
      [by apply insert_by_index_sorted|].
    split; [done|]. rewrite Hp, insert_by_index_perm.
    by rewrite <- Permutation_middle. }
  apply (H []). constructor.
Qed.

Lemma sorted_by_index_unique (l1 l2 : list (nat * list float)) :
  StronglySorted (fun a b : nat * list float => (a.1 < b.1)%nat) l1 ->
  StronglySorted (fun a b : nat * list float => (a.1 <= b.1)%nat) l2 ->
  l1 ≡ₚ l2 -> l1 = l2.
Proof.
  intros H1. revert l2. induction H1 as [|a l1 Hs IH Ha]; intros l2 H2 Hp.
  { by apply Permutation_nil_l in Hp. }
  destruct l2 as [|b l2]; [by apply Permutation_nil_r in Hp|].
  apply StronglySorted_cons in H2 as [Hb H2].
  assert (Hab : a = b).
  { assert (Hain : a ∈ b :: l2) by (rewrite <- Hp; left).
    assert (Hbin : b ∈ a :: l1) by (rewrite Hp; left).
    apply elem_of_cons in Hain as [|Hain]; [done|].
    apply elem_of_cons in Hbin as [|Hbin]; [done|]. exfalso.
    rewrite Forall_forall in Ha, Hb.
    specialize (Ha b Hbin). specialize (Hb a Hain). lia. }
  subst b. f_equal. apply IH; [done|]. by apply Permutation_cons_inv in Hp.
Qed.

Lemma sort_split_cached (m : gmap digest (list float))
    (f : string -> list float) (texts : list string) :
  let sp := split_cached m 0 texts in
  (sort_by_index (sp.1.1 ++ zip sp.2 (map f sp.1.2))).*2
  = map (answer m f) texts.
Proof.
  cbv zeta.
  set (R := (split_cached m 0 texts).1.1 ++ _).
  destruct (sort_by_index_spec R) as [Hs Hp].
  pose proof (split_cached_perm m f 0 texts) as HR. cbv zeta in HR.
  fold R in HR.
  rewrite <- (sorted_by_index_unique (numbered m f 0 texts) (sort_by_index R)).
  - apply numbered_values.
  - apply numbered_sorted.
  - done.
  - by rewrite Hp, HR.
Qed.

(** X30.  [embed_texts] returns one vector per text, in the order of the
    texts: the cached vector where the cache holds the text's digest, the
    vector of the service otherwise.  The service is asked once, for the
    texts the cache misses, in order (not at all when there is none), by
    the client or, when the client raises, by the HTTP request; the cache
    is one that [get] and [put] cannot fail on, before and after. *)
Theorem embed_texts_keeps_order (s : embedding_cache digest)
    (texts : list string) (f : string -> list float) :
  sound s ->
  (uncached (cache s) texts <> [] ->
   client_create (uncached (cache s) texts)
     = Ok (map f (uncached (cache s) texts)) \/
   ((exists e, client_create (uncached (cache s) texts) = Raise e) /\
    http_post (uncached (cache s) texts)
      = Ok (map f (uncached (cache s) texts)))) ->
  (embed_texts s texts).1 = Ok (map (answer (cache s) f) texts) /\
  sound (embed_texts s texts).2.
Proof.
  intros Hs Hreq. unfold embed_texts.
  destruct (check_cache_spec s 0 texts Hs) as (Hc & Hs1 & Hm).
  rewrite Hc.
  pose proof (sort_split_cached (cache s) f texts) as Hsort. cbv zeta in Hsort.
  destruct (split_cached_uncached (cache s) 0 texts) as [Hu Hlen].
  destruct (split_cached (cache s) 0 texts) as [[results misses] indices].
  cbn [fst snd] in Hsort, Hu, Hlen. subst misses.
  destruct (uncached (cache s) texts) as [|text misses] eqn:Hmiss.
  { cbn [fmap res_fmap fst snd]. split; [|done].
    destruct indices; [|done].
    cbn [map zip zip_with] in Hsort. rewrite app_nil_r in Hsort.
    f_equal. exact Hsort. }
  assert (Hstore : forall s1, sound s1 ->
            (store_batch s1 results (text :: misses) indices
               (map f (text :: misses))).1
            = Ok (results ++ zip indices (map f (text :: misses))) /\
            sound (store_batch s1 results (text :: misses) indices
                     (map f (text :: misses))).2).
  { intros s1 Hs1'. unfold store_batch.
    destruct (put_all_sound s1 (zip (text :: misses) (map f (text :: misses)))
                Hs1') as [Hp Hs2].
    cbn [fst snd]. by rewrite Hp. }
  destruct Hreq as [Hcl|[[e Hcl] Hhttp]]; [done| |]; rewrite Hcl.
  - destruct (Hstore _ Hs1) as [Hb Hs2]. rewrite Hb.
    cbn [fmap res_fmap fst snd]. split; [f_equal; exact Hsort|exact Hs2].
  - rewrite Hhttp. destruct (Hstore _ Hs1) as [Hb Hs2].
    cbn [fst snd]. rewrite Hb. cbn [fmap res_fmap].
    split; [f_equal; exact Hsort|exact Hs2].
Qed.

End Embed.

(** A service that answers every text with the same vector, and one that
    is down. *)
Definition unit_service (texts : list string) : res (list (list float)) :=
  Ok (map (fun _ => [1%float]) texts).

Definition no_service (texts : list string) : res (list (list float)) :=
  Raise TimeoutError.

Definition one_cached : embedding_cache digest :=
  (put (init 200) (MD5 "b") [0%float]).2.

Lemma one_cached_sound : sound one_cached.
Proof.
  destruct (put_well_formed (init 200) (MD5 "b") [0%float])
    as (_ & Hwf & Hmax & Hsize & _).
  - apply init_well_formed.
  - simpl. lia.
  - cbn [init cache]. rewrite map_size_empty. simpl. lia.
  - split; [exact Hwf|]. fold one_cached in Hmax, Hsize.
    rewrite Hmax. split; [simpl; lia|exact Hsize].
Qed.

Lemma embed_texts_keeps_order_run :
  (embed_texts no_service unit_service one_cached ["a"; "b"; "c"]).1
  = Ok [[1%float]; [0%float]; [1%float]] /\
  sound (embed_texts no_service unit_service one_cached ["a"; "b"; "c"]).2.
Proof.
  apply (embed_texts_keeps_order no_service unit_service one_cached
           ["a"; "b"; "c"] (fun _ => [1%float])).
  - exact one_cached_sound.
  - intros _. right. split; [by eexists|reflexivity].
Defined.

End Embedder.

(** ** The chunker: [CustomChunker.chunk_text] in [custom_rag.py] *)

Module Chunker.

(** A [str] is the list of its characters here (code points below 256). *)

(** Where an index of a slice points in a sequence of length [n]: negative
    indices count from the end, and the result is clipped to [0, n]. *)
Definition clamp (i n : Z) : Z :=
  if i <? 0 then Z.max (i + n) 0 else Z.min i n.

(** [t[a:b]]. *)
Definition slice (t : list ascii) (a b : Z) : list ascii :=
  let n := Z.of_nat (length t) in
  take (Z.to_nat (clamp b n - clamp a n)) (drop (Z.to_nat (clamp a n)) t).

(** [t.rfind(sub, a, b)]: the highest index at which [sub] occurs inside
    [t[a:b]], or -1. *)
Definition rfind (sub t : list ascii) (a b : Z) : Z :=
  let n := Z.of_nat (length t) in
  let m := Z.of_nat (length sub) in
  let candidates := reverse (seqZ (clamp a n) (clamp b n - m - clamp a n + 1)) in
  default (-1)
    (head (filter (fun i => take (length sub) (drop (Z.to_nat i) t) = sub)
                  candidates)).

Fixpoint lstrip (t : list ascii) : list ascii :=
  match t with
  | c :: t' => if Sanitizer.is_space c then lstrip t' else t
  | [] => []
  end.

(** [t.strip()]. *)
Definition strip (t : list ascii) : list ascii :=
  reverse (lstrip (reverse (lstrip t))).

(** The loop of [CustomChunker.chunk_text] from position [start]; [None]
    when it has not ended after [fuel] rounds. *)
Fixpoint chunk_loop (fuel : nat) (text : list ascii)
    (chunk_size overlap start : Z) : option (list (list ascii)) :=
  let text_length := Z.of_nat (length text) in
  if start <? text_length then
    match fuel with
    | O => None
    | S fuel' =>
        let end0 := start + chunk_size in
        let end_ :=
          if end0 <? text_length then
            let search_start := Z.max start (end0 - 100) in
            let period_pos := rfind ["."; " "]%char text search_start end0 in
            let newline_pos := rfind ["010"%char] text search_start end0 in
            let break_pos := Z.max period_pos newline_pos in
            if start <? break_pos then break_pos + 1 else end0
          else end0 in
        let chunk := strip (slice text start end_) in
        rest ← chunk_loop fuel' text chunk_size overlap (end_ - overlap);
        Some (match chunk with [] => rest | _ => chunk :: rest end)
    end
  else Some [].

(** [CustomChunker.chunk_text(text, chunk_size, overlap)]. *)
Definition chunk_text (fuel : nat) (text : list ascii)
    (chunk_size overlap : Z) : option (list (list ascii)) :=
  match text with
  | [] => Some []
  | _ => chunk_loop fuel text chunk_size overlap 0
  end.

(** [c] is a run of consecutive characters of [t]. *)
Definition piece_of (c t : list ascii) : Prop :=
  exists before after, t = before ++ c ++ after.

(** A chunk as [chunk_text] should give it: not empty, no blank at either
    end, at most [chunk_size] characters, cut out of the text. *)
Definition well_cut (text : list ascii) (chunk_size : Z) (c : list ascii)
    : Prop :=
  c <> [] /\
  (forall x, head c = Some x -> Sanitizer.is_space x = false) /\
  (forall x, last c = Some x -> Sanitizer.is_space x = false) /\
  Z.of_nat (length c) <= chunk_size /\
  piece_of c text.

(** *** Properties *)

Lemma clamp_range (i n : Z) : 0 <= n -> 0 <= clamp i n <= n.
Proof. unfold clamp. destruct (Z.ltb_spec i 0); lia. Qed.

Lemma clamp_id (i n : Z) : 0 <= i <= n -> clamp i n = i.
Proof. unfold clamp. destruct (Z.ltb_spec i 0); lia. Qed.

Lemma rfind_range (sub t : list ascii) (a b : Z) :
  let n := Z.of_nat (length t) in
  rfind sub t a b = -1 \/
  (clamp a n <= rfind sub t a b /\
   rfind sub t a b + Z.of_nat (length sub) <= clamp b n).
Proof.
  cbv zeta. unfold rfind.
  destruct (head _) as [i|] eqn:Hh; [|by left]. right. simpl.
  apply head_Some_elem_of, list_elem_of_filter in Hh as [_ Hi].
  apply elem_of_reverse, elem_of_seqZ in Hi. lia.
Qed.

Lemma lstrip_suffix (t : list ascii) : exists p, t = p ++ lstrip t.
Proof.
  induction t as [|c t [p IH]]; [by exists []|]. simpl.
  destruct (Sanitizer.is_space c); [|by exists []].
  exists (c :: p). simpl. by f_equal.
Qed.

Lemma lstrip_head (t : list ascii) (x : ascii) :
  head (lstrip t) = Some x -> Sanitizer.is_space x = false.
Proof.
  induction t as [|c t IH]; [done|]. simpl.
  destruct (Sanitizer.is_space c) eqn:E; [done|]. by intros [= <-].
Qed.

Lemma lstrip_keeps (t : list ascii) (x : ascii) :
  x ∈ t -> Sanitizer.is_space x = false -> x ∈ lstrip t.
Proof.
  induction t as [|c t IH]; [done|]. simpl. intros Hin Hx.
  destruct (Sanitizer.is_space c) eqn:E; [|done].
  apply elem_of_cons in Hin as [->|Hin]; [congruence|by apply IH].
Qed.

Lemma lstrip_last (t : list ascii) (x : ascii) :
  last (lstrip t) = Some x -> last t = Some x.
Proof.
  destruct (lstrip_suffix t) as [p Hp]. intros Hl. rewrite Hp.
  destruct (lstrip t) as [|c l] eqn:E; [done|].
  rewrite last_app. by rewrite Hl.
Qed.

Lemma strip_spec (t : list ascii) :
  piece_of (strip t) t /\
  (forall x, head (strip t) = Some x -> Sanitizer.is_space x = false) /\
  (forall x, last (strip t) = Some x -> Sanitizer.is_space x = false) /\
  (forall x, x ∈ t -> Sanitizer.is_space x = false -> x ∈ strip t).
Proof.
  unfold strip. split; [|split; [|split]].
  - destruct (lstrip_suffix t) as [p Hp].
    destruct (lstrip_suffix (reverse (lstrip t))) as [q Hq].
    exists p, (reverse q). rewrite Hp at 1. f_equal.
    rewrite <- reverse_app, <- Hq. by rewrite reverse_involutive.
  - intros x Hx. rewrite head_reverse in Hx. apply lstrip_last in Hx.
    rewrite last_reverse in Hx. by apply lstrip_head in Hx.
  - intros x Hx. rewrite last_reverse in Hx. by apply lstrip_head in Hx.
  - intros x Hin Hx. apply elem_of_reverse, lstrip_keeps; [|done].
    apply elem_of_reverse. by apply lstrip_keeps.
Qed.

Lemma piece_of_trans (a b c : list ascii) :
  piece_of a b -> piece_of b c -> piece_of a c.
Proof.
  intros (p & q & ->) (p' & q' & ->). exists (p' ++ p), (q ++ q').
  by rewrite <- !app_assoc.
Qed.

Lemma piece_of_length (a b : list ascii) :
  piece_of a b -> (length a <= length b)%nat.
Proof. intros (p & q & ->). rewrite !length_app. lia. Qed.

Lemma slice_piece (t : list ascii) (a b : Z) : piece_of (slice t a b) t.
Proof.
  unfold slice. set (j := Z.to_nat _). set (k := Z.to_nat _).
  exists (take k t), (drop j (drop k t)).
  by rewrite take_drop, take_drop.
Qed.

Lemma slice_length (t : list ascii) (a b : Z) :
  0 <= a <= b -> Z.of_nat (length (slice t a b)) <= b - a.
Proof.
  intros Hab. unfold slice. rewrite length_take. unfold clamp.
  destruct (Z.ltb_spec a 0), (Z.ltb_spec b 0); lia.
Qed.

Lemma slice_elem (t : list ascii) (a b : Z) (i : nat) (x : ascii) :
  0 <= a <= Z.of_nat i -> Z.of_nat i < b ->
  t !! i = Some x -> x ∈ slice t a b.
Proof.
  intros Ha Hb Hx. pose proof (lookup_lt_Some _ _ _ Hx) as Hi.
  unfold slice. rewrite (clamp_id a) by lia.
  assert (Hcb : Z.of_nat i < clamp b (Z.of_nat (length t))).
  { unfold clamp. destruct (Z.ltb_spec b 0); lia. }
  apply (list_elem_of_lookup_2 _ (i - Z.to_nat a)%nat).
  rewrite lookup_take_lt by lia. rewrite lookup_drop.
  replace (Z.to_nat a + (i - Z.to_nat a))%nat with i by lia. done.
Qed.

Section Loop.

Context (text : list ascii) (chunk_size overlap : Z).

Hypothesis Hoverlap : 0 <= overlap.
Hypothesis Hroom : overlap + 100 <= chunk_size.

(** The end of the window that starts at [start]. *)
Let window_end (start : Z) : Z :=
  let text_length := Z.of_nat (length text) in
  let end0 := start + chunk_size in
  if end0 <? text_length then
    let search_start := Z.max start (end0 - 100) in
    let period_pos := rfind ["."; " "]%char text search_start end0 in
    let newline_pos := rfind ["010"%char] text search_start end0 in
    let break_pos := Z.max period_pos newline_pos in
    if start <? break_pos then break_pos + 1 else end0
  else end0.

Lemma window_end_range (start : Z) :
  0 <= start ->
  start + overlap + 1 <= window_end start <= start + chunk_size.
Proof.
  intros Hs. unfold window_end. cbv zeta.
  destruct (Z.ltb_spec (start + chunk_size) (Z.of_nat (length text)));
    [|lia].
  set (a := Z.max start (start + chunk_size - 100)).
  pose proof (rfind_range ["."; " "]%char text a (start + chunk_size)) as Hp.
  pose proof (rfind_range ["010"%char] text a (start + chunk_size)) as Hn.
  cbv zeta in Hp, Hn.
  rewrite !(clamp_id a), !(clamp_id (start + chunk_size)) in Hp, Hn
    by (unfold a; lia).
  cbn [length] in Hp, Hn.
  destruct (Z.ltb_spec start
              (Z.max (rfind ["."; " "]%char text a (start + chunk_size))
                     (rfind ["010"%char] text a (start + chunk_size))));
    unfold a in *; lia.
Qed.

Lemma chunk_loop_spec (fuel : nat) (start : Z) :
  0 <= start ->
  Z.of_nat (length text) - start <= Z.of_nat fuel ->
  exists chunks,
    chunk_loop fuel text chunk_size overlap start = Some chunks /\
    Forall (well_cut text chunk_size) chunks /\
    forall (i : nat) (x : ascii),
      start <= Z.of_nat i -> text !! i = Some x ->
      Sanitizer.is_space x = false ->
      exists c, c ∈ chunks /\ x ∈ c.
Proof.
  revert start. induction fuel as [|fuel IH]; intros start Hs Hfuel;
    cbn [chunk_loop]; cbv zeta;
    (destruct (Z.ltb_spec start (Z.of_nat (length text))) as [Hlt|Hge];
     [|exists []; split; [done|]; split; [constructor|];
       intros i x Hi Hx _; apply lookup_lt_Some in Hx; lia]);
    [lia|].
  fold (window_end start).
  pose proof (window_end_range start Hs) as Hend.
  destruct (IH (window_end start - overlap)) as (rest & -> & Hcut & Hcov);
    [lia|lia|].
  cbn [mbind option_bind].
  set (window := slice text start (window_end start)).
  destruct (strip_spec window) as (Hpiece & Hhead & Hlast & Hkeep).
  assert (Hin : forall (i : nat) (x : ascii),
            start <= Z.of_nat i -> Z.of_nat i < window_end start ->
            text !! i = Some x -> Sanitizer.is_space x = false ->
            x ∈ strip window).
  { intros i x Hi Hie Hx Hsp. apply Hkeep; [|done].
    by apply (slice_elem text start (window_end start) i). }
  destruct (strip window) as [|c0 cs] eqn:Hchunk.
  - eexists. split; [done|]. split; [done|].
    intros i x Hi Hx Hsp.
    destruct (Z.lt_ge_cases (Z.of_nat i) (window_end start)) as [Hie|Hie].
    + specialize (Hin i x Hi Hie Hx Hsp). by apply elem_of_nil in Hin.
    + apply (Hcov i x); [lia|done|done].
  - eexists. split; [done|]. split.
    + constructor; [|done]. split; [done|]. split; [done|]. split; [done|].
      split.
      * apply piece_of_length in Hpiece.
        pose proof (slice_length text start (window_end start)).
        fold window in H. lia.
      * eapply piece_of_trans; [exact Hpiece|apply slice_piece].
    + intros i x Hi Hx Hsp.
      destruct (Z.lt_ge_cases (Z.of_nat i) (window_end start)) as [Hie|Hie].
      * exists (c0 :: cs). split; [left|]. by apply (Hin i x).
      * destruct (Hcov i x) as (c & Hc & Hxc); [lia|done|done|].
        exists c. split; [by right|done].
Qed.

End Loop.

Lemma chunk_text_total (text : list ascii) (chunk_size overlap : Z)
    (fuel : nat) :
  0 <= overlap -> overlap + 100 <= chunk_size ->
  (length text <= fuel)%nat ->
  is_Some (chunk_text fuel text chunk_size overlap).
Proof.
  intros Hov Hroom Hfuel. unfold chunk_text.
  destruct text as [|c0 rest] eqn:Ht; [done|].
  rewrite <- Ht in *. clear Ht.
  destruct (chunk_loop_spec text chunk_size overlap Hov Hroom fuel 0)
    as (chunks & Hc & _); [lia|lia|].
  by exists chunks.
Qed.


(** X26.  With [overlap >= chunk_size] (and [overlap >= 1]) the loop of
    [chunk_text] never ends on a non-empty text: the start of the window
    never reaches the end of the text, however many rounds are run. *)
Theorem chunk_text_never_returns (text : list ascii)
    (chunk_size overlap : Z) (fuel : nat) :
  text <> [] -> 1 <= overlap -> chunk_size <= overlap ->
  chunk_text fuel text chunk_size overlap = None.
Proof.
  intros Hne Hov Hcs. unfold chunk_text.
  destruct text as [|c0 rest] eqn:Ht; [done|].
  rewrite <- Ht in *.
  assert (H : forall start, start < Z.of_nat (length text) ->
                chunk_loop fuel text chunk_size overlap start = None).
  { clear Ht. induction fuel as [|fuel IH]; intros start Hs;
      cbn [chunk_loop]; cbv zeta;
      (destruct (Z.ltb_spec start (Z.of_nat (length text))); [|lia]);
      [done|].
    rewrite IH; [done|].
    pose proof (Nat2Z.is_nonneg (length text)) as Hn.
    destruct (Z.ltb_spec (start + chunk_size) (Z.of_nat (length text)));
      [|lia].
    set (a := Z.max start (start + chunk_size - 100)).
    pose proof (rfind_range ["."; " "]%char text a (start + chunk_size)) as Hp.
    pose proof (rfind_range ["010"%char] text a (start + chunk_size)) as Hl.
    cbv zeta in Hp, Hl. cbn [length] in Hp, Hl.
    pose proof (clamp_range (start + chunk_size) _ Hn).
    destruct (Z.ltb_spec start
                (Z.max (rfind ["."; " "]%char text a (start + chunk_size))
                       (rfind ["010"%char] text a (start + chunk_size))));
      lia. }
  apply H. rewrite Ht. simpl. lia.
Qed.


Lemma chunk_text_never_returns_run :
  chunk_text 1000 (list_ascii_of_string "abc") 10 10 = None.
Proof.
  apply (chunk_text_never_returns (list_ascii_of_string "abc") 10 10 1000).
  - discriminate.
  - lia.
  - lia.
Defined.

End Chunker.

(** ** Ingest: [CustomRAGSystem.add_pdf] in [custom_rag.py] *)

Module Ingest.

Import VectorDB.

Section AddPdf.

(** The numeric kernel, and the embedder: its state (client and cache) and
    [embed_texts]. *)
Context (K : np_kernel) (E : Type).
Context (embed_texts : E -> list string -> res (list (list float)) * E).

(** [chunks[i:i + 100] for i in range(0, len(chunks), 100)]. *)
Fixpoint batches_from (fuel : nat) (l : list string) : list (list string) :=
  match fuel, l with
  | S fuel', _ :: _ => take 100 l :: batches_from fuel' (drop 100 l)
  | _, _ => []
  end.

Definition batches (l : list string) : list (list string) :=
  batches_from (length l) l.

(** The embedding loop of [add_pdf]: the first batch that raises ends it. *)
Fixpoint embed_batches (e : E) (bs : list (list string))
    : res (list (list float)) * E :=
  match bs with
  | [] => (Ok [], e)
  | b :: bs' =>
      let r := embed_texts e b in
      match r.1 with
      | Raise x => (Raise x, r.2)
      | Ok vs =>
          let r' := embed_batches r.2 bs' in
          (vs' ← r'.1; Ok (vs ++ vs'), r'.2)
      end
  end.

(** [CustomRAGSystem.add_pdf]: [extracted] is what [extract_text_from_pdf]
    gives for the file and [name] is [pdf_path.name].  Every exception is
    caught and turned into [False].  The result is [None] only if the
    chunker has not ended after one round per character. *)
Definition add_pdf (fault : bool) (st : store K) (e : E)
    (extracted : res (list ascii)) (name : string) (conv : option Z)
    : option (bool * store K * E) :=
  match extracted with
  | Raise _ => Some (false, st, e)
  | Ok text =>
      chunks ← Chunker.chunk_text (length text) text 1000 200;
      match chunks with
      | [] => Some (false, st, e)        (* ValueError("No chunks ...") *)
      | _ =>
          let texts := map string_of_list_ascii chunks in
          let r := embed_batches e (batches texts) in
          match r.1 with
          | Raise _ => Some (false, st, r.2)
          | Ok embeddings =>
              let a := add_document K fault st name texts embeddings conv in
              Some (match a.1 with Ok _ => true | Raise _ => false end,
                    a.2, r.2)
          end
      end
  end.

(** *** Properties *)

Lemma batches_from_concat (fuel : nat) (l : list string) :
  (length l <= fuel)%nat -> concat (batches_from fuel l) = l.
Proof.
  revert l. induction fuel as [|fuel IH]; intros l Hl.
  { destruct l; [done|simpl in Hl; lia]. }
  destruct l as [|x l]; [done|]. cbn [batches_from concat].
  rewrite IH; [by rewrite take_drop|].
  rewrite length_drop. simpl in *. lia.
Qed.

(** X28.  Whenever [add_pdf] returns [False] (extraction failed, no
    chunk, an embedding call raised, or the insert raised) the vector
    store is as before. *)
Theorem add_pdf_failure_keeps_store (fault : bool) (st : store K) (e : E)
    (extracted : res (list ascii)) (name : string) (conv : option Z)
    (st' : store K) (e' : E) :
  add_pdf fault st e extracted name conv = Some (false, st', e') ->
  st' = st.
Proof.
  unfold add_pdf. destruct extracted as [text|x]; [|by intros [= <- _]].
  destruct (Chunker.chunk_text _ _ _ _) as [pieces|]; [|done].
  cbn [mbind option_bind]. destruct pieces as [|c0 cs]; [by intros [= <- _]|].
  destruct (embed_batches _ _).1 as [vs|x]; [|by intros [= <- _]].
  unfold add_document. destruct fault; cbn [fst snd]; [by intros [= <- _]|].
  done.
Qed.

Hypothesis embed_texts_total : forall e b,
  exists vs, (embed_texts e b).1 = Ok vs /\ length vs = length b.

Lemma embed_batches_total (e : E) (bs : list (list string)) :
  exists vs, (embed_batches e bs).1 = Ok vs /\
             length vs = length (concat bs).
Proof.
  revert e. induction bs as [|b bs IH]; intros e; [by exists []|].
  cbn [embed_batches concat].
  destruct (embed_texts_total e b) as (vs & Hvs & Hlen). rewrite Hvs.
  destruct (IH (embed_texts e b).2) as (vs' & Hvs' & Hlen').
  cbn [fst]. rewrite Hvs'. exists (vs ++ vs'). split; [done|].
  rewrite !length_app. lia.
Qed.

(** X27.  With an embedder that answers every batch with one vector per
    text and no database fault, [add_pdf] on an extracted text returns
    [False] and leaves the store alone when the text gives no chunk, and
    otherwise returns [True] having appended one row per chunk of
    [chunk_text(text, 1000, 200)], in order, with the chunk as text and
    the conversation id it was given. *)
Theorem add_pdf_stores_every_chunk (st : store K) (e : E)
    (text : list ascii) (name : string) (conv : option Z) :
  exists pieces ok st' e',
    Chunker.chunk_text (length text) text 1000 200 = Some pieces /\
    add_pdf false st e (Ok text) name conv = Some (ok, st', e') /\
    match pieces with
    | [] => ok = false /\ st' = st
    | _ =>
        ok = true /\
        exists new : list (chunk K),
          chunks st' = chunks st ++ new /\
          map chunk_text new = map string_of_list_ascii pieces /\
          Forall (fun ch => conversation_id ch = conv) new
    end.
Proof.
  destruct (Chunker.chunk_text_total text 1000 200 (length text))
    as (pieces & Hc); [lia|lia|lia|].
  exists pieces. unfold add_pdf. rewrite Hc. cbn [mbind option_bind].
  destruct pieces as [|c0 cs]; [exists false, st, e; by repeat split|].
  cbv beta iota.
  set (texts := map string_of_list_ascii (c0 :: cs)).
  destruct (embed_batches_total e (batches texts)) as (vs & Hvs & Hlen).
  unfold batches in Hlen. rewrite batches_from_concat in Hlen by done.
  rewrite Hvs. eexists _, _, _. split; [done|]. split; [reflexivity|].
  split; [done|].
  cbn [add_document fst snd chunks]. eexists. split; [done|]. split.
  - apply list_eq. intros i. rewrite !list_lookup_fmap, list_lookup_imap.
    destruct (texts !! i) as [t|] eqn:Ht.
    + destruct (lookup_lt_is_Some_2 vs i) as [v Hv].
      { rewrite Hlen. by eapply lookup_lt_Some. }
      rewrite (proj2 (lookup_zip_with_Some pair texts vs i (t, v)));
        [|by exists t, v].
      cbn. unfold texts in Ht. by rewrite list_lookup_fmap in Ht.
    + assert (Hz : zip texts vs !! i = None).
      { apply lookup_ge_None. rewrite length_zip.
        apply lookup_ge_None in Ht. lia. }
      rewrite Hz. cbn. unfold texts in Ht. by rewrite list_lookup_fmap in Ht.
  - apply Forall_forall. intros ch Hin.
    apply list_elem_of_lookup in Hin as [i Hi].
    rewrite list_lookup_imap in Hi.
    destruct (zip texts vs !! i); simpl in Hi; [|done]. by inversion Hi.
Qed.

End AddPdf.

(** An embedder without state that answers every text with the same
    vector, and one that always fails. *)
Definition constant_embedder (e : ()) (texts : list string)
    : res (list (list float)) * () :=
  (Ok (map (fun _ => [1%float]) texts), e).

Definition failing_embedder (e : ()) (texts : list string)
    : res (list (list float)) * () :=
  (Raise ValueError, e).

Lemma add_pdf_failure_keeps_store_run :
  add_pdf Binary64.kernel () failing_embedder false
    (empty_store Binary64.kernel) () (Ok (list_ascii_of_string "One."))
    "a.pdf" (Some 7)
  = Some (false, empty_store Binary64.kernel, ()) /\
  empty_store Binary64.kernel = empty_store Binary64.kernel.
Proof.
  assert (H : add_pdf Binary64.kernel () failing_embedder false
                (empty_store Binary64.kernel) ()
                (Ok (list_ascii_of_string "One.")) "a.pdf" (Some 7)
              = Some (false, empty_store Binary64.kernel, ()))
    by reflexivity.
  split; [exact H|].
  exact (add_pdf_failure_keeps_store Binary64.kernel () failing_embedder
           false _ _ _ _ _ _ _ H).
Defined.

Lemma add_pdf_stores_every_chunk_run :
  exists pieces ok st' e',
    Chunker.chunk_text 4 (list_ascii_of_string "One.") 1000 200
    = Some pieces /\
    add_pdf Binary64.kernel () constant_embedder false
      (empty_store Binary64.kernel) () (Ok (list_ascii_of_string "One."))
      "a.pdf" (Some 7) = Some (ok, st', e') /\
    match pieces with
    | [] => ok = false /\ st' = empty_store Binary64.kernel
    | _ =>
        ok = true /\
        exists new : list (chunk Binary64.kernel),
          chunks st' = chunks (empty_store Binary64.kernel) ++ new /\
          map chunk_text new = map string_of_list_ascii pieces /\
          Forall (fun ch => conversation_id ch = Some 7) new
    end.
Proof.
  apply (add_pdf_stores_every_chunk Binary64.kernel () constant_embedder).
  intros e b. exists (map (fun _ => [1%float]) b).
  split; [reflexivity|apply length_map].
Defined.

End Ingest.

(** ** Retrying: [retry_with_exponential_backoff] in [main.py] *)

Module Retry.

(** What one call of the retried function does: it returns a value or
    raises an exception whose [str] is [error_str]. *)
Inductive outcome (A : Type) : Type :=
  | Returned (a : A)
  | Failed (error_str : string).

Arguments Returned {A} a.
Arguments Failed {A} error_str.

(** The test [is_rate_limit] of [retry_with_exponential_backoff].  (The
    fourth needle is made of two CJK characters and never occurs in a
    string of code points below 256.) *)
Definition is_rate_limit (error_str : string) : bool :=
  let error_lower := Sanitizer.lower error_str in
  Sanitizer.contains "429" error_str ||
  Sanitizer.contains "rate" error_lower ||
  Sanitizer.contains "limit" error_lower ||
  Sanitizer.contains "too many requests" error_lower ||
  Sanitizer.contains "503" error_str ||
  Sanitizer.contains "service unavailable" error_lower ||
  Sanitizer.contains "timeout" error_lower.

(** [min(x, y)] on floats: [x] unless [y < x]. *)
Definition py_min (x y : float) : float := if PrimFloat.ltb y x then y else x.

Section Loop.

Context {A : Type}.

(** The loop of [retry_with_exponential_backoff].  [script] lists what the
    successive calls of [func] do and [draws] the successive values of
    [random.random()]; the result is what the loop returns or raises and
    the delays it slept, or [None] when a list runs out. *)
Fixpoint retry_loop (script : list (outcome A)) (draws : list float)
    (max_retries : Z) (max_delay exponential_base : float) (jitter : bool)
    (num_retries : Z) (delay : float) : option (outcome A * list float) :=
  match script with
  | [] => None
  | Returned a :: _ => Some (Returned a, [])
  | Failed error_str :: script' =>
      let num_retries := num_retries + 1 in
      if negb (is_rate_limit error_str) || (max_retries <? num_retries)
      then Some (Failed error_str, [])
      else
        let delay := py_min (PrimFloat.mul delay exponential_base) max_delay in
        if jitter then
          match draws with
          | [] => None
          | r :: draws' =>
              let delay := PrimFloat.mul delay (PrimFloat.add 0.5 r) in
              out ← retry_loop script' draws' max_retries max_delay
                      exponential_base jitter num_retries delay;
              Some (out.1, delay :: out.2)
          end
        else
          out ← retry_loop script' draws max_retries max_delay
                  exponential_base jitter num_retries delay;
          Some (out.1, delay :: out.2)
  end.

Definition retry_with_exponential_backoff (script : list (outcome A))
    (draws : list float) (max_retries : Z)
    (initial_delay max_delay exponential_base : float) (jitter : bool)
    : option (outcome A * list float) :=
  retry_loop script draws max_retries max_delay exponential_base jitter
    0 initial_delay.

(** An outcome that makes the loop retry. *)
Definition retryable (o : outcome A) : Prop :=
  match o with
  | Returned _ => False
  | Failed error_str => is_rate_limit error_str = true
  end.

(** *** Properties *)

Lemma retry_loop_settles (failures : list (outcome A)) (o : outcome A)
    (rest : list (outcome A)) (draws : list float) (max_retries : Z)
    (max_delay base : float) (jitter : bool) (k : Z) (delay : float) :
  Forall retryable failures ->
  k + Z.of_nat (length failures) <= max_retries ->
  (~ retryable o \/ k + Z.of_nat (length failures) = max_retries) ->
  (jitter = true -> (length failures <= length draws)%nat) ->
  exists sleeps,
    retry_loop (failures ++ o :: rest) draws max_retries max_delay base
      jitter k delay = Some (o, sleeps) /\
    length sleeps = length failures.
Proof.
  revert draws k delay.
  induction failures as [|f failures IH]; intros draws k delay Hf Hk Ho Hd.
  - exists []. split; [|done]. cbn.
    destruct o as [a|e]; [done|]. cbn in Ho.
    destruct (is_rate_limit e); cbn.
    + destruct Ho as [Ho|Ho]; [done|].
      destruct (Z.ltb_spec max_retries (k + 1)); [done|]. cbn in Ho. lia.
    + done.
  - apply Forall_cons in Hf as [Hf Hfs]. cbn [length] in Hk, Ho, Hd.
    destruct f as [a|e]; [done|]. cbn in Hf. cbn [app retry_loop].
    rewrite Hf. cbn [negb orb].
    destruct (Z.ltb_spec max_retries (k + 1)); [lia|].
    destruct jitter.
    + specialize (Hd eq_refl).
      destruct draws as [|r draws]; [cbn in Hd; lia|].
      destruct (IH draws (k + 1)
                  (PrimFloat.mul (py_min (PrimFloat.mul delay base) max_delay)
                     (PrimFloat.add 0.5 r)))
        as (sleeps & -> & Hlen); [done|lia| |cbn in Hd; lia|].
      { destruct Ho as [Ho|Ho]; [by left|right; lia]. }
      eexists. split; [done|]. cbn. by rewrite Hlen.
    + destruct (IH draws (k + 1)
                  (py_min (PrimFloat.mul delay base) max_delay))
        as (sleeps & -> & Hlen); [done|lia| |done|].
      { destruct Ho as [Ho|Ho]; [by left|right; lia]. }
      eexists. split; [done|]. cbn. by rewrite Hlen.
Qed.

(** X29.  [retry_with_exponential_backoff] ends with the first outcome of
    the function that is a return value, an error that is not retryable,
    or the error of call number [max_retries + 1], after retrying each of
    the retryable errors before it: the function has then been called at
    most [max_retries + 1] times, with one sleep before each retry. *)
Theorem retry_settles_on_first_final_outcome (failures : list (outcome A))
    (o : outcome A) (rest : list (outcome A)) (draws : list float)
    (max_retries : Z) (initial_delay max_delay base : float) (jitter : bool) :
  Forall retryable failures ->
  Z.of_nat (length failures) <= max_retries ->
  (~ retryable o \/ Z.of_nat (length failures) = max_retries) ->
  (jitter = true -> (length failures <= length draws)%nat) ->
  exists sleeps,
    retry_with_exponential_backoff (failures ++ o :: rest) draws max_retries
      initial_delay max_delay base jitter = Some (o, sleeps) /\
    length sleeps = length failures.
Proof.
  intros Hf Hk Ho Hd. unfold retry_with_exponential_backoff.
  by apply retry_loop_settles.
Qed.

End Loop.

(** Two rate-limit errors, then an answer, with three retries allowed and
    no jitter: the answer is returned after two sleeps. *)
Lemma retry_settles_on_first_final_outcome_run :
  exists sleeps,
    retry_with_exponential_backoff
      [Failed "Error 429"; Failed "Request timeout"; Returned 7] []
      3 1%float 60%float 2%float false
    = Some (Returned 7, sleeps) /\
    length sleeps = 2%nat.
Proof.
  apply (retry_settles_on_first_final_outcome
           [Failed "Error 429"; Failed "Request timeout"] (Returned 7) []
           [] 3 1%float 60%float 2%float false).
  - repeat constructor.
  - simpl. lia.
  - left. intros [].
  - discriminate.
Defined.

End Retry.
